(** * Adjoint algorithmic differentiation and gradient descent (example.js)

    A shallow embedding of the JavaScript program: numbers are IEEE binary64
    values (Rocq's primitive floats), node objects live in a store addressed
    by reference, the global array [aad_stack] holds references into it, and
    a thrown string is an exception value. *)

From Stdlib Require Import ZArith Floats Bool Lia.
From stdpp Require Import base list.

Set Warnings "-inexact-float".

(** ** JavaScript numbers *)

Module JS.
Local Open Scope float_scope.

(** [isNaN(x)] on a number. *)
Definition isNaN (x : float) : bool := is_nan x.

(** Truthiness of a number: [+0], [-0] and [NaN] are falsy. *)
Definition ToBoolean (x : float) : bool := negb (is_nan x || (x =? 0)).

(** [v || 0] where [v] is a number or [undefined] ([None]). *)
Definition or_zero (v : option float) : float :=
  match v with
  | Some x => if ToBoolean x then x else 0
  | None => 0
  end.

(** A number-or-undefined operand of an arithmetic operator:
    [undefined] converts to [NaN]. *)
Definition ToNumber (v : option float) : float :=
  match v with
  | Some x => x
  | None => nan
  end.

(** [Math.max(x, y)]: [NaN] if either is [NaN]; [+0] counts as larger
    than [-0]. *)
Definition Math_max (x y : float) : float :=
  if is_nan x || is_nan y then nan
  else if (x <? y)
          || match classify y, classify x with
             | PZero, NZero => true
             | _, _ => false
             end
       then y else x.

Definition Math_abs (x : float) : float := abs x.
Definition Math_sqrt (x : float) : float := sqrt x.

(** [Math.log] and [Math.exp] are fixed by the language only at the
    special arguments; elsewhere the result is an implementation's
    approximation, which the two variables stand for. *)
Section Approximated.
Variables ln_approx exp_approx : float -> float.

Definition Math_log (x : float) : float :=
  if is_nan x then nan
  else if x <? 0 then nan
  else if x =? 0 then neg_infinity
  else if x =? 1 then 0
  else if x =? infinity then infinity
  else ln_approx x.

Definition Math_exp (x : float) : float :=
  if is_nan x then nan
  else if x =? 0 then 1
  else if x =? infinity then infinity
  else if x =? neg_infinity then 0
  else exp_approx x.
End Approximated.
End JS.

(** ** Exceptions, store and the evaluation monad *)

(** The values the program throws, with [TypeError] for a property access
    on [undefined]. *)
Inductive exn : Type :=
| Division_by_0
| NAN_from_exp (v : float)
| NAN_from_log (v : float)
| unequal_vector_sizes
| TypeError.

Inductive result (A : Type) : Type :=
| Ok (a : A)
| Throw (e : exn).
Arguments Ok {A} a.
Arguments Throw {A} e.

(** A reference to a node object is its address in the store. *)
Abbreviation ref := nat (only parsing).

(** A node object. [derivative] is [None] while the field is absent. *)
Record Node : Type := mkNode {
  value : float;
  parents : list ref;
  ddparents : list float;
  derivative : option float
}.

(** The store of node objects and the global [aad_stack]. Objects are never
    freed: [aad_begin] replaces the array, the nodes of earlier sessions stay
    in the store. *)
Record State : Type := mkState {
  heap : list Node;
  aad_stack : list ref
}.

Definition M (A : Type) : Type := State -> result A * State.

Definition ret {A} (a : A) : M A := fun st => (Ok a, st).
Definition throw {A} (e : exn) : M A := fun st => (Throw e, st).
Definition bind {A B} (m : M A) (k : A -> M B) : M B :=
  fun st =>
    match m st with
    | (Ok a, st') => k a st'
    | (Throw e, st') => (Throw e, st')
    end.

Declare Scope aad_scope.
Delimit Scope aad_scope with aad.
Notation "x <- m ;; k" := (bind m (fun x => k))
  (at level 100, m at next level, right associativity) : aad_scope.
Notation "m ;;; k" := (bind m (fun _ => k))
  (at level 100, right associativity) : aad_scope.

(** Object literal [{value: .., parents: .., ddparents: ..}]. *)
Definition new_object (v : float) (ps : list ref) (dds : list float) : M ref :=
  fun st =>
    (Ok (length (heap st)),
     mkState (heap st ++ [mkNode v ps dds None]) (aad_stack st)).

(** [aad_stack.push(node)]. *)
Definition push (node : ref) : M unit :=
  fun st => (Ok tt, mkState (heap st) (aad_stack st ++ [node])).

(** [node.value]. *)
Definition get_value (node : ref) : M float :=
  fun st =>
    match heap st !! node with
    | Some n => (Ok (value n), st)
    | None => (Throw TypeError, st)
    end.

(** ** The AAD operations *)

Module AAD.
Local Open Scope float_scope.
Local Open Scope aad_scope.

Definition aad_begin : M unit :=
  fun st => (Ok tt, mkState (heap st) []).

Definition aad_const (c : float) : M ref :=
  node <- new_object c [] [] ;;
  push node ;;;
  ret node.

Definition aad_add (node1 node2 : ref) : M ref :=
  v1 <- get_value node1 ;;
  v2 <- get_value node2 ;;
  node <- new_object (v1 + v2) [node1; node2] [1; 1] ;;
  push node ;;;
  ret node.

Definition aad_sub (node1 node2 : ref) : M ref :=
  v1 <- get_value node1 ;;
  v2 <- get_value node2 ;;
  node <- new_object (v1 - v2) [node1; node2] [1; -1] ;;
  push node ;;;
  ret node.

Definition aad_mul (node1 node2 : ref) : M ref :=
  v1 <- get_value node1 ;;
  v2 <- get_value node2 ;;
  node <- new_object (v1 * v2) [node1; node2] [v2; v1] ;;
  push node ;;;
  ret node.

Definition aad_div (node1 node2 : ref) : M ref :=
  v2 <- get_value node2 ;;
  if v2 =? 0 then throw Division_by_0
  else
    v1 <- get_value node1 ;;
    node <- new_object (v1 / v2) [node1; node2]
                       [1 / v2; (- v1) / (v2 * v2)] ;;
    push node ;;;
    ret node.

Definition aad_max (node1 node2 : ref) : M ref :=
  v1 <- get_value node1 ;;
  v2 <- get_value node2 ;;
  node <- new_object (JS.Math_max v1 v2) [node1; node2]
                     [if v2 <=? v1 then 1 else 0;
                      if v2 <=? v1 then 0 else 1] ;;
  push node ;;;
  ret node.

Section Elementary.
Variables ln_approx exp_approx : float -> float.

Definition aad_exp (node : ref) : M ref :=
  v <- get_value node ;;
  let x := JS.Math_exp exp_approx v in
  if JS.isNaN x then throw (NAN_from_exp v)
  else
    r <- new_object x [node] [x] ;;
    push r ;;;
    ret r.

Definition aad_log (node : ref) : M ref :=
  v <- get_value node ;;
  let x := JS.Math_log ln_approx v in
  if JS.isNaN x then throw (NAN_from_log v)
  else
    r <- new_object x [node] [1 / v] ;;
    push r ;;;
    ret r.

Definition aad_pow (node1 node2 : ref) : M ref :=
  v1 <- get_value node1 ;;
  if v1 =? 0 then aad_const 0
  else
    l <- aad_log node1 ;;
    m <- aad_mul node2 l ;;
    aad_exp m.
End Elementary.

(** *** The backward pass *)

(** [node.derivative], [None] while the field is absent. *)
Definition get_derivative (h : list Node) (node : ref) : option float :=
  match h !! node with
  | Some n => derivative n
  | None => None
  end.

(** [node.derivative = d]: the object is updated in place, so every holder
    of the reference sees the new field. *)
Definition set_derivative (node : ref) (d : float) (h : list Node) : list Node :=
  alter (fun n => mkNode (value n) (parents n) (ddparents n) (Some d)) node h.

(** The assignment in the inner loop,
    [parent.derivative = (parent.derivative || 0) + node.ddparents[i] * node.derivative]. *)
Definition chain_rule (node parent : ref) (dd : float) (h : list Node) : list Node :=
  set_derivative parent
    (JS.or_zero (get_derivative h parent) + dd * JS.ToNumber (get_derivative h node))
    h.

(** [for (i = 0; i < node.parents.length; i++)], entered at index [i] with
    [ps] the parents from [i] on; an index past the end of [ddparents] reads
    [undefined]. *)
Fixpoint parents_loop (node : ref) (ps : list ref) (dds : list float) (i : nat)
    (h : list Node) : list Node :=
  match ps with
  | [] => h
  | parent :: ps' =>
      parents_loop node ps' dds (S i)
        (chain_rule node parent (JS.ToNumber (dds !! i)) h)
  end.

(** The body of the outer loop for [node = aad_stack[n]]. *)
Definition visit (node : ref) (h : list Node) : list Node :=
  match h !! node with
  | Some nd => parents_loop node (parents nd) (ddparents nd) 0 h
  | None => h
  end.

(** [for (n = aad_stack.length - 1; n >= 0; n--)], with [k = n + 1] nodes
    still to visit. *)
Fixpoint walk (stack : list ref) (k : nat) (h : list Node) : list Node :=
  match k with
  | O => h
  | S n =>
      match stack !! n with
      | Some node => walk stack n (visit node h)
      | None => walk stack n h
      end
  end.

Definition aad_calc_derivs : M unit :=
  fun st =>
    match last (aad_stack st) with
    | None => (Throw TypeError, st)
    | Some output =>
        (Ok tt,
         mkState (walk (aad_stack st) (length (aad_stack st))
                       (set_derivative output 1 (heap st)))
                 (aad_stack st))
    end.
End AAD.

(** ** Vector utilities *)

Module Vec.
Local Open Scope float_scope.

Definition vec_scale (vec : list float) (x : float) : list float :=
  map (fun y => x * y) vec.

(** [vec1.map((x,i) => x + vec2[i])] behind the length test. *)
Definition vec_add (vec1 vec2 : list float) : result (list float) :=
  if negb (length vec1 =? length vec2)%nat then Throw unequal_vector_sizes
  else Ok (imap (fun i x => x + JS.ToNumber (vec2 !! i)) vec1).

Definition vec_norm (vec : list float) : float :=
  JS.Math_sqrt (fold_left (fun t v => t + v * v) vec 0).

(** The loop of [vec_equal], entered at index [i] with [v1] the elements of
    [vec1] from [i] on. *)
Fixpoint vec_equal_loop (v1 vec2 : list float) (i : nat) : bool :=
  match v1 with
  | [] => true
  | x :: v1' =>
      if negb (x =? JS.ToNumber (vec2 !! i)) then false
      else vec_equal_loop v1' vec2 (S i)
  end.

Definition vec_equal (vec1 vec2 : list float) : bool :=
  if negb (length vec1 =? length vec2)%nat then false
  else vec_equal_loop vec1 vec2 0.
End Vec.

(** ** Gradient descent *)

Module GD.
Import Vec.
Local Open Scope float_scope.

(** An objective maps a point to [[value, derivative]], or throws. *)
Definition objective : Type := list float -> result (float * list float).

(** The control points of [gradient_descent_minimize]: the head of the
    outer [while(true)], the head of the inner one, and the two ways out.
    [iter] counts in integers, as the source does below 2^53. *)
Inductive config : Type :=
| Outer (iter : Z) (step : float) (x : list float)
| Inner (iter : Z) (step : float) (x : list float)
        (y : float) (direction : list float) (norm : float)
| Return (x : list float)
| Raise (e : exn).

(** The termination test [step * norm <= 1e-15 * Math.abs(y) || iter >= max_iter]. *)
Definition finished (step norm y : float) (iter max_iter : Z) : bool :=
  (step * norm <=? 1e-15 * JS.Math_abs y) || (max_iter <=? iter)%Z.

(** The Armijo test [y - new_y > .1 * step * norm || vec_equal(x, new_x)]. *)
Definition accepted (y new_y step norm : float) (x new_x : list float) : bool :=
  (0.1 * step * norm <? y - new_y) || vec_equal x new_x.

Section Loop.
Variable f : objective.
Variable max_iter : Z.

(** From the head of the outer loop to the [return] or to the inner loop. *)
Definition outer_head (iter : Z) (step : float) (x : list float) : config :=
  match f x with
  | Throw e => Raise e
  | Ok (y, dy) =>
      let direction := vec_scale dy (-1) in
      let norm := vec_norm direction in
      let iter := (iter + 1)%Z in
      if finished step norm y iter max_iter then Return x
      else Inner iter step x y direction norm
  end.

(** One round of the inner loop: to its head again with half the step, or
    past [break] to the head of the outer loop. *)
Definition inner_round (iter : Z) (step : float) (x : list float)
    (y : float) (direction : list float) (norm : float) : config :=
  match vec_add x (vec_scale direction (step / norm)) with
  | Throw e => Raise e
  | Ok new_x =>
      match f new_x with
      | Throw e => Raise e
      | Ok (new_y, _) =>
          if accepted y new_y step norm x new_x
          then Outer iter (step * 1.1) new_x
          else Inner iter (step * 0.5) x y direction norm
      end
  end.

Definition gd_step (c : config) : config :=
  match c with
  | Outer iter step x => outer_head iter step x
  | Inner iter step x y direction norm => inner_round iter step x y direction norm
  | Return x => Return x
  | Raise e => Raise e
  end.

(** The configuration after [n] steps from [c]. *)
Fixpoint run (n : nat) (c : config) : config :=
  match n with
  | O => c
  | S n' => run n' (gd_step c)
  end.

End Loop.

(** [gradient_descent_minimize(f, guess, max_iter)] watched for [fuel] steps
    of its two loops. *)
Definition gradient_descent_minimize (f : objective) (guess : list float)
    (max_iter : Z) (fuel : nat) : config :=
  run f max_iter fuel (Outer 0 1 guess).
End GD.

(** ** The path-length objective and the first example *)

Module Objective.
Import AAD.
Local Open Scope float_scope.
Local Open Scope aad_scope.

(** [cs.map(aad_const)]. *)
Fixpoint map_aad_const (cs : list float) : M (list ref) :=
  match cs with
  | [] => ret []
  | c :: cs' =>
      node <- aad_const c ;;
      nodes <- map_aad_const cs' ;;
      ret (node :: nodes)
  end.

(** An argument that may be [undefined], as an array element read past the
    end is: the operation that reads its [value] throws a TypeError. *)
Definition operand (o : option ref) : M ref :=
  match o with
  | Some node => ret node
  | None => throw TypeError
  end.

(** [heights_aad.map(c => c.derivative)]. *)
Definition derivatives (nodes : list ref) : M (list (option float)) :=
  fun st => (Ok (map (get_derivative (heap st)) nodes), st).

Section PathLength.
Variables ln_approx exp_approx : float -> float.

(** The body of the loop over the 100 segments, for segment [i]. *)
Definition segment (heights_aad : list ref) (i : nat) (total_length : ref) : M ref :=
  left_height <- (if (i =? 0)%nat then node <- aad_const 0 ;; ret (Some node)
                  else ret (heights_aad !! (i - 1)%nat)) ;;
  right_height <- (if (i =? 99)%nat then node <- aad_const 1 ;; ret (Some node)
                   else ret (heights_aad !! i)) ;;
  node1 <- operand left_height ;;
  node2 <- operand right_height ;;
  height_diff <- aad_sub node1 node2 ;;
  c <- aad_const 0.0001 ;;
  sq <- aad_mul height_diff height_diff ;;
  base <- aad_add c sq ;;
  half <- aad_const 0.5 ;;
  length <- aad_pow ln_approx exp_approx base half ;;
  aad_add total_length length.

(** [for (i = ..; i < 100; i++)] with [todo] segments to go, entered at [i]. *)
Fixpoint segments (heights_aad : list ref) (todo i : nat) (total_length : ref)
    : M ref :=
  match todo with
  | O => ret total_length
  | S todo' =>
      total_length' <- segment heights_aad i total_length ;;
      segments heights_aad todo' (S i) total_length'
  end.

Definition objective_function (heights : list float)
    : M (float * list (option float)) :=
  aad_begin ;;;
  heights_aad <- map_aad_const heights ;;
  total_length <- aad_const 0 ;;
  total_length <- segments heights_aad 100 0 total_length ;;
  aad_calc_derivs ;;;
  v <- get_value total_length ;;
  ds <- derivatives heights_aad ;;
  ret (v, ds).
End PathLength.

(** [for (i = ..; i < 4; i++) sum = aad_add(sum, aad_mul(xs[i], ys[i]))] with
    [todo] rounds to go, entered at [i]. *)
Fixpoint products (xs ys : list ref) (todo i : nat) (sum : ref) : M ref :=
  match todo with
  | O => ret sum
  | S todo' =>
      x <- operand (xs !! i) ;;
      y <- operand (ys !! i) ;;
      p <- aad_mul x y ;;
      sum' <- aad_add sum p ;;
      products xs ys todo' (S i) sum'
  end.

(** The first example of the file, with what it prints as its result. *)
Definition example_script (ln_approx : float -> float)
    : M (float * list (option float) * list (option float)) :=
  aad_begin ;;;
  xs <- map_aad_const [1; 2; 3; 4] ;;
  ys <- map_aad_const [2; 3; 4; 5] ;;
  sum <- aad_const 0 ;;
  sum <- products xs ys 4 0 sum ;;
  result <- aad_log ln_approx sum ;;
  aad_calc_derivs ;;;
  v <- get_value result ;;
  dxs <- derivatives xs ;;
  dys <- derivatives ys ;;
  ret (v, dxs, dys).
End Objective.

(** * Vocabulary of the properties

    The definitions that the statements below are written in: what a
    well-formed tape is, the terms the backward pass adds up, the
    specification's wording of that pass, and the inputs of the examples. *)

Module Tape.
Import AAD.
Local Open Scope float_scope.
Local Open Scope aad_scope.

(** The state after a node object with the given fields was created and
    pushed. *)
Definition appended (st : State) (v : float) (ps : list ref) (dds : list float)
    : State :=
  mkState (heap st ++ [mkNode v ps dds None]) (aad_stack st ++ [length (heap st)]).

(** The node at position [k] of the tape: it has as many local derivatives
    as parents, and each parent stands at an earlier position. *)
Definition node_ok (st : State) (k : nat) (r : ref) : Prop :=
  exists n, heap st !! r = Some n
    /\ length (parents n) = length (ddparents n)
    /\ Forall (fun p => p ∈ take k (aad_stack st)) (parents n).

Definition wf_tape (st : State) : Prop :=
  NoDup (aad_stack st)
  /\ (forall r, r ∈ aad_stack st -> (r < length (heap st))%nat)
  /\ (forall k r, aad_stack st !! k = Some r -> node_ok st k r).

(** The engine's entry points, to speak of every operation at once. *)
Inductive call : Type :=
| Const (c : float)
| Add (a b : ref)
| Sub (a b : ref)
| Mul (a b : ref)
| Div (a b : ref)
| Exp (a : ref)
| Pow (a b : ref)
| Max (a b : ref)
| Log (a : ref).

Definition call_args (c : call) : list ref :=
  match c with
  | Const _ => []
  | Add a b | Sub a b | Mul a b | Div a b | Pow a b | Max a b => [a; b]
  | Exp a | Log a => [a]
  end.

Definition run_call (ln_approx exp_approx : float -> float) (c : call) : M ref :=
  match c with
  | Const v => aad_const v
  | Add a b => aad_add a b
  | Sub a b => aad_sub a b
  | Mul a b => aad_mul a b
  | Div a b => aad_div a b
  | Exp a => aad_exp exp_approx a
  | Pow a b => aad_pow ln_approx exp_approx a b
  | Max a b => aad_max a b
  | Log a => aad_log ln_approx a
  end.

(** Every primitive operation either throws and leaves the state as it was,
    or creates one node over the given parents and pushes it. *)
Definition pushes_one (m : M ref) (ps : list ref) : Prop :=
  forall st,
    (exists e, m st = (Throw e, st))
    \/ (exists v dds, length ps = length dds
          /\ m st = (Ok (length (heap st)), appended st v ps dds)).

Ltac primitive :=
  intros st;
  unfold aad_const, aad_add, aad_sub, aad_mul, aad_div, aad_max, aad_exp, aad_log,
    bind, get_value, throw;
  repeat match goal with
         | |- context [heap st !! ?a] => destruct (heap st !! a)
         | |- context [if ?b then _ else _] => destruct b
         end;
  first [ left; eexists; reflexivity
        | right; do 2 eexists; split; [|reflexivity]; reflexivity ].

(** What an operation leaves behind: a well-formed tape that extends the
    one it started from. *)
Definition extends (st st' : State) : Prop :=
  wf_tape st' /\ exists new, aad_stack st' = aad_stack st ++ new.

(** The state in which [aad_begin()] leaves a store that held nothing. *)
Definition fresh_session : State := mkState [] [].

(** Two constants, the operands of the examples below. *)
Definition two_constants (c1 c2 : float) : State :=
  appended (appended fresh_session c1 [] []) c2 [] [].

(** From [st] to [st'] the store and the tape have only grown at the end,
    and a returned node is the last object created and the last element of
    the tape. *)
Definition grows (st st' : State) (res : result nat) : Prop :=
  heap st `prefix_of` heap st'
  /\ aad_stack st `prefix_of` aad_stack st'
  /\ forall r, res = Ok r ->
       last (aad_stack st') = Some r
       /\ S r = length (heap st')
       /\ (length (heap st) <= r)%nat.

(** What the exception [e] tells of the call [c] that threw it in [st]. *)
Definition raised_by (ln_approx exp_approx : float -> float) (c : call)
    (st : State) (e : exn) : Prop :=
  match e with
  | TypeError => False
  | Division_by_0 =>
      exists a b nb, c = Div a b /\ heap st !! b = Some nb /\ (value nb =? 0) = true
  | NAN_from_log v =>
      JS.isNaN (JS.Math_log ln_approx v) = true
      /\ exists a na, (c = Log a \/ exists b, c = Pow a b)
           /\ heap st !! a = Some na /\ v = value na
  | NAN_from_exp v =>
      JS.isNaN (JS.Math_exp exp_approx v) = true
      /\ ((exists a na, c = Exp a /\ heap st !! a = Some na /\ v = value na)
          \/ (exists a b na nb, c = Pow a b
                /\ heap st !! a = Some na /\ heap st !! b = Some nb
                /\ v = value nb * JS.Math_log ln_approx (value na)))
  | unequal_vector_sizes => False
  end.

(** From [st] to [st'] the tape stays well-formed and only grows. *)
Definition later (st st' : State) : Prop :=
  wf_tape st'
  /\ aad_stack st `prefix_of` aad_stack st'
  /\ heap st `prefix_of` heap st'.

(** The node [r] is a parent of some node of the tape. *)
Definition used (st : State) (r : ref) : Prop :=
  exists c nd, c ∈ aad_stack st /\ heap st !! c = Some nd /\ r ∈ parents nd.

(** The nodes of [nodes] are on the tape, and are the constants [vals],
    without a derivative. *)
Definition holds (nodes : list ref) (vals : list float) (st : State) : Prop :=
  forall j r, nodes !! j = Some r ->
    exists v, vals !! j = Some v
      /\ r ∈ aad_stack st
      /\ heap st !! r = Some (mkNode v [] [] None).

(** From [st] to [st'] the tape has grown by nodes whose parents are nodes
    of [roots] or new nodes themselves. *)
Definition pushed_over (roots : list ref) (st st' : State) : Prop :=
  later st st'
  /\ forall c nd,
       c ∈ aad_stack st' -> c ∉ aad_stack st -> heap st' !! c = Some nd ->
       Forall (fun p => p ∈ roots \/ (length (heap st) <= p)%nat) (parents nd).
End Tape.

Module Adjoint.
Import AAD Tape.
Local Open Scope float_scope.
Local Open Scope aad_scope.

(** What the backward pass never touches: the value, parents and local
    derivatives of each node. *)
Definition skeleton (h : list Node) : list (float * list ref * list float) :=
  (fun n => (value n, parents n, ddparents n)) <$> h.

(** The terms that the visit of [child] adds to the derivative of [r]: one
    per parent slot of [child] that refers to [r], the slot's local
    derivative times [dc], the derivative of [child]. *)
Fixpoint slot_terms (r : ref) (ps : list ref) (dds : list float) (i : nat)
    (dc : float) : list float :=
  match ps with
  | [] => []
  | p :: ps' =>
      (if decide (p = r) then [JS.ToNumber (dds !! i) * dc] else [])
      ++ slot_terms r ps' dds (S i) dc
  end.

Definition child_terms (h : list Node) (r child : ref) : list float :=
  match h !! child with
  | Some nd =>
      slot_terms r (parents nd) (ddparents nd) 0 (JS.ToNumber (derivative nd))
  | None => []
  end.

(** All the terms for [r], the children taken in the order given. *)
Definition terms (h : list Node) (children : list ref) (r : ref) : list float :=
  flat_map (child_terms h r) children.

(** The inner loop's assignment repeated over a list of terms. *)
Definition accumulate (d : option float) (ts : list float) : option float :=
  fold_left (fun acc t => Some (JS.or_zero acc + t)) ts d.

(** The sum of the terms from zero, left to right, in binary64. *)
Definition float_sum (ts : list float) : float := fold_left add ts 0.

(** The outer loop visits the nodes of the tape from the last to the
    first. *)
Definition visit_all (h : list Node) (order : list ref) : list Node :=
  foldl (fun h c => visit c h) h order.

(** A visiting order in which every node comes before all its parents. *)
Definition parents_follow (h : list Node) (order : list ref) : Prop :=
  NoDup order
  /\ forall pre c post, order = pre ++ c :: post ->
       exists nd, h !! c = Some nd /\ Forall (fun p => p ∈ post) (parents nd).

(** [kept s] holds unless [s] is [NaN] or [-0], the two values of a
    derivative that [(parent.derivative || 0)] does not pass on as they are. *)
Definition kept (s : float) : bool := JS.ToBoolean s || PrimFloat.Leibniz.eqb s 0.

(** Every sum of the first [k] terms, for [0 < k < length ts], is a number. *)
Definition partial_sums_not_nan (ts : list float) : bool :=
  forallb (fun k => negb (is_nan (float_sum (take k ts)))) (seq 1 (length ts - 1)).

(** No node of the tape has a partial sum of its terms that is [NaN]. *)
Definition no_nan_partial_sum (st : State) : bool :=
  forallb (fun r => partial_sums_not_nan (terms (heap st) (reverse (aad_stack st)) r))
          (aad_stack st).

(** No node of the tape has a derivative yet. *)
Definition no_derivative_yet (st : State) : bool :=
  forallb (fun r => match get_derivative (heap st) r with
                    | None => true
                    | Some _ => false
                    end)
          (aad_stack st).

(** The node [r] at position [k] is a parent of a node further up the tape. *)
Definition has_child (st : State) (k : nat) (r : ref) : bool :=
  existsb (fun c => match heap st !! c with
                    | Some nd => bool_decide (r ∈ parents nd)
                    | None => false
                    end)
          (drop (S k) (aad_stack st)).

(** Every node below the last that has parents is used by a later node. *)
Definition inner_nodes_used (st : State) : bool :=
  forallb (fun k => match aad_stack st !! k with
                    | Some r =>
                        match heap st !! r with
                        | Some nd =>
                            match parents nd with
                            | [] => true
                            | _ :: _ => has_child st k r
                            end
                        | None => true
                        end
                    | None => true
                    end)
          (seq 0 (length (aad_stack st) - 1)).

(** The graph of [y = add(multiply(a, a), a)] over a constant [a], followed
    by the backward pass. *)
Definition shared_parent (a0 : float) : M unit :=
  a <- aad_const a0 ;;
  m <- aad_mul a a ;;
  y <- aad_add m a ;;
  aad_calc_derivs.

(** The tape of [shared_parent a0] before the backward pass. *)
Definition shared_parent_tape (a0 : float) : State :=
  appended
    (appended (appended fresh_session a0 [] []) (a0 * a0) [0%nat; 0%nat] [a0; a0])
    (a0 * a0 + a0) [1%nat; 0%nat] [1; 1].

(** A graph with a node that nothing uses: [a = 3], [b = a + a], and the
    output [y = a * a]. *)
Definition unused_sum : M ref :=
  a <- aad_const 3 ;;
  b <- aad_add a a ;;
  aad_mul a a.

(** The specification's accumulation step for one [(parent, local_derivative)]
    pair of node [n]: [parent.derivative += local_derivative * n.derivative],
    an absent prior derivative counting as 0. *)
Definition spec_accumulate (n : ref) (h : list Node) (pair : ref * float)
    : list Node :=
  let '(parent, local_derivative) := pair in
  set_derivative parent
    (default 0 (get_derivative h parent)
     + local_derivative * JS.ToNumber (get_derivative h n))
    h.

(** The specification's [compute_derivatives(output)]: set
    [output.derivative = 1], then go through the tape in reverse creation
    order and accumulate over each node's pairs. *)
Definition compute_derivatives (st : State) (output : ref) : State :=
  mkState
    (foldl (fun h n =>
              match h !! n with
              | Some nd => foldl (spec_accumulate n) h (zip (parents nd) (ddparents nd))
              | None => h
              end)
           (set_derivative output 1 (heap st))
           (reverse (aad_stack st)))
    (aad_stack st).

(** A graph in which the product [y = a * c], created last, is [NaN] in its
    first slot: [a = 1], [k = NaN], [c = a + k], [y = a * c]. *)
Definition nan_product : M ref :=
  a <- aad_const 1 ;;
  k <- aad_const nan ;;
  c <- aad_add a k ;;
  aad_mul a c.

(** No node below position [k] of the tape has [p] among its parents. *)
Definition first_child (st : State) (k : nat) (p : ref) : bool :=
  forallb (fun c => match heap st !! c with
                    | Some nd => negb (bool_decide (p ∈ parents nd))
                    | None => true
                    end)
          (take k (aad_stack st)).
End Adjoint.

Module Binary64.
Local Open Scope float_scope.

(** The non-negative numbers, [NaN] excluded. *)
Definition SFnonneg (x : spec_float) : Prop :=
  match x with
  | S754_zero _ => True
  | S754_infinity s | S754_finite s _ _ => s = false
  | S754_nan => False
  end.

(** The non-negative numbers other than [-0]. *)
Definition SFpositive_or_zero (x : spec_float) : Prop :=
  SFnonneg x /\ x <> S754_zero true.

(** A measure that halving a finite number makes smaller until the number
    is zero: the distance of the exponent to the least one, plus the
    mantissa. *)
Definition halving_measure (x : spec_float) : nat :=
  match x with
  | S754_finite _ m e => S (Z.to_nat (e - emin) + Pos.to_nat m)
  | _ => 0
  end.

(** [Math.log] gives a number on every number that is not negative, and
    [Math.exp] on every number. *)
Definition log_defined (ln_approx : float -> float) : Prop :=
  forall x, is_nan x = false -> (x <? 0) = false -> is_nan (ln_approx x) = false.

Definition exp_defined (exp_approx : float -> float) : Prop :=
  forall x, is_nan x = false -> is_nan (exp_approx x) = false.
End Binary64.

Module Descent.
Import Vec GD Binary64.
Local Open Scope float_scope.

(** An objective that reports a value that is not a number where the
    gradient vanishes. *)
Definition nan_valued : objective := fun _ => Ok (nan, [0]).

(** An objective whose gradient is not a number. *)
Definition nan_gradient : objective := fun _ => Ok (0, [nan]).

(** [x => [x[0] * x[0], [2 * x[0]]]]. *)
Definition square (x : list float) : float * list float :=
  let x0 := JS.ToNumber (x !! 0%nat) in (x0 * x0, [2 * x0]).

(** An objective that never throws. *)
Definition total (g : list float -> float * list float) : objective :=
  fun x => Ok (g x).

Definition in_inner_loop (c : config) : bool :=
  match c with
  | Inner _ _ _ _ _ _ => true
  | _ => false
  end.

Definition halted (c : config) : bool :=
  match c with
  | Return _ | Raise _ => true
  | _ => false
  end.

Definition only_length_errors (c : config) : Prop :=
  match c with
  | Raise e => e = unequal_vector_sizes
  | _ => True
  end.

(** [iter] counts the rounds of the outer loop begun so far; while the loops
    run it stays below [max_iter], the first round apart. *)
Definition iter_in_range (max_iter : Z) (c : config) : Prop :=
  match c with
  | Outer iter _ _ => (iter = 0 \/ 0 < iter < max_iter)%Z
  | Inner iter _ _ _ _ _ => (0 < iter < max_iter)%Z
  | Return _ | Raise _ => True
  end.

(** Where a configuration comes from, for a guess of [n] coordinates: the
    current point has [n] coordinates, the direction of an inner loop is the
    negated gradient at the current point, and an exception is one that [f]
    threw at a point of [n] coordinates, or the length error for a gradient
    that [f] returned with another number of coordinates than its point. *)
Definition traced (f : objective) (n : nat) (c : config) : Prop :=
  match c with
  | Outer _ _ x | Return x => length x = n
  | Inner _ _ x y direction _ =>
      length x = n
      /\ exists dy, f x = Ok (y, dy) /\ direction = vec_scale dy (-1)
  | Raise e =>
      (exists x, length x = n /\ f x = Throw e)
      \/ (e = unequal_vector_sizes
          /\ exists x y dy, length x = n /\ f x = Ok (y, dy) /\ length dy <> length x)
  end.

(** An objective whose gradient always has two coordinates. *)
Definition long_gradient : objective := fun _ => Ok (1, [1; 1]).

(** The data of a backtracking loop is finite: [step] and the coordinates
    of the direction are finite, no coordinate of [x] is [NaN], the
    direction has as many coordinates as [x], and [norm] is neither [NaN]
    nor zero. *)
Definition finite_data (c : config) : bool :=
  match c with
  | Inner _ step x _ direction norm =>
      is_finite step && negb (existsb is_nan x) && forallb is_finite direction
      && (length direction =? length x)%nat
      && negb (is_nan norm) && negb (norm =? 0)
  | _ => true
  end.

(** [step] is a number that is not negative, and [norm] is the norm of the
    direction. *)
Definition descending (c : config) : Prop :=
  match c with
  | Outer _ step _ => SFpositive_or_zero (Prim2SF step)
  | Inner _ step _ _ direction norm =>
      SFpositive_or_zero (Prim2SF step) /\ norm = vec_norm direction
  | _ => True
  end.
End Descent.

Module PathLength.
Local Open Scope float_scope.

(** The nodes that segment [i] reads: the running total and the heights on
    its two sides that are elements of [heights_aad]. *)
Definition segment_roots (heights_aad : list ref) (i : nat) (total_length : ref)
    : list ref :=
  total_length
  :: (if (i =? 0)%nat then [] else option_list (heights_aad !! (i - 1)%nat))
  ++ (if (i =? 99)%nat then [] else option_list (heights_aad !! i)).

(** The heights on the two sides of segment [i]. *)
Definition left_height (heights : list float) (i : nat) : float :=
  if (i =? 0)%nat then 0 else JS.ToNumber (heights !! (i - 1)%nat).

Definition right_height (heights : list float) (i : nat) : float :=
  if (i =? 99)%nat then 1 else JS.ToNumber (heights !! i).

Section Length.
Variables ln_approx exp_approx : float -> float.

(** The length of a segment between the heights [l] and [r], as the power
    [(0.0001 + (l - r)^2) ** 0.5] is computed. *)
Definition segment_length (l r : float) : float :=
  JS.Math_exp exp_approx
    (0.5 * JS.Math_log ln_approx (0.0001 + (l - r) * (l - r))).

(** The lengths of the segments [i], [i + 1], ... added to [t] one by one. *)
Definition path_length_from (heights : list float) (todo i : nat) (t : float)
    : float :=
  fold_left
    (fun t i => t + segment_length (left_height heights i) (right_height heights i))
    (seq i todo) t.

Definition path_length (heights : list float) : float :=
  path_length_from heights 100 0 0.
End Length.
End PathLength.

(** * Facts of binary64 arithmetic *)

Module Binary64Facts.
Import Binary64.
Local Open Scope float_scope.

Lemma iter_pos_invariant {A} (P : A -> Prop) (f : A -> A) :
  (forall a, P a -> P (f a)) -> forall p a, P a -> P (SpecFloat.iter_pos f p a).
Proof.
  intros Hf. induction p as [p IH|p IH|]; intros a Ha; simpl; auto.
Qed.

Lemma shr_1_nonneg mrs : (0 <= shr_m mrs)%Z -> (0 <= shr_m (shr_1 mrs))%Z.
Proof.
  destruct mrs as [m r s]. simpl. intros Hm.
  destruct m as [|[p|p|]|p]; simpl; lia.
Qed.

Lemma shr_fexp_nonneg m e l :
  (0 <= m)%Z -> (0 <= shr_m (fst (shr_fexp prec emax m e l)))%Z.
Proof.
  intros Hm. unfold shr_fexp, shr.
  assert (H0 : (0 <= shr_m (shr_record_of_loc m l))%Z).
  { destruct l as [|[ | | ]]; simpl; lia. }
  destruct (fexp prec emax (Zdigits2 m + e) - e)%Z; simpl; try done.
  apply iter_pos_invariant; [apply shr_1_nonneg|done].
Qed.

Lemma round_nearest_even_nonneg m l :
  (0 <= m)%Z -> (0 <= round_nearest_even m l)%Z.
Proof.
  intros Hm. destruct l as [|[ | | ]]; simpl; try lia.
  destruct (Z.even m); lia.
Qed.

(** Rounding a non-negative mantissa gives a zero, a finite number or an
    infinity of the sign asked for, never [NaN]. *)
Lemma binary_round_aux_signed sx mx ex lx :
  (0 <= mx)%Z ->
  binary_round_aux prec emax sx mx ex lx = S754_zero sx
  \/ binary_round_aux prec emax sx mx ex lx = S754_infinity sx
  \/ exists m e, binary_round_aux prec emax sx mx ex lx = S754_finite sx m e.
Proof.
  intros Hm. unfold binary_round_aux.
  pose proof (shr_fexp_nonneg mx ex lx Hm) as H1.
  destruct (shr_fexp prec emax mx ex lx) as [mrs' e']. simpl in H1.
  pose proof (shr_fexp_nonneg _ e' loc_Exact
                (round_nearest_even_nonneg _ (loc_of_shr_record mrs') H1)) as H2.
  destruct (shr_fexp prec emax _ e' loc_Exact) as [mrs'' e'']. simpl in H2.
  destruct (shr_m mrs'') as [|m|m]; [by left| |lia].
  destruct (e'' <=? emax - prec)%Z; eauto.
Qed.

Lemma SFleb_zero_nonneg s x : SFnonneg x -> SFleb (S754_zero s) x = true.
Proof. destruct x as [s'|s'| |s' m e]; simpl; try done; by intros ->. Qed.

Lemma SFmul_nonneg m e y :
  SFnonneg y -> y <> S754_zero true ->
  SFnonneg (SFmul prec emax (S754_finite false m e) y).
Proof.
  destruct y as [s|s| |s m' e']; simpl; try done.
  intros -> _. simpl.
  destruct (binary_round_aux_signed false (Z.pos (m * m')) (e + e') loc_Exact)
    as [->|[->|(m2 & e2 & ->)]]; simpl; done || lia.
Qed.

Lemma SFabs_nonneg x : x <> S754_nan -> SFnonneg (SFabs x) /\ SFabs x <> S754_zero true.
Proof. destruct x; simpl; done. Qed.

Lemma Prim2SF_nan x : is_nan x = false -> Prim2SF x <> S754_nan.
Proof.
  unfold is_nan. rewrite FloatAxioms.eqb_spec. intros H Hx. rewrite Hx in H.
  discriminate.
Qed.

(** [0 <= 1e-15 * Math.abs(y)] for every [y] but [NaN]; so does [-0]. *)
Lemma zero_leb_tolerance z y :
  (exists s, Prim2SF z = S754_zero s) ->
  is_nan y = false ->
  (z <=? 1e-15 * abs y) = true.
Proof.
  intros [s Hz] Hy. rewrite FloatAxioms.leb_spec, Hz, mul_spec, abs_spec.
  apply SFleb_zero_nonneg.
  destruct (SFabs_nonneg (Prim2SF y) (Prim2SF_nan y Hy)) as [Hnn Hnz].
  assert (H15 : exists m e, Prim2SF 1e-15 = S754_finite false m e).
  { vm_compute. eauto. }
  destruct H15 as (m & e & ->). by apply SFmul_nonneg.
Qed.

Lemma eqb_zero_Prim2SF z : (z =? 0) = true -> exists s, Prim2SF z = S754_zero s.
Proof.
  rewrite FloatAxioms.eqb_spec.
  destruct (Prim2SF z) as [s|s| |s m e]; try destruct s; try discriminate; eauto.
Qed.

(** A number that compares equal to zero is one of the two zeros. *)
Lemma eqb_zero_inv v : (v =? 0) = true -> v = 0 \/ v = neg_zero.
Proof.
  rewrite FloatAxioms.eqb_spec. intros H.
  assert (Hv : exists s, Prim2SF v = S754_zero s).
  { destruct (Prim2SF v) as [s|s| |s m e]; try destruct s; try discriminate; eauto. }
  destruct Hv as [s Hs]. apply (f_equal SF2Prim) in Hs.
  rewrite SF2Prim_Prim2SF in Hs. destruct s; simpl in Hs; auto.
Qed.

Lemma is_finite_Prim2SF x :
  is_finite x = true ->
  (exists s, Prim2SF x = S754_zero s) \/ (exists s m e, Prim2SF x = S754_finite s m e).
Proof.
  unfold is_finite, is_nan, is_infinity.
  rewrite !FloatAxioms.eqb_spec, abs_spec.
  change (Prim2SF infinity) with (S754_infinity false).
  destruct (Prim2SF x) as [s|s| |s m e]; try destruct s; simpl;
    try discriminate; eauto.
Qed.

(** A finite number times a zero is a zero. *)
Lemma mul_finite_zero x z :
  is_finite x = true -> (z =? 0) = true -> exists s, Prim2SF (x * z) = S754_zero s.
Proof.
  intros Hx Hz. destruct (eqb_zero_Prim2SF z Hz) as [sz Hsz].
  rewrite mul_spec, Hsz.
  destruct (is_finite_Prim2SF x Hx) as [[s ->]|(s & m & e & ->)]; simpl; eauto.
Qed.

Lemma div_nan x : x / nan = nan.
Proof.
  apply Prim2SF_inj. rewrite div_spec.
  change (Prim2SF nan) with S754_nan. by destruct (Prim2SF x).
Qed.

Lemma mul_nan x : x * nan = nan.
Proof.
  apply Prim2SF_inj. rewrite mul_spec.
  change (Prim2SF nan) with S754_nan. by destruct (Prim2SF x).
Qed.

(** A square root is [NaN] or non-negative. *)
Lemma SFsqrt_nonneg x :
  SFsqrt prec emax x = S754_nan \/ SFnonneg (SFsqrt prec emax x).
Proof.
  destruct x as [s|[|]| |[|] m e]; simpl; auto.
  unfold SFsqrt_core_binary.
  set (m' := match (e - 2 * _)%Z with Z0 => _ | Zpos _ => _ | Zneg _ => _ end).
  assert (Hm' : (0 <= m')%Z).
  { unfold m'. destruct (e - 2 * _)%Z; try lia. apply Z.shiftl_nonneg. lia. }
  pose proof (Z.sqrtrem_sqrt m') as Hq. pose proof (Z.sqrt_nonneg m') as Hs.
  destruct (Z.sqrtrem m') as [q r]. simpl in Hq. subst q.
  match goal with
  | |- context [binary_round_aux prec emax false ?mz ?ez ?lz] =>
      destruct (binary_round_aux_signed false mz ez lz Hs)
        as [->|[->|(m2 & e2 & ->)]]
  end; simpl; auto.
Qed.

(** A square root that is neither [NaN] nor zero is positive. *)
Lemma sqrt_positive t :
  is_nan (sqrt t) = false -> (sqrt t =? 0) = false -> (0 <? sqrt t) = true.
Proof.
  intros Hnan Hz. apply Prim2SF_nan in Hnan. revert Hz.
  rewrite FloatAxioms.eqb_spec, FloatAxioms.ltb_spec.
  rewrite sqrt_spec in *. change (Prim2SF 0) with (S754_zero false).
  destruct (SFsqrt_nonneg (Prim2SF t)) as [H|H]; [done|]. fold SF64sqrt in H.
  destruct (SF64sqrt (Prim2SF t)) as [s|s| |s m e]; simpl in *; try done;
    by subst s.
Qed.

Lemma SFmul_one_r x :
  valid_binary x = true ->
  SFmul prec emax x (S754_finite false 4503599627370496 (-52)) = x.
Proof.
  destruct x as [s|s| |s m e]; simpl; intros Hv; try done; try (by destruct s).
  apply andb_true_iff in Hv as [Hcan Hbnd].
  unfold canonical_mantissa in Hcan. apply Z.eqb_eq in Hcan.
  rewrite xorb_false_r, !Pos.mul_xO_r, Pos.mul_1_r.
  unfold binary_round_aux, shr_fexp.
  cbn [Zdigits2 digits2_pos]. rewrite !Pos2Z.inj_succ.
  replace (fexp prec emax (_ + (e + -52)) - (e + -52))%Z with 52%Z
    by (unfold fexp in *; lia).
  cbn [shr shr_record_of_loc SpecFloat.iter_pos shr_1 orb fst snd shr_m
       loc_of_shr_record shr_r shr_s round_nearest_even].
  replace (e + -52 + 52)%Z with e by lia.
  cbn [Zdigits2]. rewrite Hcan, Z.sub_diag. cbn [shr shr_m]. by rewrite Hbnd.
Qed.

Lemma mul_one_r x : x * 1 = x.
Proof.
  apply Prim2SF_inj. rewrite mul_spec.
  change (Prim2SF 1) with (S754_finite false 4503599627370496 (-52)).
  apply SFmul_one_r, Prim2SF_valid.
Qed.

Lemma SFcompare_refl x : x <> S754_nan -> SFcompare x x = Some Eq.
Proof.
  destruct x as [s|s| |s m e]; simpl; try done; try (by destruct s).
  intros _. destruct s; rewrite Z.compare_refl.
  - f_equal. change Eq with (CompOpp Eq) at 2. f_equal. apply Pos.compare_cont_refl.
  - f_equal. apply Pos.compare_cont_refl.
Qed.

Lemma is_nan_Prim2SF x : is_nan x = true -> Prim2SF x = S754_nan.
Proof.
  unfold is_nan. rewrite FloatAxioms.eqb_spec. unfold SFeqb. intros H.
  destruct (Prim2SF x) as [s|s| |s m e] eqn:Hx; [| |done|];
    by rewrite SFcompare_refl in H.
Qed.

Lemma binary_normalize_not_nan m e sz : binary_normalize prec emax m e sz <> S754_nan.
Proof.
  destruct m as [|m|m]; simpl; [done| |]; unfold binary_round;
    destruct (shl_align _ _ _) as [mz ez];
    match goal with
    | |- binary_round_aux prec emax ?s ?mx ?ex ?lx <> _ =>
        destruct (binary_round_aux_signed s mx ex lx) as [->|[->|(m2 & e2 & ->)]]
    end; done || lia.
Qed.

(** A sum with a finite number is [NaN] only if the other number is. *)
Lemma add_finite_nan s m e y :
  SFadd prec emax (S754_finite s m e) y = S754_nan -> y = S754_nan.
Proof.
  destruct y as [sy|sy| |sy my ey]; simpl; try done.
  intros H. by apply binary_normalize_not_nan in H.
Qed.

Lemma add_one_nan a : is_nan (1 + a) = true -> a = nan.
Proof.
  intros H. apply is_nan_Prim2SF in H. rewrite add_spec in H.
  change (Prim2SF 1) with (S754_finite false 4503599627370496 (-52)) in H.
  apply add_finite_nan in H. apply Prim2SF_inj. by rewrite H.
Qed.

(** The two zeros add alike to every number but [-0]. *)
Lemma add_zero_sign a : a <> neg_zero -> 0 + a = neg_zero + a.
Proof.
  intros Ha. apply Prim2SF_inj. rewrite !add_spec.
  change (Prim2SF 0) with (S754_zero false).
  change (Prim2SF neg_zero) with (S754_zero true).
  destruct (Prim2SF a) as [[|]|s| |s m e] eqn:Hpa; try done.
  exfalso. apply Ha. apply (f_equal SF2Prim) in Hpa.
  by rewrite SF2Prim_Prim2SF in Hpa.
Qed.

(** In [(1 + a || 0) + a] the [|| 0] changes nothing. *)
Lemma or_zero_one_plus a : JS.or_zero (Some (1 + a)) + a = (1 + a) + a.
Proof.
  unfold JS.or_zero, JS.ToBoolean.
  destruct (is_nan (1 + a)) eqn:Hnan; simpl.
  { apply add_one_nan in Hnan. by subst a. }
  destruct (1 + a =? 0) eqn:Hz; simpl; [|done].
  destruct (eqb_zero_inv _ Hz) as [->| H0]; [done|]. rewrite H0.
  apply add_zero_sign. intros ->.
  apply (f_equal Prim2SF) in H0. vm_compute in H0. discriminate.
Qed.

Lemma SFcompare_antisym x y :
  SFcompare y x = option_map CompOpp (SFcompare x y).
Proof.
  destruct x as [sx|sx| |sx mx ex], y as [sy|sy| |sy my ey]; simpl;
    try done; try (by destruct sx); try (by destruct sy);
    try (by destruct sx, sy).
  destruct sx, sy; simpl; try done; f_equal;
    rewrite (Z.compare_antisym ex ey); destruct (ex ?= ey)%Z; simpl; try done;
    rewrite ?CompOpp_involutive, Pos.compare_cont_antisym; simpl;
    by rewrite ?CompOpp_involutive.
Qed.

Lemma SFcompare_Some_not_nan a b c :
  SFcompare a b = Some c -> a <> S754_nan /\ b <> S754_nan.
Proof. destruct a, b; simpl; try done. Qed.

Lemma not_nan_is_nan x : Prim2SF x <> S754_nan -> is_nan x = false.
Proof.
  intros H. unfold is_nan. rewrite FloatAxioms.eqb_spec. unfold SFeqb.
  by rewrite (SFcompare_refl _ H).
Qed.

Lemma classify_PZero x : classify x = PZero -> Prim2SF x = S754_zero false.
Proof.
  rewrite classify_spec. unfold SF64classify, SFclassify.
  destruct (Prim2SF x) as [[|]|[|]| |[|] m e]; try done;
    by destruct (_ =? _)%Z.
Qed.

Lemma classify_NZero x : classify x = NZero -> Prim2SF x = S754_zero true.
Proof.
  rewrite classify_spec. unfold SF64classify, SFclassify.
  destruct (Prim2SF x) as [[|]|[|]| |[|] m e]; try done;
    by destruct (_ =? _)%Z.
Qed.

(** [Math.max] is the larger argument: the first when [x >= y] (up to the
    sign of a zero), the second when [x < y], and [NaN] when either is. *)
Lemma Math_max_is_max x y :
  ((y <=? x) = true -> (JS.Math_max x y =? x) = true)
  /\ ((x <? y) = true -> JS.Math_max x y = y)
  /\ (is_nan x || is_nan y = true -> JS.Math_max x y = nan).
Proof.
  unfold JS.Math_max. split; [|split].
  - rewrite FloatAxioms.leb_spec. unfold SFleb. intros Hle.
    destruct (SFcompare (Prim2SF y) (Prim2SF x)) as [c|] eqn:Hc; [|done].
    destruct (SFcompare_Some_not_nan _ _ _ Hc) as [Hy Hx].
    rewrite (not_nan_is_nan x Hx), (not_nan_is_nan y Hy). simpl.
    assert (Hlt : (x <? y) = false).
    { rewrite FloatAxioms.ltb_spec. unfold SFltb.
      rewrite (SFcompare_antisym (Prim2SF y) (Prim2SF x)), Hc.
      by destruct c. }
    rewrite Hlt. simpl.
    assert (Hxx : (x =? x) = true).
    { rewrite FloatAxioms.eqb_spec. unfold SFeqb. by rewrite SFcompare_refl. }
    destruct (classify y) eqn:Hcy; try done.
    destruct (classify x) eqn:Hcx; try done.
    rewrite FloatAxioms.eqb_spec.
    by rewrite (classify_PZero y Hcy), (classify_NZero x Hcx).
  - intros Hlt. rewrite Hlt.
    rewrite FloatAxioms.ltb_spec in Hlt. unfold SFltb in Hlt.
    destruct (SFcompare (Prim2SF x) (Prim2SF y)) as [c|] eqn:Hc; [|done].
    destruct (SFcompare_Some_not_nan _ _ _ Hc) as [Hx Hy].
    by rewrite (not_nan_is_nan x Hx), (not_nan_is_nan y Hy).
  - by intros ->.
Qed.

(** Shifting out fewer bits than the mantissa has leaves that many fewer. *)
Lemma shr_1_digits mrs :
  (0 <= shr_m mrs)%Z -> (1 < Zdigits2 (shr_m mrs))%Z ->
  Zdigits2 (shr_m (shr_1 mrs)) = (Zdigits2 (shr_m mrs) - 1)%Z.
Proof.
  destruct mrs as [m r s]. simpl.
  destruct m as [|[p|p|]|p]; simpl; intros H0 H1; try lia.
Qed.

Lemma iter_shr_1_digits p mrs :
  (0 <= shr_m mrs)%Z -> (Z.pos p < Zdigits2 (shr_m mrs))%Z ->
  (0 <= shr_m (SpecFloat.iter_pos shr_1 p mrs))%Z
  /\ Zdigits2 (shr_m (SpecFloat.iter_pos shr_1 p mrs))
     = (Zdigits2 (shr_m mrs) - Z.pos p)%Z.
Proof.
  revert mrs. induction p as [p IH|p IH|]; intros mrs H0 Hd; simpl.
  - pose proof (shr_1_nonneg mrs H0) as H1.
    pose proof (shr_1_digits mrs H0 ltac:(lia)) as Hd1.
    destruct (IH (shr_1 mrs) H1 ltac:(lia)) as [H2 Hd2].
    destruct (IH _ H2 ltac:(lia)) as [H3 Hd3].
    split; [done|]. lia.
  - destruct (IH mrs H0 ltac:(lia)) as [H2 Hd2].
    destruct (IH _ H2 ltac:(lia)) as [H3 Hd3].
    split; [done|]. lia.
  - split; [by apply shr_1_nonneg|]. apply shr_1_digits; [done|lia].
Qed.

Lemma Zdigits2_pos m : (0 <= m)%Z -> (0 < Zdigits2 m)%Z -> (0 < m)%Z.
Proof. destruct m; simpl; lia. Qed.

Lemma shr_record_of_loc_m m l : shr_m (shr_record_of_loc m l) = m.
Proof. by destruct l as [|[ | | ]]. Qed.

(** Above the least exponent, rounding to the format shifts out fewer bits
    than the mantissa has. *)
Lemma shr_fexp_positive m e l :
  (0 < m)%Z -> (emin <= e)%Z ->
  (0 < shr_m (fst (shr_fexp prec emax m e l)))%Z
  /\ (emin <= snd (shr_fexp prec emax m e l))%Z.
Proof.
  intros Hm He. unfold shr_fexp, shr.
  destruct (fexp prec emax (Zdigits2 m + e) - e)%Z as [|p|p] eqn:Hn; simpl;
    rewrite ?shr_record_of_loc_m; try done.
  assert (Hp : (Z.pos p < Zdigits2 m)%Z).
  { unfold fexp, SpecFloat.emin in *.
    change prec with 53%Z in *. change emax with 1024%Z in *. lia. }
  destruct (iter_shr_1_digits p (shr_record_of_loc m l)) as [H0 Hd];
    rewrite ?shr_record_of_loc_m; try lia.
  rewrite shr_record_of_loc_m in Hd.
  split; [|lia]. apply Zdigits2_pos; [done|lia].
Qed.

Lemma round_nearest_even_positive m l : (0 < m)%Z -> (0 < round_nearest_even m l)%Z.
Proof.
  intros Hm. destruct l as [|[ | | ]]; simpl; try lia. destruct (Z.even m); lia.
Qed.

(** Above the least exponent a nonzero mantissa is not rounded to zero. *)
Lemma binary_round_aux_nonzero sx mx ex lx :
  (0 < mx)%Z -> (emin <= ex)%Z ->
  binary_round_aux prec emax sx mx ex lx = S754_infinity sx
  \/ exists m e, binary_round_aux prec emax sx mx ex lx = S754_finite sx m e.
Proof.
  intros Hm He. unfold binary_round_aux.
  destruct (shr_fexp_positive mx ex lx Hm He) as [H1 He1].
  destruct (shr_fexp prec emax mx ex lx) as [mrs' e']. simpl in H1, He1.
  destruct (shr_fexp_positive _ e' loc_Exact
              (round_nearest_even_positive _ (loc_of_shr_record mrs') H1) He1)
    as [H2 _].
  destruct (shr_fexp prec emax _ e' loc_Exact) as [mrs'' e'']. simpl in H2.
  destruct (shr_m mrs'') as [|m|m]; [lia| |lia].
  destruct (e'' <=? emax - prec)%Z; eauto.
Qed.

Lemma binary_round_nonzero s m e :
  (emin <= e)%Z ->
  binary_round prec emax s m e = S754_infinity s
  \/ exists m' e', binary_round prec emax s m e = S754_finite s m' e'.
Proof.
  intros He. unfold binary_round, shl_align.
  set (e' := fexp prec emax (Z.pos (digits2_pos m) + e)).
  assert (He' : (emin <= e')%Z) by (unfold e', fexp; lia).
  destruct (e' - e)%Z; apply binary_round_aux_nonzero; lia.
Qed.

Lemma valid_binary_emin s m e :
  valid_binary (S754_finite s m e) = true -> (emin <= e)%Z.
Proof.
  simpl. unfold bounded, canonical_mantissa, fexp. intros H.
  apply andb_true_iff in H as [H _]. apply Z.eqb_eq in H. lia.
Qed.

(** A sum is [-0] only when both numbers are. *)
Lemma SFadd_neg_zero x y :
  valid_binary x = true -> valid_binary y = true ->
  SFadd prec emax x y = S754_zero true ->
  x = S754_zero true /\ y = S754_zero true.
Proof.
  destruct x as [sx|sx| |sx mx ex], y as [sy|sy| |sy my ey];
    intros Hx Hy; try (simpl; done); try (by destruct sx, sy).
  apply valid_binary_emin in Hx, Hy.
  unfold SFadd, binary_normalize.
  destruct (_ + _)%Z as [|m|m]; [done| |].
  - destruct (binary_round_nonzero false m (Z.min ex ey)) as [H|(m' & e' & H)];
      [lia| |]; by rewrite H.
  - destruct (binary_round_nonzero true m (Z.min ex ey)) as [H|(m' & e' & H)];
      [lia| |]; by rewrite H.
Qed.

Lemma add_neg_zero x y : x + y = neg_zero -> x = neg_zero /\ y = neg_zero.
Proof.
  intros H. apply (f_equal Prim2SF) in H. rewrite add_spec in H.
  change (Prim2SF neg_zero) with (S754_zero true) in H.
  apply SFadd_neg_zero in H as [Hx Hy]; try apply Prim2SF_valid.
  split; apply Prim2SF_inj; by rewrite ?Hx, ?Hy.
Qed.

Lemma add_nan_r x : x + nan = nan.
Proof.
  apply Prim2SF_inj. rewrite add_spec.
  change (Prim2SF nan) with S754_nan. by destruct (Prim2SF x).
Qed.

Lemma SFadd_comm x y : SFadd prec emax x y = SFadd prec emax y x.
Proof.
  destruct x as [sx|sx| |sx mx ex], y as [sy|sy| |sy my ey]; simpl;
    try done; try (by destruct sx, sy).
  by rewrite Z.min_comm, Z.add_comm.
Qed.

Lemma add_comm x y : x + y = y + x.
Proof. apply Prim2SF_inj. rewrite !add_spec. apply SFadd_comm. Qed.

Lemma SFmul_comm x y : SFmul prec emax x y = SFmul prec emax y x.
Proof.
  destruct x as [sx|sx| |sx mx ex], y as [sy|sy| |sy my ey]; simpl;
    try done; try (by destruct sx, sy).
  by rewrite xorb_comm, Pos.mul_comm, Z.add_comm.
Qed.

Lemma mul_comm x y : x * y = y * x.
Proof. apply Prim2SF_inj. rewrite !mul_spec. apply SFmul_comm. Qed.

Lemma mul_one_l x : 1 * x = x.
Proof. rewrite mul_comm. apply mul_one_r. Qed.

Lemma binary_round_aux_opp s m e l :
  binary_round_aux prec emax (negb s) m e l = SFopp (binary_round_aux prec emax s m e l).
Proof.
  unfold binary_round_aux.
  destruct (shr_fexp prec emax m e l) as [mrs' e'].
  destruct (shr_fexp prec emax _ e' loc_Exact) as [mrs'' e''].
  destruct (shr_m mrs''); try done. by destruct (_ <=? _)%Z.
Qed.

Lemma SFmul_opp_r x y :
  SFmul prec emax x (SFopp y) = SFopp (SFmul prec emax x y).
Proof.
  destruct x as [sx|sx| |sx mx ex], y as [sy|sy| |sy my ey]; simpl;
    try done; try (by destruct sx, sy).
  rewrite <- binary_round_aux_opp. by destruct sx, sy.
Qed.

Lemma mul_opp_r x y : x * (- y) = - (x * y).
Proof. apply Prim2SF_inj. rewrite mul_spec, !opp_spec, mul_spec. apply SFmul_opp_r. Qed.

Lemma mul_opp_l x y : (- x) * y = - (x * y).
Proof. by rewrite mul_comm, mul_opp_r, mul_comm. Qed.

Lemma opp_involutive x : - - x = x.
Proof. apply Prim2SF_inj. rewrite !opp_spec. by destruct (Prim2SF x) as [s|s| |s m e]; simpl; rewrite ?negb_involutive. Qed.

Lemma mul_neg_one_l x : (-1) * x = - x.
Proof. change (-1) with (- (1)). by rewrite mul_opp_l, mul_one_l. Qed.

Lemma eqb_sym x y : (x =? y) = (y =? x).
Proof.
  rewrite !FloatAxioms.eqb_spec. unfold SFeqb.
  rewrite (SFcompare_antisym (Prim2SF x) (Prim2SF y)).
  by destruct (SFcompare (Prim2SF x) (Prim2SF y)) as [[ | | ]|].
Qed.

Lemma eqb_refl_not_nan x : (x =? x) = negb (is_nan x).
Proof. unfold is_nan. by rewrite negb_involutive. Qed.

Lemma SFsquare_nonneg x :
  x <> S754_nan -> SFpositive_or_zero (SFmul prec emax x x).
Proof.
  destruct x as [s|s| |s m e]; simpl; intros Hx; try done;
    rewrite ?xorb_nilpotent; try done.
  destruct (binary_round_aux_signed false (Z.pos (m * m)) (e + e) loc_Exact)
    as [->|[->|(m2 & e2 & ->)]]; done || lia.
Qed.

Lemma binary_round_signed s m e :
  binary_round prec emax s m e = S754_zero s
  \/ binary_round prec emax s m e = S754_infinity s
  \/ exists m' e', binary_round prec emax s m e = S754_finite s m' e'.
Proof.
  unfold binary_round. destruct (shl_align _ _ _) as [mz ez].
  by apply binary_round_aux_signed.
Qed.

Lemma SFadd_nonneg x y :
  SFpositive_or_zero x -> SFpositive_or_zero y ->
  SFpositive_or_zero (SFadd prec emax x y).
Proof.
  destruct x as [sx|sx| |sx mx ex], y as [sy|sy| |sy my ey];
    intros [Hx Hx0] [Hy Hy0]; simpl in Hx, Hy; subst; try done;
    try (by destruct sx, sy); try (by destruct sx); try (by destruct sy).
  unfold SFadd. cbn [cond_Zopp]. 
  destruct (shl_align mx ex (Z.min ex ey)) as [mx' ex'].
  destruct (shl_align my ey (Z.min ex ey)) as [my' ey']. cbn [fst].
  change (Z.pos mx' + Z.pos my')%Z with (Z.pos (mx' + my')). cbn [binary_normalize].
  destruct (binary_round_signed false (mx' + my') (Z.min ex ey))
    as [->|[->|(m2 & e2 & ->)]]; done.
Qed.

Lemma SFsqrt_not_nan x : SFnonneg x -> SFsqrt prec emax x <> S754_nan.
Proof.
  destruct x as [s|[|]| |[|] m e]; simpl; try done. intros _.
  unfold SFsqrt_core_binary.
  set (m' := match (e - 2 * _)%Z with Z0 => _ | Zpos _ => _ | Zneg _ => _ end).
  assert (Hm' : (0 <= m')%Z).
  { unfold m'. destruct (e - 2 * _)%Z; try lia. apply Z.shiftl_nonneg. lia. }
  pose proof (Z.sqrtrem_sqrt m') as Hq. pose proof (Z.sqrt_nonneg m') as Hs.
  destruct (Z.sqrtrem m') as [q r]. simpl in Hq. subst q.
  match goal with
  | |- context [binary_round_aux prec emax false ?mz ?ez ?lz] =>
      destruct (binary_round_aux_signed false mz ez lz Hs)
        as [->|[->|(m2 & e2 & ->)]]
  end; simpl; auto.
Qed.

Lemma add_nan_l x : nan + x = nan.
Proof. rewrite add_comm. apply add_nan_r. Qed.

Lemma square_positive_or_zero v :
  is_nan v = false -> SFpositive_or_zero (Prim2SF (v * v)).
Proof. intros Hv. rewrite mul_spec. by apply SFsquare_nonneg, Prim2SF_nan. Qed.

Lemma ltb_zero_not_eqb v : (v <? 0) = true -> (v =? 0) = false.
Proof.
  rewrite FloatAxioms.ltb_spec, FloatAxioms.eqb_spec. unfold SFltb, SFeqb.
  by destruct (SFcompare _ _) as [[ | | ]|].
Qed.

Lemma is_nan_eq v : is_nan v = true -> v = nan.
Proof. intros H. apply is_nan_Prim2SF in H. apply Prim2SF_inj. by rewrite H. Qed.

Lemma digits2_pos_succ p :
  (Z.pos (digits2_pos (Pos.succ p)) <= Z.pos (digits2_pos p) + 1)%Z.
Proof. induction p as [p IH|p IH|]; simpl; lia. Qed.

(** Above the least exponent, halving lowers the exponent by one. *)
Lemma SFmul_half_normal s m e :
  valid_binary (S754_finite s m e) = true ->
  (emin < e)%Z ->
  SFmul prec emax (S754_finite s m e) (S754_finite false 4503599627370496 (-53))
  = S754_finite s m (e - 1).
Proof.
  simpl. intros Hv He.
  apply andb_true_iff in Hv as [Hcan Hbnd].
  unfold canonical_mantissa in Hcan. apply Z.eqb_eq in Hcan.
  rewrite xorb_false_r, !Pos.mul_xO_r, Pos.mul_1_r.
  unfold binary_round_aux, shr_fexp.
  cbn [Zdigits2 digits2_pos]. rewrite !Pos2Z.inj_succ.
  replace (fexp prec emax (_ + (e + -53)) - (e + -53))%Z with 52%Z
    by (unfold fexp, SpecFloat.emin in *; lia).
  cbn [shr shr_record_of_loc SpecFloat.iter_pos shr_1 orb fst snd shr_m
       loc_of_shr_record shr_r shr_s round_nearest_even].
  replace (e + -53 + 52)%Z with (e - 1)%Z by lia.
  cbn [Zdigits2].
  replace (fexp prec emax (Z.pos (digits2_pos m) + (e - 1)) - (e - 1))%Z with 0%Z
    by (unfold fexp, SpecFloat.emin in *; lia).
  cbn [shr shr_m].
  apply Z.leb_le in Hbnd.
  replace (e - 1 <=? emax - prec)%Z with true by (symmetry; apply Z.leb_le; lia).
  done.
Qed.

(** At the least exponent, halving halves the mantissa, down to zero. *)
Lemma SFmul_half_subnormal s m :
  valid_binary (S754_finite s m emin) = true ->
  SFmul prec emax (S754_finite s m emin) (S754_finite false 4503599627370496 (-53))
  = S754_zero s
  \/ exists m', (m' < m)%positive
       /\ SFmul prec emax (S754_finite s m emin)
            (S754_finite false 4503599627370496 (-53))
          = S754_finite s m' emin.
Proof.
  simpl. intros Hv.
  apply andb_true_iff in Hv as [Hcan Hbnd].
  unfold canonical_mantissa in Hcan. apply Z.eqb_eq in Hcan.
  rewrite xorb_false_r, !Pos.mul_xO_r, Pos.mul_1_r.
  unfold binary_round_aux, shr_fexp.
  cbn [Zdigits2 digits2_pos]. rewrite !Pos2Z.inj_succ.
  replace (fexp prec emax (_ + (emin + -53)) - (emin + -53))%Z with 53%Z
    by (unfold fexp, SpecFloat.emin in *; lia).
  assert (Hfit : forall m1, (Z.pos (digits2_pos m1) <= 53)%Z ->
            (fexp prec emax (Zdigits2 (Z.pos m1) + (emin + -53 + 53))
             - (emin + -53 + 53))%Z = 0%Z).
  { intros m1 H1. cbn [Zdigits2]. unfold fexp, emin, SpecFloat.emin in *.
    change prec with 53%Z in *. lia. }
  assert (Hd : (Z.pos (digits2_pos m) <= 53)%Z).
  { unfold fexp, emin, SpecFloat.emin in *. change prec with 53%Z in *. lia. }
  destruct m as [p|p|];
    cbn [shr shr_record_of_loc SpecFloat.iter_pos shr_1 orb fst snd shr_m
         loc_of_shr_record shr_r shr_s round_nearest_even].
  - cbn [digits2_pos] in Hd. rewrite Pos2Z.inj_succ in Hd.
    right. destruct (Z.even (Z.pos p)).
    + exists p. split; [lia|]. rewrite Hfit by lia. done.
    + change (Z.pos p + 1)%Z with (Z.pos (p + 1)).
      exists (p + 1)%positive. split; [lia|].
      rewrite Hfit; [done|].
      pose proof (digits2_pos_succ p). rewrite Pos.add_1_r. lia.
  - cbn [digits2_pos] in Hd. rewrite Pos2Z.inj_succ in Hd.
    right. exists p. split; [lia|]. rewrite Hfit by lia. done.
  - left. done.
Qed.

Lemma Prim2SF_is_finite x :
  (exists s, Prim2SF x = S754_zero s) \/ (exists s m e, Prim2SF x = S754_finite s m e) ->
  is_finite x = true.
Proof.
  unfold is_finite, is_nan, is_infinity.
  rewrite !FloatAxioms.eqb_spec, abs_spec.
  change (Prim2SF infinity) with (S754_infinity false).
  intros [[s ->]|(s & m & e & Hx)].
  - by destruct s.
  - rewrite Hx. unfold SFeqb. rewrite SFcompare_refl by done. by destruct s.
Qed.

Lemma half_is_smaller x :
  is_finite x = true ->
  (exists s, Prim2SF x = S754_zero s)
  \/ (is_finite (x * 0.5) = true
      /\ (halving_measure (Prim2SF (x * 0.5)) < halving_measure (Prim2SF x))%nat).
Proof.
  intros Hx. destruct (is_finite_Prim2SF x Hx) as [?|(s & m & e & Hp)]; [by left|].
  right. pose proof (Prim2SF_valid x) as Hv. rewrite Hp in Hv.
  pose proof (valid_binary_emin s m e Hv) as He.
  rewrite mul_spec, Hp. unfold SF64mul.
  change (Prim2SF 0.5) with (S754_finite false 4503599627370496 (-53)).
  assert (Hfin : forall y, Prim2SF (x * 0.5) = y ->
            (exists s, y = S754_zero s) \/ (exists s m e, y = S754_finite s m e) ->
            is_finite (x * 0.5) = true).
  { intros y <-. apply Prim2SF_is_finite. }
  rewrite mul_spec, Hp in Hfin. unfold SF64mul in Hfin.
  change (Prim2SF 0.5) with (S754_finite false 4503599627370496 (-53)) in Hfin.
  destruct (decide (e = emin)) as [->|Hne].
  - destruct (SFmul_half_subnormal s m Hv) as [H|(m' & Hlt & H)]; rewrite H.
    + split; [apply (Hfin _ H); eauto|]. simpl. lia.
    + split; [apply (Hfin _ H); eauto 6|]. simpl. lia.
  - rewrite (SFmul_half_normal s m e Hv) by lia.
    split; [eapply Hfin; [by apply SFmul_half_normal; [|lia]|eauto 6]|].
    simpl. lia.
Qed.

Lemma div_zero_number z norm :
  (z =? 0) = true -> is_nan norm = false -> (norm =? 0) = false ->
  (z / norm =? 0) = true.
Proof.
  intros Hz Hn Hn0. destruct (eqb_zero_Prim2SF z Hz) as [s Hs].
  apply Prim2SF_nan in Hn. revert Hn0.
  rewrite !FloatAxioms.eqb_spec, div_spec, Hs.
  change (Prim2SF 0) with (S754_zero false).
  destruct (Prim2SF norm) as [s'|s'| |s' m e]; try done;
    try (by destruct s'); by destruct s, s'.
Qed.

Lemma add_zero_eqb x z :
  is_nan x = false -> (z =? 0) = true -> (x =? x + z) = true.
Proof.
  intros Hx Hz. destruct (eqb_zero_Prim2SF z Hz) as [s Hs].
  apply Prim2SF_nan in Hx.
  rewrite FloatAxioms.eqb_spec, add_spec, Hs.
  destruct (Prim2SF x) as [s'|s'| |s' m e] eqn:Hp; try done.
  - by destruct s, s'.
  - by destruct s'.
  - unfold SFadd, SFeqb. by rewrite SFcompare_refl.
Qed.

Lemma sub_finite_not_nan a b :
  is_finite a = true -> is_finite b = true -> is_nan (a - b) = false.
Proof.
  intros Ha Hb. apply not_nan_is_nan. rewrite sub_spec.
  destruct (is_finite_Prim2SF a Ha) as [[sa ->]|(sa & ma & ea & ->)],
           (is_finite_Prim2SF b Hb) as [[sb ->]|(sb & mb & eb & ->)];
    try done; try (by destruct sa, sb).
  apply binary_normalize_not_nan.
Qed.

Lemma positive_or_zero_not_negative x :
  SFpositive_or_zero (Prim2SF x) -> is_nan x = false /\ (x <? 0) = false.
Proof.
  intros [Hnn Hz]. split.
  - apply not_nan_is_nan. by destruct (Prim2SF x).
  - rewrite FloatAxioms.ltb_spec. change (Prim2SF 0) with (S754_zero false).
    destruct (Prim2SF x) as [s|s| |s m e]; simpl in *; try done; by subst.
Qed.

Lemma mul_half_not_nan y : is_nan y = false -> is_nan (0.5 * y) = false.
Proof.
  intros Hy. apply Prim2SF_nan in Hy. apply not_nan_is_nan. rewrite mul_spec.
  change (Prim2SF 0.5) with (S754_finite false 4503599627370496 (-53)).
  destruct (Prim2SF y) as [s|s| |s m e]; try done. unfold SF64mul, SFmul.
  match goal with
  | |- binary_round_aux prec emax ?s0 ?m0 ?e0 ?l0 <> _ =>
      destruct (binary_round_aux_signed s0 m0 e0 l0) as [->|[->|(m2 & e2 & ->)]]
  end; done || lia.
Qed.

Lemma Math_log_defined ln x :
  log_defined ln -> is_nan x = false -> (x <? 0) = false ->
  JS.isNaN (JS.Math_log ln x) = false.
Proof.
  intros Hln Hx Hneg. unfold JS.isNaN, JS.Math_log. rewrite Hx, Hneg.
  destruct (x =? 0); [done|]. destruct (x =? 1); [done|].
  destruct (x =? infinity); [done|]. by apply Hln.
Qed.

Lemma Math_exp_defined ex x :
  exp_defined ex -> is_nan x = false -> JS.isNaN (JS.Math_exp ex x) = false.
Proof.
  intros Hex Hx. unfold JS.isNaN, JS.Math_exp. rewrite Hx.
  destruct (x =? 0); [done|]. destruct (x =? infinity); [done|].
  destruct (x =? neg_infinity); [done|]. by apply Hex.
Qed.

Lemma SFadd_finite_positive m e y :
  valid_binary (S754_finite false m e) = true ->
  valid_binary y = true ->
  SFpositive_or_zero y ->
  exists z, SFadd prec emax (S754_finite false m e) y = z
    /\ match z with
       | S754_infinity false | S754_finite false _ _ => True
       | _ => False
       end.
Proof.
  intros Hx Hy [Hnn Hnz]. eexists. split; [reflexivity|].
  destruct y as [s|s| |s my ey]; simpl in Hnn; try done; subst; try done.
  apply valid_binary_emin in Hx, Hy.
  unfold SFadd. cbn [cond_Zopp].
  destruct (shl_align m e (Z.min e ey)) as [mx' ex'].
  destruct (shl_align my ey (Z.min e ey)) as [my' ey']. cbn [fst].
  change (Z.pos mx' + Z.pos my')%Z with (Z.pos (mx' + my')). cbn [binary_normalize].
  destruct (binary_round_nonzero false (mx' + my') (Z.min e ey)) as [H|(m2 & e2 & H)];
    [lia| |]; by rewrite H.
Qed.

Lemma digits2_pos_size p : digits2_pos p = Pos.size p.
Proof. induction p as [p IH|p IH|]; simpl; by rewrite ?IH. Qed.

Lemma digits2_pos_bounds m :
  (2 ^ (Z.pos (digits2_pos m) - 1) <= Z.pos m < 2 ^ Z.pos (digits2_pos m))%Z.
Proof.
  rewrite digits2_pos_size.
  pose proof (Pos.size_gt m) as Hgt. pose proof (Pos.size_le m) as Hle.
  apply Pos2Z.pos_lt_pos in Hgt. apply Pos2Z.pos_le_pos in Hle.
  rewrite Pos2Z.inj_pow in Hgt, Hle.
  change (Z.pos m~0) with (2 * Z.pos m)%Z in Hle.
  split; [|done].
  replace (Z.pos (Pos.size m)) with (Z.succ (Z.pos (Pos.size m) - 1)) in Hle by lia.
  rewrite Z.pow_succ_r in Hle by lia. lia.
Qed.

Lemma valid_binary_digits s m e :
  valid_binary (S754_finite s m e) = true ->
  (emin <= e)%Z
  /\ (Z.pos m < 2 ^ 53)%Z
  /\ ((emin < e)%Z -> (2 ^ 52 <= Z.pos m)%Z).
Proof.
  simpl. unfold bounded, canonical_mantissa, fexp, emin, SpecFloat.emin.
  change prec with 53%Z. change emax with 1024%Z.
  intros H. apply andb_true_iff in H as [H _]. apply Z.eqb_eq in H.
  pose proof (digits2_pos_bounds m) as [Hlo Hhi].
  split; [lia|]. split.
  - eapply Z.lt_le_trans; [exact Hhi|]. apply Z.pow_le_mono_r; lia.
  - intros He. replace (Z.pos (digits2_pos m)) with 53%Z in Hlo by lia. exact Hlo.
Qed.

Lemma iter_xO_pow m d : Z.pos (Pos.iter xO m d) = (Z.pos m * 2 ^ Z.pos d)%Z.
Proof.
  induction d as [|d IH] using Pos.peano_ind.
  - simpl. lia.
  - rewrite Pos.iter_succ, Pos2Z.inj_xO, IH, Pos2Z.inj_succ, Z.pow_succ_r by lia.
    lia.
Qed.

Lemma shl_align_value m e ez :
  (ez <= e)%Z ->
  Z.pos (fst (shl_align m e ez)) = (Z.pos m * 2 ^ (e - ez))%Z.
Proof.
  intros He. unfold shl_align.
  destruct (ez - e)%Z as [|d|d] eqn:Hd; simpl; try lia.
  - replace (e - ez)%Z with 0%Z by lia. lia.
  - rewrite iter_xO_pow. f_equal. f_equal. lia.
Qed.

(** larger exponent means larger magnitude *)
Lemma higher_exponent_is_larger s1 m1 e1 s2 m2 e2 :
  valid_binary (S754_finite s1 m1 e1) = true ->
  valid_binary (S754_finite s2 m2 e2) = true ->
  (e1 < e2)%Z ->
  (Z.pos m1 < Z.pos m2 * 2 ^ (e2 - e1))%Z.
Proof.
  intros H1 H2 He.
  destruct (valid_binary_digits _ _ _ H1) as (Hmin1 & Hhi1 & _).
  destruct (valid_binary_digits _ _ _ H2) as (_ & _ & Hlo2).
  specialize (Hlo2 ltac:(lia)).
  assert (Hp : (2 ^ 1 <= 2 ^ (e2 - e1))%Z) by (apply Z.pow_le_mono_r; lia).
  change (2 ^ 1)%Z with 2%Z in Hp. change (2 ^ 53)%Z with (2 ^ 52 * 2)%Z in Hhi1.
  nia.
Qed.

Lemma binary_normalize_sign m e :
  match binary_normalize prec emax m e false with
  | S754_infinity false | S754_finite false _ _ => (0 < m)%Z
  | _ => True
  end.
Proof.
  destruct m as [|p|p]; simpl; [done| |].
  - destruct (binary_round_signed false p e) as [->|[->|(m2 & e2 & ->)]]; done || lia.
  - destruct (binary_round_signed true p e) as [->|[->|(m2 & e2 & ->)]]; done.
Qed.

(** If a - b is positive then b < a *)
Lemma SFsub_positive a b :
  valid_binary a = true -> valid_binary b = true ->
  match SFsub prec emax a b with
  | S754_infinity false | S754_finite false _ _ => SFcompare b a = Some Lt
  | _ => True
  end.
Proof.
  intros Ha Hb.
  destruct a as [sa|sa| |sa ma ea], b as [sb|sb| |sb mb eb];
    try done; try (by destruct sa, sb); try (by destruct sa); try (by destruct sb).
  unfold SFsub.
  pose proof (binary_normalize_sign
                (cond_Zopp sa (Z.pos (fst (shl_align ma ea (Z.min ea eb))))
                 - cond_Zopp sb (Z.pos (fst (shl_align mb eb (Z.min ea eb)))))
                (Z.min ea eb)) as Hsign.
  assert (Hcmp : (0 < cond_Zopp sa (Z.pos (fst (shl_align ma ea (Z.min ea eb))))
                       - cond_Zopp sb (Z.pos (fst (shl_align mb eb (Z.min ea eb)))))%Z ->
                 SFcompare (S754_finite sb mb eb) (S754_finite sa ma ea) = Some Lt).
  { clear Hsign. rewrite !shl_align_value by lia. intros Hpos.
    unfold SFcompare. fold (Pos.compare mb ma).
    destruct sa, sb; simpl in Hpos; try lia; try done.
    - destruct (Z.compare_spec eb ea) as [Heq|Hlt|Hgt]; try done.
      + subst. rewrite Z.min_id, Z.sub_diag in Hpos. simpl in Hpos.
        f_equal. change Lt with (CompOpp Gt). f_equal.
        apply Pos.compare_gt_iff. lia.
      + exfalso.
        pose proof (higher_exponent_is_larger _ _ _ _ _ _ Hb Ha Hlt) as H.
        rewrite Z.min_r, Z.sub_diag in Hpos by lia. simpl in Hpos. lia.
    - destruct (Z.compare_spec eb ea) as [Heq|Hlt|Hgt]; try done.
      + subst. rewrite Z.min_id, Z.sub_diag in Hpos. simpl in Hpos.
        f_equal. apply Pos.compare_lt_iff. lia.
      + exfalso.
        pose proof (higher_exponent_is_larger _ _ _ _ _ _ Ha Hb Hgt) as H.
        rewrite Z.min_l, Z.sub_diag in Hpos by lia. simpl in Hpos. lia. }
  destruct (binary_normalize _ _ _ _ _) as [s|[|]| |[|] m e]; try done;
    by apply Hcmp.
Qed.

Lemma SFmul_positive_or_zero m e y :
  SFpositive_or_zero y ->
  SFpositive_or_zero (SFmul prec emax y (S754_finite false m e)).
Proof.
  intros [Hnn Hnz]. rewrite SFmul_comm.
  destruct y as [[|]|[|]| |[|] m' e']; simpl in *; try done.
  destruct (binary_round_aux_signed false (Z.pos (m * m')) (e + e') loc_Exact)
    as [->|[->|(m2 & e2 & ->)]]; done || lia.
Qed.

Lemma SFmul_nonneg_or_nan a b :
  SFnonneg a -> SFnonneg b ->
  SFmul prec emax a b = S754_nan \/ SFnonneg (SFmul prec emax a b).
Proof.
  destruct a as [sa|sa| |sa ma ea], b as [sb|sb| |sb mb eb]; simpl;
    intros Ha Hb; subst; simpl; try done; auto.
  destruct (binary_round_aux_signed false (Z.pos (ma * mb)) (ea + eb) loc_Exact)
    as [->|[->|(m2 & e2 & ->)]]; try lia; right; done.
Qed.

Lemma SFltb_nonneg_positive t s :
  SFnonneg t -> SFltb t s = true ->
  match s with
  | S754_infinity false | S754_finite false _ _ => True
  | _ => False
  end.
Proof.
  unfold SFltb.
  destruct t as [st|st| |st mt et], s as [ss|ss| |ss ms es]; simpl;
    intros Ht; subst; try done; by destruct ss.
Qed.
End Binary64Facts.

(** * The tape stays well-formed *)

Module TapeFacts.
Import AAD Tape.
Local Open Scope float_scope.
Local Open Scope aad_scope.

(** The empty tape of a new session, over whatever the store holds. *)
Lemma wf_begin st : wf_tape (snd (aad_begin st)).
Proof.
  repeat split; simpl.
  - constructor.
  - intros r Hr. inversion Hr.
  - intros k r Hk. rewrite lookup_nil in Hk. discriminate.
Qed.

Lemma wf_appended st v ps dds :
  wf_tape st ->
  length ps = length dds ->
  Forall (fun p => p ∈ aad_stack st) ps ->
  wf_tape (appended st v ps dds).
Proof.
  intros (Hnd & Hal & Hok) Hlen Hps. unfold appended. repeat split; simpl.
  - apply NoDup_app. split; [done|]. split; [|apply NoDup_singleton].
    intros r Hr Hin. apply list_elem_of_singleton in Hin. subst r.
    apply Hal in Hr. lia.
  - intros r Hr. rewrite length_app. simpl.
    apply elem_of_app in Hr as [Hr|Hr].
    + apply Hal in Hr. lia.
    + apply list_elem_of_singleton in Hr. lia.
  - intros k r Hk.
    destruct (decide (k < length (aad_stack st))%nat) as [Hlt|Hge].
    + rewrite lookup_app_l in Hk by done.
      destruct (Hok k r Hk) as (n & Hn & Hl & Hp).
      exists n. simpl. split; [|split; [done|]].
      * rewrite lookup_app_l; [done|]. by eapply lookup_lt_Some.
      * rewrite take_app_le by lia. done.
    + assert (k = length (aad_stack st)) as ->.
      { apply lookup_lt_Some in Hk. rewrite length_app in Hk. simpl in Hk. lia. }
      rewrite list_lookup_middle in Hk by done. injection Hk as <-.
      exists (mkNode v ps dds None). simpl. split; [|split; [done|]].
      * by rewrite list_lookup_middle.
      * simpl. rewrite take_app_length. done.
Qed.

Lemma aad_const_pushes c : pushes_one (aad_const c) [].
Proof. primitive. Qed.

Lemma aad_add_pushes a b : pushes_one (aad_add a b) [a; b].
Proof. primitive. Qed.

Lemma aad_sub_pushes a b : pushes_one (aad_sub a b) [a; b].
Proof. primitive. Qed.

Lemma aad_mul_pushes a b : pushes_one (aad_mul a b) [a; b].
Proof. primitive. Qed.

Lemma aad_div_pushes a b : pushes_one (aad_div a b) [a; b].
Proof. primitive. Qed.

Lemma aad_max_pushes a b : pushes_one (aad_max a b) [a; b].
Proof. primitive. Qed.

Lemma aad_exp_pushes ex a : pushes_one (aad_exp ex a) [a].
Proof. primitive. Qed.

Lemma aad_log_pushes ln a : pushes_one (aad_log ln a) [a].
Proof. primitive. Qed.

Lemma extends_refl st : wf_tape st -> extends st st.
Proof. intros H. split; [done|]. exists []. by rewrite app_nil_r. Qed.

Lemma extends_trans st1 st2 st3 : extends st1 st2 -> extends st2 st3 -> extends st1 st3.
Proof.
  intros [_ [n1 H1]] [Hwf [n2 H2]]. split; [done|].
  exists (n1 ++ n2). by rewrite H2, H1, app_assoc.
Qed.

Lemma extends_on_tape st st' r : extends st st' -> r ∈ aad_stack st -> r ∈ aad_stack st'.
Proof. intros [_ [new ->]] Hr. apply elem_of_app. by left. Qed.

Lemma pushes_one_extends m ps st res st' :
  pushes_one m ps ->
  wf_tape st ->
  Forall (fun p => p ∈ aad_stack st) ps ->
  m st = (res, st') ->
  extends st st'
  /\ (forall r, res = Ok r -> r ∈ aad_stack st').
Proof.
  intros Hm Hwf Hps Hrun.
  destruct (Hm st) as [[e He]|(v & dds & Hlen & Hok)].
  - rewrite He in Hrun. injection Hrun as <- <-.
    split; [by apply extends_refl|]. intros r Hr. discriminate.
  - rewrite Hok in Hrun. injection Hrun as <- <-. split.
    + split; [by apply wf_appended|]. by eexists.
    + intros r [= <-]. simpl. apply elem_of_app. right. by apply list_elem_of_singleton.
Qed.

Lemma aad_pow_extends ln ex a b st res st' :
  wf_tape st ->
  a ∈ aad_stack st -> b ∈ aad_stack st ->
  aad_pow ln ex a b st = (res, st') ->
  extends st st'.
Proof.
  intros Hwf Ha Hb. unfold aad_pow, bind at 1, get_value.
  destruct (heap st !! a) as [na|]; [|intros [= <- <-]; by apply extends_refl].
  destruct (value na =? 0).
  { intros H. eapply pushes_one_extends in H as [H _];
      [done|apply aad_const_pushes|done|constructor]. }
  unfold bind at 1.
  destruct (aad_log ln a st) as [[l|e] st1] eqn:Hlog.
  2:{ intros [= <- <-].
      eapply pushes_one_extends in Hlog as [H _];
        [done|apply aad_log_pushes|done|by repeat constructor]. }
  eapply pushes_one_extends in Hlog as [H1 Hl];
    [|apply aad_log_pushes|done|by repeat constructor].
  unfold bind at 1.
  destruct (aad_mul b l st1) as [[m|e] st2] eqn:Hmul.
  2:{ intros [= <- <-]. eapply extends_trans; [done|].
      eapply pushes_one_extends in Hmul as [H _];
        [done|apply aad_mul_pushes|apply H1|].
      repeat constructor; [by eapply extends_on_tape|by apply Hl]. }
  eapply pushes_one_extends in Hmul as [H2 Hm];
    [|apply aad_mul_pushes|apply H1|].
  2:{ repeat constructor; [by eapply extends_on_tape|by apply Hl]. }
  intros Hexp. eapply pushes_one_extends in Hexp as [H3 _];
    [|apply aad_exp_pushes|apply H2|by repeat constructor; apply Hm].
  eapply extends_trans; [done|]. by eapply extends_trans.
Qed.

Lemma run_call_extends ln ex c st res st' :
  wf_tape st ->
  Forall (fun a => a ∈ aad_stack st) (call_args c) ->
  run_call ln ex c st = (res, st') ->
  extends st st'.
Proof.
  intros Hwf Hargs Hrun.
  destruct c; simpl in *;
    try solve
      [ eapply pushes_one_extends in Hrun as [H _];
        [ exact H
        | auto using aad_const_pushes, aad_add_pushes, aad_sub_pushes, aad_mul_pushes,
            aad_div_pushes, aad_max_pushes, aad_exp_pushes, aad_log_pushes
        | done | done ] ].
  inversion Hargs as [|? ? Ha Hargs']. inversion Hargs' as [|? ? Hb _]. subst.
  exact (aad_pow_extends _ _ _ _ _ _ _ Hwf Ha Hb Hrun).
Qed.

Lemma node_ok_positions st k r :
  node_ok st k r ->
  exists n, heap st !! r = Some n
    /\ length (parents n) = length (ddparents n)
    /\ forall p, p ∈ parents n ->
         exists j, (j < k)%nat /\ aad_stack st !! j = Some p.
Proof.
  intros (n & Hn & Hlen & Hps). exists n. split; [done|]. split; [done|].
  intros p Hp. rewrite Forall_forall in Hps. apply Hps in Hp.
  apply elem_of_take in Hp as (j & Hj & Hlt). by exists j.
Qed.

Lemma wf_fresh_session : wf_tape fresh_session.
Proof. apply (wf_begin (mkState [] [])). Qed.

(** C8. From a well-formed tape, an engine operation applied to nodes of the
    current tape leaves a well-formed tape that extends it, whether it returns
    or throws: every node on the tape has as many local derivatives as
    parents, and each of its parents stands at a strictly earlier position of
    the tape. The empty tape that [aad_begin] starts a session with is
    well-formed. *)
Theorem engine_calls_keep_tape_well_formed ln ex c st res st' :
  wf_tape st ->
  Forall (fun a => a ∈ aad_stack st) (call_args c) ->
  run_call ln ex c st = (res, st') ->
  wf_tape st'
  /\ (exists new, aad_stack st' = aad_stack st ++ new)
  /\ (forall k r, aad_stack st' !! k = Some r ->
        exists n, heap st' !! r = Some n
          /\ length (parents n) = length (ddparents n)
          /\ forall p, p ∈ parents n ->
               exists j, (j < k)%nat /\ aad_stack st' !! j = Some p)
  /\ (forall st0, wf_tape (snd (aad_begin st0))).
Proof.
  intros Hwf Hargs Hrun.
  destruct (run_call_extends _ _ _ _ _ _ Hwf Hargs Hrun) as [Hwf' Hnew].
  split; [done|]. split; [done|]. split; [|apply wf_begin].
  intros k r Hk. apply node_ok_positions. by apply Hwf'.
Qed.

Lemma engine_calls_keep_tape_well_formed_witness :
  wf_tape (appended fresh_session 3 [] [])
  /\ wf_tape (snd (run_call (fun x => x) (fun x => x) (Mul 0%nat 0%nat)
                            (appended fresh_session 3 [] []))).
Proof.
  assert (Hwf : wf_tape (appended fresh_session 3 [] [])).
  { apply wf_appended; [apply wf_fresh_session|reflexivity|constructor]. }
  split; [exact Hwf|].
  refine (proj1 (engine_calls_keep_tape_well_formed (fun x => x) (fun x => x)
                   (Mul 0%nat 0%nat) (appended fresh_session 3 [] [])
                   _ _ Hwf _ _)).
  - repeat constructor.
  - vm_compute. reflexivity.
Defined.

Lemma pushes_one_appends m ps st res st' :
  pushes_one m ps ->
  m st = (res, st') ->
  (exists e, res = Throw e /\ st' = st)
  \/ (exists v dds, res = Ok (length (heap st)) /\ st' = appended st v ps dds).
Proof.
  intros Hm Hrun. destruct (Hm st) as [[e He]|(v & dds & _ & Hok)].
  - left. exists e. rewrite He in Hrun. by injection Hrun as <- <-.
  - right. exists v, dds. rewrite Hok in Hrun. by injection Hrun as <- <-.
Qed.

Lemma grows_appended st v ps dds :
  grows st (appended st v ps dds) (Ok (length (heap st))).
Proof.
  split; [by apply prefix_app_r|]. split; [by apply prefix_app_r|].
  intros r [= <-]. simpl. rewrite last_snoc, length_app. simpl.
  split; [done|]. lia.
Qed.

Lemma grows_throw st e : grows st st (Throw e).
Proof. by repeat split. Qed.

Lemma pushes_one_grows m ps st res st' :
  pushes_one m ps -> m st = (res, st') -> grows st st' res.
Proof.
  intros Hm Hrun.
  destruct (pushes_one_appends _ _ _ _ _ Hm Hrun)
    as [(e & -> & ->)|(v & dds & -> & ->)];
    [apply grows_throw|apply grows_appended].
Qed.

Lemma grows_trans st1 st2 st3 res1 res3 :
  grows st1 st2 res1 -> grows st2 st3 res3 -> grows st1 st3 res3.
Proof.
  intros (Hh1 & Hs1 & _) (Hh2 & Hs2 & Hr). split; [by etrans|]. split; [by etrans|].
  intros r Hres. destruct (Hr r Hres) as (Hl & Hlen & Hle).
  split; [done|]. split; [done|]. apply prefix_length in Hh1. lia.
Qed.

Lemma aad_pow_grows ln ex a b st res st' :
  aad_pow ln ex a b st = (res, st') -> grows st st' res.
Proof.
  unfold aad_pow, bind at 1, get_value.
  destruct (heap st !! a) as [na|]; [|intros [= <- <-]; apply grows_throw].
  destruct (value na =? 0).
  { apply pushes_one_grows with (ps := []), aad_const_pushes. }
  unfold bind at 1.
  destruct (aad_log ln a st) as [[l|e] st1] eqn:Hlog.
  2:{ intros [= <- <-].
      apply (pushes_one_grows _ _ _ _ _ (aad_log_pushes ln a)) in Hlog.
      destruct Hlog as (? & ? & _). by repeat split. }
  apply (pushes_one_grows _ _ _ _ _ (aad_log_pushes ln a)) in Hlog.
  unfold bind at 1.
  destruct (aad_mul b l st1) as [[m|e] st2] eqn:Hmul.
  2:{ intros [= <- <-].
      apply (pushes_one_grows _ _ _ _ _ (aad_mul_pushes b l)) in Hmul.
      eapply grows_trans; [exact Hlog|].
      destruct Hmul as (? & ? & _). by repeat split. }
  apply (pushes_one_grows _ _ _ _ _ (aad_mul_pushes b l)) in Hmul.
  intros Hexp. apply (pushes_one_grows _ _ _ _ _ (aad_exp_pushes ex m)) in Hexp.
  eapply grows_trans; [exact Hlog|]. eapply grows_trans; [exact Hmul|exact Hexp].
Qed.

Lemma run_call_pushes ln ex c :
  (forall a b, c <> Pow a b) -> pushes_one (run_call ln ex c) (call_args c).
Proof.
  intros Hc. destruct c; simpl;
    auto using aad_const_pushes, aad_add_pushes, aad_sub_pushes, aad_mul_pushes,
      aad_div_pushes, aad_max_pushes, aad_exp_pushes, aad_log_pushes.
  by destruct (Hc a b).
Qed.

(** X3. The engine's operations only append: whatever the call and
    whether it returns or throws, the nodes that existed keep their place and
    their fields, and the tape keeps its elements in front. A returned node is
    the last object created and the last element of the tape. When an
    operation other than [aad_pow] throws, nothing has changed. *)
Theorem engine_calls_only_append ln ex c st res st' :
  run_call ln ex c st = (res, st') ->
  heap st `prefix_of` heap st'
  /\ aad_stack st `prefix_of` aad_stack st'
  /\ (forall r, res = Ok r ->
        last (aad_stack st') = Some r
        /\ S r = length (heap st')
        /\ (length (heap st) <= r)%nat)
  /\ (forall e, res = Throw e -> (forall a b, c <> Pow a b) -> st' = st).
Proof.
  intros Hrun.
  assert (Hg : grows st st' res).
  { destruct c; try (by apply aad_pow_grows in Hrun);
      (eapply pushes_one_grows; [|exact Hrun]); by apply run_call_pushes. }
  destruct Hg as (Hh & Hs & Hr). split; [done|]. split; [done|]. split; [done|].
  intros e -> Hc.
  destruct (pushes_one_appends _ _ _ _ _ (run_call_pushes ln ex c Hc) Hrun)
    as [(e' & _ & ->)|(v & dds & [=] & _)]. done.
Qed.

Lemma engine_calls_only_append_witness :
  heap (appended fresh_session 3 [] [])
  `prefix_of` heap (snd (run_call (fun x => x) (fun x => x) (Mul 0%nat 0%nat)
                           (appended fresh_session 3 [] []))).
Proof.
  exact (proj1 (engine_calls_only_append (fun x => x) (fun x => x) (Mul 0%nat 0%nat)
                  (appended fresh_session 3 [] [])
                  (fst (run_call (fun x => x) (fun x => x) (Mul 0%nat 0%nat)
                          (appended fresh_session 3 [] [])))
                  (snd (run_call (fun x => x) (fun x => x) (Mul 0%nat 0%nat)
                          (appended fresh_session 3 [] [])))
                  eq_refl)).
Defined.
End TapeFacts.

(** * The operations one by one *)

Module OpsFacts.
Import AAD Tape Binary64Facts.
Local Open Scope float_scope.
Local Open Scope aad_scope.

Lemma lookup_appended_old st v ps dds r n :
  heap st !! r = Some n -> heap (appended st v ps dds) !! r = Some n.
Proof.
  intros H. simpl. rewrite lookup_app_l; [done|]. by eapply lookup_lt_Some.
Qed.

Lemma lookup_appended_new st v ps dds :
  heap (appended st v ps dds) !! length (heap st) = Some (mkNode v ps dds None).
Proof. simpl. by rewrite list_lookup_middle. Qed.

(** C4. [aad_div] throws "Division by 0" exactly when the divisor's value
    compares equal to zero, and then the state is the one it started from (no
    node was created or pushed); otherwise it pushes and returns a new node
    with value [a.value / b.value] and local derivatives
    [1 / b.value] and [-a.value / (b.value * b.value)]. In particular
    [aad_div(aad_const(1), aad_const(0))] throws. *)
Theorem aad_div_throws_exactly_on_zero_divisor st a b na nb :
  heap st !! a = Some na ->
  heap st !! b = Some nb ->
  ((value nb =? 0) = true ->
     aad_div a b st = (Throw Division_by_0, st))
  /\ ((value nb =? 0) = false ->
        aad_div a b st =
          (Ok (length (heap st)),
           appended st (value na / value nb) [a; b]
             [1 / value nb; - value na / (value nb * value nb)]))
  /\ (a <- aad_const 1 ;; b <- aad_const 0 ;; aad_div a b) fresh_session
     = (Throw Division_by_0, two_constants 1 0).
Proof.
  intros Ha Hb. split; [|split]; [| |reflexivity].
  all: intros Hz;
    unfold aad_div, bind, get_value, new_object, push, ret, throw, appended;
    cbv beta; rewrite Hb, Hz; try rewrite Ha; reflexivity.
Qed.

Lemma aad_div_throws_exactly_on_zero_divisor_witness :
  heap (two_constants 4 2) !! 0%nat = Some (mkNode 4 [] [] None)
  /\ heap (two_constants 4 2) !! 1%nat = Some (mkNode 2 [] [] None)
  /\ aad_div 0%nat 1%nat (two_constants 4 2)
     = (Ok 2%nat, appended (two_constants 4 2) 2 [0%nat; 1%nat] [0.5; -1]).
Proof.
  split; [reflexivity|]. split; [reflexivity|].
  exact (proj1 (proj2 (aad_div_throws_exactly_on_zero_divisor
                         (two_constants 4 2) 0%nat 1%nat
                         (mkNode 4 [] [] None) (mkNode 2 [] [] None)
                         eq_refl eq_refl)) eq_refl).
Defined.

(** C7. [aad_max] pushes and returns a node whose value is
    [Math.max(a.value, b.value)] - a number equal to [a.value] when
    [a.value >= b.value], and [b.value] when [a.value < b.value] - and whose
    local derivatives are [1, 0] when [a.value >= b.value] and [0, 1]
    otherwise, so a tie goes to the first argument:
    [aad_max(aad_const(3), aad_const(3))] has local derivatives [1, 0]. *)
Theorem aad_max_ties_go_to_first_argument st a b na nb :
  heap st !! a = Some na ->
  heap st !! b = Some nb ->
  aad_max a b st =
    (Ok (length (heap st)),
     appended st (JS.Math_max (value na) (value nb)) [a; b]
       (if value nb <=? value na then [1; 0] else [0; 1]))
  /\ ((value nb <=? value na) = true ->
        (JS.Math_max (value na) (value nb) =? value na) = true)
  /\ ((value na <? value nb) = true ->
        JS.Math_max (value na) (value nb) = value nb)
  /\ (a <- aad_const 3 ;; b <- aad_const 3 ;; aad_max a b) fresh_session
     = (Ok 2%nat, appended (two_constants 3 3) 3 [0%nat; 1%nat] [1; 0]).
Proof.
  intros Ha Hb.
  destruct (Math_max_is_max (value na) (value nb)) as (Hge & Hlt & _).
  split; [|by repeat split].
  unfold aad_max, bind, get_value, new_object, push, ret, appended.
  cbv beta. rewrite Ha, Hb. by destruct (value nb <=? value na).
Qed.

Lemma aad_max_ties_go_to_first_argument_witness :
  heap (two_constants 2 5) !! 0%nat = Some (mkNode 2 [] [] None)
  /\ heap (two_constants 2 5) !! 1%nat = Some (mkNode 5 [] [] None)
  /\ aad_max 0%nat 1%nat (two_constants 2 5)
     = (Ok 2%nat, appended (two_constants 2 5) 5 [0%nat; 1%nat] [0; 1]).
Proof.
  split; [reflexivity|]. split; [reflexivity|].
  exact (proj1 (aad_max_ties_go_to_first_argument
                  (two_constants 2 5) 0%nat 1%nat
                  (mkNode 2 [] [] None) (mkNode 5 [] [] None) eq_refl eq_refl)).
Defined.

Lemma Math_log_negative ln v : (v <? 0) = true -> JS.Math_log ln v = nan.
Proof. intros H. unfold JS.Math_log. rewrite H. by destruct (is_nan v). Qed.

Lemma Math_log_zero ln v : (v =? 0) = true -> JS.Math_log ln v = neg_infinity.
Proof. intros H. by destruct (eqb_zero_inv v H) as [-> | ->]. Qed.

Lemma aad_log_eq ln st a na :
  heap st !! a = Some na ->
  aad_log ln a st =
    if JS.isNaN (JS.Math_log ln (value na))
    then (Throw (NAN_from_log (value na)), st)
    else (Ok (length (heap st)),
          appended st (JS.Math_log ln (value na)) [a] [1 / value na]).
Proof.
  intros Ha. unfold aad_log, bind, get_value, new_object, push, ret, throw, appended.
  cbv beta. rewrite Ha. cbv zeta. by destruct (JS.isNaN _).
Qed.

(** C3, the claim as it stands fails at zero: [Math.log(0)] is [-Infinity],
    which is not [NaN], so not every node with [a.value <= 0] makes
    [aad_log] throw. *)
Lemma aad_log_of_zero_does_not_throw :
  ~ (forall ln st a na,
       heap st !! a = Some na ->
       (value na <=? 0) = true ->
       exists e st', aad_log ln a st = (Throw e, st')).
Proof.
  intros H.
  destruct (H (fun x => x) (appended fresh_session 0 [] []) 0%nat
              (mkNode 0 [] [] None) eq_refl eq_refl) as (e & st' & He).
  vm_compute in He. discriminate.
Qed.

(** C3, amended. [aad_log] throws exactly when [Math.log(a.value)] is [NaN],
    leaving the state as it was; this is the case for every [a.value < 0], so
    [aad_log(aad_const(-1))] throws. For [a.value == 0] it does not throw:
    the result node has value [-Infinity] and local derivative [1 / a.value],
    and [aad_log(aad_const(0))] returns the node with value [-Infinity] and
    local derivative [Infinity]. Whenever it does not throw, the node pushed
    has value [Math.log(a.value)] and local derivative [1 / a.value]. *)
Theorem aad_log_throws_exactly_on_nan ln st a na :
  heap st !! a = Some na ->
  (JS.isNaN (JS.Math_log ln (value na)) = true ->
     aad_log ln a st = (Throw (NAN_from_log (value na)), st))
  /\ (JS.isNaN (JS.Math_log ln (value na)) = false ->
        aad_log ln a st =
          (Ok (length (heap st)),
           appended st (JS.Math_log ln (value na)) [a] [1 / value na]))
  /\ ((value na <? 0) = true ->
        aad_log ln a st = (Throw (NAN_from_log (value na)), st))
  /\ ((value na =? 0) = true ->
        aad_log ln a st =
          (Ok (length (heap st)), appended st neg_infinity [a] [1 / value na]))
  /\ (a <- aad_const (-1) ;; aad_log ln a) fresh_session
     = (Throw (NAN_from_log (-1)), appended fresh_session (-1) [] [])
  /\ (a <- aad_const 0 ;; aad_log ln a) fresh_session
     = (Ok 1%nat,
        appended (appended fresh_session 0 [] []) neg_infinity [0%nat] [infinity]).
Proof.
  intros Ha. rewrite (aad_log_eq ln st a na Ha).
  repeat split.
  - by intros ->.
  - by intros ->.
  - intros Hneg. by rewrite (Math_log_negative ln _ Hneg).
  - intros Hz. by rewrite (Math_log_zero ln _ Hz).
Qed.

Lemma aad_log_throws_exactly_on_nan_witness :
  heap (appended fresh_session 1 [] []) !! 0%nat = Some (mkNode 1 [] [] None)
  /\ aad_log (fun x => x) 0%nat (appended fresh_session 1 [] [])
     = (Ok 1%nat, appended (appended fresh_session 1 [] []) 0 [0%nat] [1]).
Proof.
  split; [reflexivity|].
  exact (proj1 (proj2 (aad_log_throws_exactly_on_nan (fun x => x)
                         (appended fresh_session 1 [] []) 0%nat
                         (mkNode 1 [] [] None) eq_refl)) eq_refl).
Defined.

Lemma aad_mul_eq st a b na nb :
  heap st !! a = Some na ->
  heap st !! b = Some nb ->
  aad_mul a b st =
    (Ok (length (heap st)),
     appended st (value na * value nb) [a; b] [value nb; value na]).
Proof.
  intros Ha Hb. unfold aad_mul, bind, get_value, new_object, push, ret, appended.
  cbv beta. by rewrite Ha, Hb.
Qed.

Lemma aad_exp_eq ex st a na :
  heap st !! a = Some na ->
  aad_exp ex a st =
    if JS.isNaN (JS.Math_exp ex (value na))
    then (Throw (NAN_from_exp (value na)), st)
    else (Ok (length (heap st)),
          appended st (JS.Math_exp ex (value na)) [a] [JS.Math_exp ex (value na)]).
Proof.
  intros Ha. unfold aad_exp, bind, get_value, new_object, push, ret, throw, appended.
  cbv beta. rewrite Ha. cbv zeta. by destruct (JS.isNaN _).
Qed.

(** C6. When [a.value == 0], [aad_pow] is [aad_const(0)]: it pushes and
    returns a node with value 0, no parents and no local derivatives.
    Otherwise it is the composition [aad_exp(aad_mul(b, aad_log(a)))], which,
    when neither [aad_log] nor [aad_exp] throws, pushes the three nodes
    [log a], [b * log a] and [exp (b * log a)] and returns the last. In
    particular [aad_pow(aad_const(0), aad_const(2))] returns a node with
    value 0 and no parents. *)
Theorem aad_pow_zero_base_or_exp_of_product ln ex st a b na nb :
  heap st !! a = Some na ->
  heap st !! b = Some nb ->
  ((value na =? 0) = true ->
     aad_pow ln ex a b st = (Ok (length (heap st)), appended st 0 [] []))
  /\ ((value na =? 0) = false ->
        aad_pow ln ex a b st =
          (l <- aad_log ln a ;; m <- aad_mul b l ;; aad_exp ex m) st)
  /\ ((value na =? 0) = false ->
      let lg := JS.Math_log ln (value na) in
      let pr := value nb * lg in
      let l := length (heap st) in
      JS.isNaN lg = false ->
      JS.isNaN (JS.Math_exp ex pr) = false ->
      aad_pow ln ex a b st =
        (Ok (S (S l)),
         appended
           (appended (appended st lg [a] [1 / value na]) pr [b; l] [lg; value nb])
           (JS.Math_exp ex pr) [S l] [JS.Math_exp ex pr]))
  /\ (a <- aad_const 0 ;; b <- aad_const 2 ;; aad_pow ln ex a b) fresh_session
     = (Ok 2%nat, appended (two_constants 0 2) 0 [] []).
Proof.
  intros Ha Hb.
  assert (Hpow : (value na =? 0) = false ->
            aad_pow ln ex a b st =
              (l <- aad_log ln a ;; m <- aad_mul b l ;; aad_exp ex m) st).
  { intros Hz. unfold aad_pow, bind at 1, get_value. by rewrite Ha, Hz. }
  split; [|split; [exact Hpow|split; [|reflexivity]]].
  - intros Hz. unfold aad_pow, bind at 1, get_value. by rewrite Ha, Hz.
  - intros Hz lg pr l Hlg Hex. rewrite (Hpow Hz). subst l.
    unfold bind at 1. rewrite (aad_log_eq ln st a na Ha). fold lg. rewrite Hlg.
    unfold bind at 1.
    rewrite (aad_mul_eq _ b (length (heap st)) nb (mkNode lg [a] [1 / value na] None)
               (lookup_appended_old _ _ _ _ _ _ Hb) (lookup_appended_new _ _ _ _)).
    simpl value. fold pr.
    assert (Hlen : length (heap (appended st lg [a] [1 / value na]))
                   = S (length (heap st))).
    { simpl. rewrite length_app. simpl. lia. }
    rewrite Hlen.
    rewrite (aad_exp_eq ex _ (S (length (heap st)))
               (mkNode pr [b; length (heap st)] [lg; value nb] None)).
    + simpl value. rewrite Hex. unfold appended. simpl.
      rewrite !length_app. simpl. rewrite !Nat.add_1_r. reflexivity.
    + rewrite <- Hlen. apply lookup_appended_new.
Qed.

Lemma aad_pow_zero_base_or_exp_of_product_witness :
  heap (two_constants 0 2) !! 0%nat = Some (mkNode 0 [] [] None)
  /\ heap (two_constants 0 2) !! 1%nat = Some (mkNode 2 [] [] None)
  /\ aad_pow (fun x => x) (fun x => x) 0%nat 1%nat (two_constants 0 2)
     = (Ok 2%nat, appended (two_constants 0 2) 0 [] []).
Proof.
  split; [reflexivity|]. split; [reflexivity|].
  exact (proj1 (aad_pow_zero_base_or_exp_of_product (fun x => x) (fun x => x)
                  (two_constants 0 2) 0%nat 1%nat
                  (mkNode 0 [] [] None) (mkNode 2 [] [] None) eq_refl eq_refl)
           eq_refl).
Defined.

Lemma Math_log_nan ln v : is_nan v = true -> JS.Math_log ln v = nan.
Proof. intros H. unfold JS.Math_log. by rewrite H. Qed.

Lemma aad_pow_eq ln ex st a b na :
  heap st !! a = Some na ->
  aad_pow ln ex a b st =
    if value na =? 0 then aad_const 0 st
    else (l <- aad_log ln a ;; m <- aad_mul b l ;; aad_exp ex m) st.
Proof.
  intros Ha. unfold aad_pow, bind at 1, get_value. rewrite Ha.
  by destruct (value na =? 0).
Qed.

(** X5. [aad_exp] throws "NAN from exp(v)" exactly when [Math.exp] of the
    node's value is [NaN], leaving the tape as it was, as it does on a [NaN]
    value; otherwise it pushes a node whose value and only local derivative
    are both [Math.exp(v)]: 1 on a zero, [Infinity] on [Infinity], and 0 on
    [-Infinity]. *)
Theorem aad_exp_throws_exactly_on_nan ex st a na :
  heap st !! a = Some na ->
  (JS.isNaN (JS.Math_exp ex (value na)) = true ->
     aad_exp ex a st = (Throw (NAN_from_exp (value na)), st))
  /\ (JS.isNaN (JS.Math_exp ex (value na)) = false ->
        aad_exp ex a st =
          (Ok (length (heap st)),
           appended st (JS.Math_exp ex (value na)) [a] [JS.Math_exp ex (value na)]))
  /\ (JS.isNaN (value na) = true ->
        aad_exp ex a st = (Throw (NAN_from_exp (value na)), st))
  /\ ((value na =? 0) = true ->
        aad_exp ex a st = (Ok (length (heap st)), appended st 1 [a] [1]))
  /\ (value na = infinity ->
        aad_exp ex a st = (Ok (length (heap st)), appended st infinity [a] [infinity]))
  /\ (value na = neg_infinity ->
        aad_exp ex a st = (Ok (length (heap st)), appended st 0 [a] [0])).
Proof.
  intros Ha. rewrite (aad_exp_eq ex st a na Ha).
  split; [by intros ->|]. split; [by intros ->|]. split; [|split; [|split]].
  - unfold JS.isNaN. intros H. unfold JS.Math_exp at 1. by rewrite H.
  - intros Hz. by destruct (eqb_zero_inv _ Hz) as [-> | ->].
  - by intros ->.
  - by intros ->.
Qed.

Lemma aad_exp_throws_exactly_on_nan_witness :
  aad_exp (fun x => x) 0%nat (appended fresh_session neg_infinity [] [])
  = (Ok 1%nat, appended (appended fresh_session neg_infinity [] []) 0 [0%nat] [0]).
Proof.
  exact (proj2 (proj2 (proj2 (proj2 (proj2
           (aad_exp_throws_exactly_on_nan (fun x => x)
              (appended fresh_session neg_infinity [] []) 0%nat
              (mkNode neg_infinity [] [] None) eq_refl))))) eq_refl).
Defined.

(** X6. [aad_pow] on a base that is negative or [NaN] throws
    "NAN from log(base)" and leaves the tape as it was, whatever the exponent
    (it is not looked at). *)
Theorem aad_pow_throws_on_negative_or_nan_base ln ex st a b na :
  heap st !! a = Some na ->
  (value na <? 0) = true \/ JS.isNaN (value na) = true ->
  aad_pow ln ex a b st = (Throw (NAN_from_log (value na)), st).
Proof.
  intros Ha Hv. rewrite (aad_pow_eq ln ex st a b na Ha).
  assert (Hz : (value na =? 0) = false).
  { destruct Hv as [Hv|Hv]; [by apply ltb_zero_not_eqb|].
    apply is_nan_eq in Hv. by rewrite Hv. }
  assert (Hlg : JS.isNaN (JS.Math_log ln (value na)) = true).
  { destruct Hv as [Hv|Hv];
      [by rewrite Math_log_negative|by rewrite Math_log_nan]. }
  rewrite Hz. unfold bind at 1. by rewrite (aad_log_eq ln st a na Ha), Hlg.
Qed.

Lemma aad_pow_throws_on_negative_or_nan_base_witness :
  aad_pow (fun x => x) (fun x => x) 0%nat 1%nat (two_constants (-2) 2)
  = (Throw (NAN_from_log (-2)), two_constants (-2) 2).
Proof.
  exact (aad_pow_throws_on_negative_or_nan_base (fun x => x) (fun x => x)
           (two_constants (-2) 2) 0%nat 1%nat (mkNode (-2) [] [] None)
           eq_refl (or_introl eq_refl)).
Defined.

(** X7. When the base is not zero and has a logarithm, but [Math.exp] of
    [exponent * log(base)] is [NaN], [aad_pow] throws "NAN from exp(..)" after
    it has pushed the nodes of the logarithm and of the product: the tape is
    two nodes longer than before the call. So it is for base 1 and exponent
    [Infinity]. *)
Theorem aad_pow_throws_after_pushing_two_nodes ln ex st a b na nb :
  heap st !! a = Some na ->
  heap st !! b = Some nb ->
  (value na =? 0) = false ->
  JS.isNaN (JS.Math_log ln (value na)) = false ->
  JS.isNaN (JS.Math_exp ex (value nb * JS.Math_log ln (value na))) = true ->
  let lg := JS.Math_log ln (value na) in
  aad_pow ln ex a b st
  = (Throw (NAN_from_exp (value nb * lg)),
     appended (appended st lg [a] [1 / value na])
       (value nb * lg) [b; length (heap st)] [lg; value nb]).
Proof.
  intros Ha Hb Hz Hlg Hex lg. rewrite (aad_pow_eq ln ex st a b na Ha), Hz.
  unfold bind at 1. rewrite (aad_log_eq ln st a na Ha). fold lg.
  unfold lg at 1. rewrite Hlg.
  unfold bind at 1.
  rewrite (aad_mul_eq _ b (length (heap st)) nb (mkNode lg [a] [1 / value na] None)
             (lookup_appended_old _ _ _ _ _ _ Hb) (lookup_appended_new _ _ _ _)).
  simpl value.
  assert (Hlen : length (heap (appended st lg [a] [1 / value na]))
                 = S (length (heap st))).
  { simpl. rewrite length_app. simpl. lia. }
  rewrite Hlen.
  rewrite (aad_exp_eq ex _ (S (length (heap st)))
             (mkNode (value nb * lg) [b; length (heap st)] [lg; value nb] None)).
  - simpl value. unfold lg at 1. by rewrite Hex.
  - rewrite <- Hlen. apply lookup_appended_new.
Qed.

Lemma aad_pow_throws_after_pushing_two_nodes_witness :
  aad_pow (fun x => x) (fun x => x) 0%nat 1%nat (two_constants 1 infinity)
  = (Throw (NAN_from_exp nan),
     appended (appended (two_constants 1 infinity) 0 [0%nat] [1])
       nan [1%nat; 2%nat] [0; infinity]).
Proof.
  exact (aad_pow_throws_after_pushing_two_nodes (fun x => x) (fun x => x)
           (two_constants 1 infinity) 0%nat 1%nat
           (mkNode 1 [] [] None) (mkNode infinity [] [] None)
           eq_refl eq_refl eq_refl eq_refl eq_refl).
Defined.

(** X4. What the operations throw, when their arguments are nodes:
    [aad_const], [aad_add], [aad_sub], [aad_mul] and [aad_max] never throw;
    "Division by 0" comes from [aad_div] with a divisor that is [== 0];
    "NAN from log(v)" from [aad_log] or [aad_pow] on a node of value [v] with
    [Math.log(v)] not a number; "NAN from exp(v)" from [aad_exp] on a node of
    value [v], or from [aad_pow] with [v] the product of the exponent and the
    logarithm of the base, with [Math.exp(v)] not a number. *)
Theorem engine_calls_throw_only_their_own_errors ln ex c st e st' :
  Forall (fun a => is_Some (heap st !! a)) (call_args c) ->
  run_call ln ex c st = (Throw e, st') ->
  raised_by ln ex c st e.
Proof.
  intros Hargs.
  assert (Hin : forall a, a ∈ call_args c -> exists na, heap st !! a = Some na).
  { intros a Ha. by apply (proj1 (Forall_forall _ _) Hargs a). }
  destruct c as [v|a b|a b|a b|a b|a|a b|a b|a]; simpl in Hin; simpl;
    try (destruct (Hin a ltac:(by repeat constructor)) as [na Ha]);
    try (destruct (Hin b ltac:(by repeat constructor)) as [nb Hb]).
  - intros [=].
  - unfold aad_add, bind, get_value. rewrite Ha, Hb. intros [=].
  - unfold aad_sub, bind, get_value. rewrite Ha, Hb. intros [=].
  - by rewrite (aad_mul_eq st a b na nb Ha Hb).
  - unfold aad_div, bind at 1, get_value. rewrite Hb.
    destruct (value nb =? 0) eqn:Hz.
    { intros [= <- <-]. by exists a, b, nb. }
    unfold bind. rewrite Ha. intros [=].
  - rewrite (aad_exp_eq ex st a na Ha).
    destruct (JS.isNaN _) eqn:Hnan; [|intros [=]].
    intros [= <- <-]. split; [done|]. left. by exists a, na.
  - rewrite (aad_pow_eq ln ex st a b na Ha).
    destruct (value na =? 0); [intros [=]|].
    unfold bind at 1. rewrite (aad_log_eq ln st a na Ha).
    destruct (JS.isNaN (JS.Math_log ln (value na))) eqn:Hlg.
    { intros [= <- <-]. split; [done|]. exists a, na. eauto. }
    unfold bind at 1.
    rewrite (aad_mul_eq _ b (length (heap st)) nb
               (mkNode (JS.Math_log ln (value na)) [a] [1 / value na] None)
               (lookup_appended_old _ _ _ _ _ _ Hb) (lookup_appended_new _ _ _ _)).
    simpl value.
    match goal with
    | |- aad_exp ex ?r ?s = _ -> _ =>
        rewrite (aad_exp_eq ex s r
                   (mkNode (value nb * JS.Math_log ln (value na))
                      [b; length (heap st)] [JS.Math_log ln (value na); value nb] None))
    end.
    + simpl value. destruct (JS.isNaN (JS.Math_exp ex _)) eqn:Hex; [|intros [=]].
      intros [= <- <-]. split; [done|]. right. by exists a, b, na, nb.
    + apply lookup_appended_new.
  - unfold aad_max, bind, get_value. rewrite Ha, Hb. intros [=].
  - rewrite (aad_log_eq ln st a na Ha).
    destruct (JS.isNaN _) eqn:Hnan; [|intros [=]].
    intros [= <- <-]. split; [done|]. exists a, na. eauto.
Qed.

Lemma engine_calls_throw_only_their_own_errors_witness :
  raised_by (fun x => x) (fun x => x) (Div 0%nat 1%nat) (two_constants 1 0)
    Division_by_0.
Proof.
  apply (engine_calls_throw_only_their_own_errors (fun x => x) (fun x => x)
           (Div 0%nat 1%nat) (two_constants 1 0) Division_by_0 (two_constants 1 0)).
  - repeat constructor; by eexists.
  - reflexivity.
Defined.
End OpsFacts.

(** * The vector utilities *)

Module VecFacts.
Import Vec Binary64 Binary64Facts.
Local Open Scope float_scope.

Lemma length_eqb_false (v1 v2 : list float) :
  length v1 <> length v2 -> (length v1 =? length v2)%nat = false.
Proof. intros H. by apply Nat.eqb_neq. Qed.

Lemma vec_add_same_length (v1 v2 : list float) :
  length v1 = length v2 -> vec_add v1 v2 = Ok (zip_with add v1 v2).
Proof.
  intros Hlen. unfold vec_add. rewrite Hlen, Nat.eqb_refl. simpl. f_equal.
  apply list_eq. intros i. rewrite list_lookup_imap, lookup_zip_with.
  destruct (v1 !! i) as [x|] eqn:Hx; [|done]. simpl.
  destruct (v2 !! i) as [y|] eqn:Hy; [done|].
  apply lookup_lt_Some in Hx. apply lookup_ge_None in Hy. lia.
Qed.

Lemma vec_equal_loop_true (v1 vec2 : list float) (i : nat) :
  vec_equal_loop v1 vec2 i = true
  <-> forall j x, v1 !! j = Some x ->
        (x =? JS.ToNumber (vec2 !! (i + j)%nat)) = true.
Proof.
  revert i. induction v1 as [|x0 v1 IH]; intros i; simpl.
  - split; [|done]. intros _ j x Hj. by rewrite lookup_nil in Hj.
  - destruct (x0 =? JS.ToNumber (vec2 !! i)) eqn:Hx0; simpl.
    + rewrite IH. split.
      * intros H [|j] x Hj; simpl in Hj.
        -- injection Hj as <-. by rewrite Nat.add_0_r.
        -- rewrite Nat.add_succ_r. by apply H.
      * intros H j x Hj. specialize (H (S j) x Hj).
        by rewrite Nat.add_succ_r in H.
    + split; [done|]. intros H. specialize (H 0%nat x0 eq_refl).
      rewrite Nat.add_0_r in H. congruence.
Qed.

(** C9. On vectors of different lengths [vec_add] throws "unequal vector
    sizes" while [vec_equal] returns [false]; on vectors of the same length
    [vec_add] returns the element-wise sum, and [vec_equal] returns [true]
    exactly when every pair of corresponding elements compares equal as
    numbers. So [vec_add([1,2],[3])] throws and [vec_equal([1,2],[1,2])] is
    [true]. *)
Theorem vec_add_throws_where_vec_equal_is_false (v1 v2 : list float) :
  (length v1 <> length v2 ->
     vec_add v1 v2 = Throw unequal_vector_sizes /\ vec_equal v1 v2 = false)
  /\ (length v1 = length v2 ->
        vec_add v1 v2 = Ok (zip_with add v1 v2)
        /\ (vec_equal v1 v2 = true
            <-> forall i x y, v1 !! i = Some x -> v2 !! i = Some y ->
                  (x =? y) = true))
  /\ vec_add [1; 2] [3] = Throw unequal_vector_sizes
  /\ vec_equal [1; 2] [3] = false
  /\ vec_equal [1; 2] [1; 2] = true.
Proof.
  split; [|split; [|by repeat split]].
  - intros Hne. unfold vec_add, vec_equal.
    by rewrite (length_eqb_false _ _ Hne).
  - intros Hlen. split; [by apply vec_add_same_length|].
    unfold vec_equal. rewrite Hlen, Nat.eqb_refl. simpl.
    rewrite vec_equal_loop_true. simpl. split.
    + intros H i x y Hx Hy. specialize (H i x Hx). by rewrite Hy in H.
    + intros H j x Hx.
      destruct (v2 !! j) as [y|] eqn:Hy; [by eapply H|].
      apply lookup_lt_Some in Hx. apply lookup_ge_None in Hy. lia.
Qed.

Lemma sum_of_squares_nan vec t :
  (SFpositive_or_zero (Prim2SF t) ->
   if existsb is_nan vec
   then fold_left (fun t v => t + v * v) vec t = nan
   else SFpositive_or_zero (Prim2SF (fold_left (fun t v => t + v * v) vec t)))
  /\ (t = nan -> fold_left (fun t v => t + v * v) vec t = nan).
Proof.
  revert t. induction vec as [|v vec IH]; intros t; simpl; [done|].
  split.
  - intros Ht. destruct (is_nan v) eqn:Hv; simpl.
    + apply is_nan_Prim2SF in Hv.
      assert (v = nan) as -> by (apply Prim2SF_inj; by rewrite Hv).
      rewrite mul_nan, add_nan_r. by apply IH.
    + apply IH. rewrite add_spec. apply SFadd_nonneg; [done|].
      by apply square_positive_or_zero.
  - intros ->. rewrite add_nan_l. by apply IH.
Qed.

Lemma vec_norm_nan vec : is_nan (vec_norm vec) = existsb is_nan vec.
Proof.
  unfold vec_norm, JS.Math_sqrt.
  destruct (sum_of_squares_nan vec 0) as [H _].
  specialize (H ltac:(by split)).
  destruct (existsb is_nan vec).
  - by rewrite H.
  - apply not_nan_is_nan. rewrite sqrt_spec. apply SFsqrt_not_nan, H.
Qed.

Lemma vec_norm_nonneg vec :
  is_nan (vec_norm vec) = false -> (0 <=? vec_norm vec) = true.
Proof.
  intros Hnan. apply Prim2SF_nan in Hnan. rewrite FloatAxioms.leb_spec.
  change (Prim2SF 0) with (S754_zero false). apply SFleb_zero_nonneg.
  unfold vec_norm, JS.Math_sqrt in *. rewrite sqrt_spec in *.
  by destruct (SFsqrt_nonneg (Prim2SF (fold_left (fun t v => t + v * v) vec 0))).
Qed.

Lemma vec_norm_negated vec : vec_norm (vec_scale vec (-1)) = vec_norm vec.
Proof.
  unfold vec_norm, vec_scale. f_equal. generalize 0.
  induction vec as [|v vec IH]; intros t; simpl; [done|].
  by rewrite IH, !mul_neg_one_l, mul_opp_l, mul_opp_r, opp_involutive.
Qed.

Lemma vec_scale_one vec : vec_scale vec 1 = vec.
Proof.
  unfold vec_scale. induction vec as [|v vec IH]; simpl; [done|].
  by rewrite IH, mul_one_l.
Qed.

Lemma vec_scale_negate_twice vec : vec_scale (vec_scale vec (-1)) (-1) = vec.
Proof.
  unfold vec_scale. induction vec as [|v vec IH]; simpl; [done|].
  by rewrite IH, !mul_neg_one_l, opp_involutive.
Qed.

Lemma vec_equal_true v w :
  vec_equal v w = true
  <-> length v = length w
      /\ forall i x y, v !! i = Some x -> w !! i = Some y -> (x =? y) = true.
Proof.
  unfold vec_equal. destruct (length v =? length w)%nat eqn:Hlen; simpl.
  - apply Nat.eqb_eq in Hlen. rewrite vec_equal_loop_true. split.
    + intros H. split; [done|]. intros i x y Hx Hy.
      specialize (H i x Hx). simpl in H. by rewrite Hy in H.
    + intros [_ H] j x Hx. simpl.
      destruct (w !! j) as [y|] eqn:Hy; [by apply (H j)|].
      apply lookup_lt_Some in Hx. apply lookup_ge_None in Hy. lia.
  - apply Nat.eqb_neq in Hlen. split; [done|]. by intros [? _].
Qed.

Lemma vec_equal_sym v w : vec_equal v w = vec_equal w v.
Proof.
  apply eq_true_iff_eq. rewrite !vec_equal_true. split; intros [Hlen H];
    (split; [done|]); intros i x y Hx Hy; rewrite eqb_sym; by apply (H i).
Qed.

Lemma vec_equal_refl v : vec_equal v v = negb (existsb is_nan v).
Proof.
  unfold vec_equal. rewrite Nat.eqb_refl. simpl.
  change v with ([] ++ v) at 2. change 0%nat with (length (@nil float)).
  generalize (@nil float) as pre.
  induction v as [|x v IH]; intros pre; simpl; [done|].
  rewrite lookup_app_r, Nat.sub_diag by done. simpl.
  rewrite eqb_refl_not_nan.
  destruct (is_nan x); simpl; [done|].
  specialize (IH (pre ++ [x])). rewrite length_app, Nat.add_1_r in IH.
  by rewrite <- IH, <- app_assoc.
Qed.

Lemma zip_with_add_comm (v w : list float) : zip_with add v w = zip_with add w v.
Proof.
  revert w. induction v as [|x v IH]; intros [|y w]; simpl; try done.
  by rewrite IH, add_comm.
Qed.

Lemma vec_add_comm v w : vec_add v w = vec_add w v.
Proof.
  destruct (decide (length v = length w)) as [Hlen|Hlen].
  - rewrite !vec_add_same_length by done. by rewrite zip_with_add_comm.
  - unfold vec_add.
    rewrite (length_eqb_false v w Hlen), (length_eqb_false w v) by done. done.
Qed.

Lemma vec_add_length v w r : vec_add v w = Ok r -> length r = length v.
Proof.
  unfold vec_add. destruct (negb _); [done|]. intros [= <-].
  by rewrite length_imap.
Qed.

(** X10. [vec_scale] keeps the length and multiplies each element by [x]
    on the left; scaling by 1 changes nothing, and scaling by [-1] twice gives
    the vector back. *)
Theorem vec_scale_length_unit_and_negation vec x :
  length (vec_scale vec x) = length vec
  /\ (forall i, vec_scale vec x !! i = (fun y => x * y) <$> vec !! i)
  /\ vec_scale vec 1 = vec
  /\ vec_scale (vec_scale vec (-1)) (-1) = vec.
Proof.
  split; [apply length_map|]. split; [intros i; apply list_lookup_fmap|].
  split; [apply vec_scale_one|apply vec_scale_negate_twice].
Qed.

(** X11. [vec_norm] is [NaN] exactly when some element is [NaN]; otherwise
    it is a number [>= 0] (possibly [Infinity]). It is the same for a vector
    and its negation, it is 0 for the empty vector, and it can be 0 for a
    nonzero vector and infinite for a finite one: the squares underflow or
    overflow. *)
Theorem vec_norm_is_nan_or_nonnegative vec :
  is_nan (vec_norm vec) = existsb is_nan vec
  /\ (existsb is_nan vec = false -> (0 <=? vec_norm vec) = true)
  /\ vec_norm (vec_scale vec (-1)) = vec_norm vec
  /\ vec_norm [] = 0
  /\ vec_norm [1e-200] = 0
  /\ vec_norm [1e200] = infinity.
Proof.
  split; [apply vec_norm_nan|]. split.
  { intros H. apply vec_norm_nonneg. by rewrite vec_norm_nan. }
  split; [apply vec_norm_negated|]. by repeat split.
Qed.

(** X12. [vec_equal] is symmetric, holds only between vectors of one
    length, equates [0] and [-0], and is false of a vector and itself exactly
    when the vector holds a [NaN]. *)
Theorem vec_equal_is_symmetric_and_fails_on_nan v w :
  vec_equal v w = vec_equal w v
  /\ vec_equal v v = negb (existsb is_nan v)
  /\ (vec_equal v w = true -> length v = length w)
  /\ vec_equal [0] [neg_zero] = true.
Proof.
  split; [apply vec_equal_sym|]. split; [apply vec_equal_refl|].
  split; [|done]. intros H. by apply vec_equal_true in H as [? _].
Qed.

(** X13. [vec_add] gives the same result, or the same exception, with its
    arguments exchanged, and a result has the length of both arguments. *)
Theorem vec_add_commutes_and_keeps_length v w :
  vec_add v w = vec_add w v
  /\ (forall r, vec_add v w = Ok r -> length r = length v /\ length r = length w).
Proof.
  split; [apply vec_add_comm|]. intros r Hr. split; [by eapply vec_add_length|].
  rewrite vec_add_comm in Hr. by eapply vec_add_length.
Qed.
End VecFacts.

(** * The backward pass *)

Module AdjointFacts.
Import AAD Tape Adjoint TapeFacts Binary64Facts.
Local Open Scope float_scope.
Local Open Scope aad_scope.

Lemma skeleton_length h h' : skeleton h = skeleton h' -> length h = length h'.
Proof.
  intros H. apply (f_equal length) in H. unfold skeleton in H.
  by rewrite !length_fmap in H.
Qed.

Lemma skeleton_lookup h h' r n :
  skeleton h = skeleton h' ->
  h !! r = Some n ->
  exists n', h' !! r = Some n'
    /\ value n' = value n /\ parents n' = parents n /\ ddparents n' = ddparents n.
Proof.
  intros H Hr. apply (f_equal (fun l => l !! r)) in H. unfold skeleton in H.
  cbv beta in H. rewrite !list_lookup_fmap, Hr in H. simpl in H.
  destruct (h' !! r) as [n'|]; [|discriminate].
  simpl in H. injection H as Hv Hp Hd. eauto.
Qed.

Lemma skeleton_set_derivative r d h :
  skeleton (set_derivative r d h) = skeleton h.
Proof.
  unfold skeleton, set_derivative. apply list_eq. intros i.
  rewrite !list_lookup_fmap.
  destruct (decide (r = i)) as [->|Hne].
  - rewrite list_lookup_alter_eq. by destruct (h !! i).
  - by rewrite list_lookup_alter_ne.
Qed.

Lemma get_set_derivative_eq r d h :
  is_Some (h !! r) -> get_derivative (set_derivative r d h) r = Some d.
Proof.
  intros [n Hn]. unfold get_derivative, set_derivative.
  by rewrite list_lookup_alter_eq, Hn.
Qed.

Lemma get_set_derivative_ne r r' d h :
  r <> r' -> get_derivative (set_derivative r d h) r' = get_derivative h r'.
Proof.
  intros Hne. unfold get_derivative, set_derivative.
  by rewrite list_lookup_alter_ne.
Qed.

Lemma is_Some_set_derivative r d h r' :
  is_Some (set_derivative r d h !! r') <-> is_Some (h !! r').
Proof.
  rewrite !lookup_lt_is_Some. unfold set_derivative. by rewrite length_alter.
Qed.

Lemma accumulate_app d ts1 ts2 :
  accumulate d (ts1 ++ ts2) = accumulate (accumulate d ts1) ts2.
Proof. apply fold_left_app. Qed.

(** The inner loop adds to each node the terms of the slots that refer to
    it, provided the visited node is not among its own parents. *)
Lemma parents_loop_derivative node ps dds i h r :
  node ∉ ps ->
  Forall (fun p => is_Some (h !! p)) ps ->
  get_derivative (parents_loop node ps dds i h) r
  = accumulate (get_derivative h r)
      (slot_terms r ps dds i (JS.ToNumber (get_derivative h node))).
Proof.
  revert i h. induction ps as [|p ps IH]; intros i h Hnode Hps; [done|].
  simpl. apply not_elem_of_cons in Hnode as [Hne Hnode].
  inversion Hps as [|? ? Hp Hps']; subst.
  rewrite IH; [|done|].
  2:{ eapply Forall_impl; [exact Hps'|]. intros q Hq.
      unfold chain_rule. by apply is_Some_set_derivative. }
  unfold chain_rule at 2.
  rewrite (get_set_derivative_ne p node) by congruence.
  rewrite accumulate_app. f_equal.
  unfold chain_rule. destruct (decide (p = r)) as [->|Hpr].
  - by rewrite get_set_derivative_eq.
  - by rewrite get_set_derivative_ne.
Qed.

Lemma skeleton_parents_loop node ps dds i h :
  skeleton (parents_loop node ps dds i h) = skeleton h.
Proof.
  revert i h. induction ps as [|p ps IH]; intros i h; [done|].
  simpl. rewrite IH. apply skeleton_set_derivative.
Qed.

Lemma skeleton_visit node h : skeleton (visit node h) = skeleton h.
Proof.
  unfold visit. destruct (h !! node); [|done]. apply skeleton_parents_loop.
Qed.

Lemma slot_terms_none r ps dds i dc : r ∉ ps -> slot_terms r ps dds i dc = [].
Proof.
  revert i. induction ps as [|p ps IH]; intros i Hr; [done|].
  apply not_elem_of_cons in Hr as [Hne Hr]. simpl.
  rewrite decide_False by congruence. by apply IH.
Qed.

Lemma parents_loop_frame node ps dds i h r :
  r ∉ ps ->
  get_derivative (parents_loop node ps dds i h) r = get_derivative h r.
Proof.
  revert i h. induction ps as [|p ps IH]; intros i h Hr; [done|].
  apply not_elem_of_cons in Hr as [Hne Hr]. simpl.
  rewrite IH by done. unfold chain_rule. by rewrite get_set_derivative_ne.
Qed.

Lemma visit_frame c h r :
  (forall nd, h !! c = Some nd -> r ∉ parents nd) ->
  get_derivative (visit c h) r = get_derivative h r.
Proof.
  intros H. unfold visit. destruct (h !! c) as [nd|]; [|done].
  apply parents_loop_frame. by apply H.
Qed.

Lemma visit_derivative c h nd r :
  h !! c = Some nd ->
  c ∉ parents nd ->
  Forall (fun p => is_Some (h !! p)) (parents nd) ->
  get_derivative (visit c h) r
  = accumulate (get_derivative h r) (child_terms h r c).
Proof.
  intros Hc Hself Hps. unfold visit, child_terms. rewrite Hc.
  rewrite parents_loop_derivative by done.
  unfold get_derivative at 2. by rewrite Hc.
Qed.

Lemma walk_visit_all stack k h :
  (k <= length stack)%nat ->
  walk stack k h = visit_all h (reverse (take k stack)).
Proof.
  revert h. induction k as [|n IH]; intros h Hk; [done|].
  simpl. destruct (stack !! n) as [c|] eqn:Hc.
  - rewrite (take_S_r _ _ _ Hc), reverse_snoc. simpl. apply IH. lia.
  - apply lookup_ge_None in Hc. lia.
Qed.

Lemma skeleton_visit_all order h : skeleton (visit_all h order) = skeleton h.
Proof.
  revert h. induction order as [|c order IH]; intros h; [done|].
  simpl. rewrite IH. apply skeleton_visit.
Qed.

Lemma parents_follow_head h c order :
  parents_follow h (c :: order) ->
  exists nd, h !! c = Some nd
    /\ (c ∉ parents nd)
    /\ Forall (fun p => p ∈ order) (parents nd)
    /\ (c ∉ order).
Proof.
  intros [Hnd Hok]. destruct (Hok [] c order eq_refl) as (nd & Hc & Hps).
  apply NoDup_cons in Hnd as [Hc' _].
  exists nd. repeat split; try done.
  intros Hin. rewrite Forall_forall in Hps. by apply Hps in Hin.
Qed.

Lemma parents_follow_lookup h order c :
  parents_follow h order -> c ∈ order ->
  exists nd, h !! c = Some nd /\ Forall (fun p => p ∈ order) (parents nd).
Proof.
  intros [_ Hok] Hc. apply list_elem_of_split in Hc as (pre & post & ->).
  destruct (Hok pre c post eq_refl) as (nd & Hnd & Hps).
  exists nd. split; [done|]. eapply Forall_impl; [exact Hps|].
  intros p Hp. apply elem_of_app. right. by right.
Qed.

Lemma parents_follow_tail h h' c order :
  skeleton h = skeleton h' ->
  parents_follow h (c :: order) ->
  parents_follow h' order.
Proof.
  intros Hsk [Hnd Hok]. split.
  - by apply NoDup_cons in Hnd as [_ Hnd].
  - intros pre c' post ->.
    destruct (Hok (c :: pre) c' post eq_refl) as (nd & Hc' & Hps).
    destruct (skeleton_lookup _ _ _ _ Hsk Hc') as (nd' & Hnd' & _ & Hp & _).
    exists nd'. split; [done|]. by rewrite Hp.
Qed.

Lemma visit_all_frame order h r :
  (forall c nd, c ∈ order -> h !! c = Some nd -> r ∉ parents nd) ->
  get_derivative (visit_all h order) r = get_derivative h r.
Proof.
  revert h. induction order as [|c order IH]; intros h Hr; [done|].
  simpl. rewrite IH.
  - apply visit_frame. intros nd Hnd. eapply Hr; [by left|done].
  - intros c' nd' Hc' Hnd'.
    assert (Hsk : skeleton (visit c h) = skeleton h) by apply skeleton_visit.
    destruct (skeleton_lookup _ _ _ _ Hsk Hnd') as (nd & Hnd & _ & Hp & _).
    rewrite <- Hp. eapply Hr; [by right|done].
Qed.

Lemma child_terms_ext h h' r c :
  skeleton h = skeleton h' ->
  get_derivative h c = get_derivative h' c ->
  child_terms h r c = child_terms h' r c.
Proof.
  intros Hsk Hd. unfold child_terms. unfold get_derivative in Hd.
  destruct (h !! c) as [nd|] eqn:Hc.
  - destruct (skeleton_lookup _ _ _ _ Hsk Hc) as (nd' & Hc' & _ & Hp & Hdd).
    rewrite Hc' in *. by rewrite Hp, Hdd, Hd.
  - destruct (h' !! c) as [nd'|] eqn:Hc'; [|done].
    symmetry in Hsk.
    destruct (skeleton_lookup _ _ _ _ Hsk Hc') as (nd & Hnd & _). congruence.
Qed.

(** After the visits, the derivative of every node is what it was before,
    with the terms of all its children added in visiting order; the terms
    may be read off the final store, since the derivative of a node no longer
    changes once the node has been visited. *)
Lemma visit_all_derivative order h r :
  parents_follow h order ->
  get_derivative (visit_all h order) r
  = accumulate (get_derivative h r) (terms (visit_all h order) order r).
Proof.
  revert h. induction order as [|c order IH]; intros h Hok; [done|].
  destruct (parents_follow_head _ _ _ Hok) as (nd & Hc & Hself & Hps & Hfresh).
  assert (Hsk : skeleton h = skeleton (visit c h)) by (symmetry; apply skeleton_visit).
  assert (Hok' : parents_follow (visit c h) order) by by eapply parents_follow_tail.
  simpl. rewrite (IH _ Hok'). rewrite accumulate_app. f_equal.
  - rewrite (visit_derivative c h nd r Hc Hself).
    + f_equal. apply child_terms_ext.
      * rewrite skeleton_visit_all. done.
      * rewrite visit_all_frame.
        -- symmetry. apply visit_frame. intros nd0 Hnd0. congruence.
        -- intros c' nd' Hc' Hnd'.
           destruct (parents_follow_lookup _ _ _ Hok' Hc') as (nd'' & Hnd'' & Hps'').
           assert (nd'' = nd') as -> by congruence.
           intros Hin. rewrite Forall_forall in Hps''. by apply Hps'' in Hin.
    + eapply Forall_impl; [exact Hps|]. intros p Hp.
      destruct (parents_follow_lookup h (c :: order) p Hok) as (ndp & Hndp & _);
        [by right|by eexists].
Qed.

Lemma parents_follow_skeleton h h' order :
  skeleton h = skeleton h' -> parents_follow h order -> parents_follow h' order.
Proof.
  intros Hsk [Hnd Hok]. split; [done|]. intros pre c post Heq.
  destruct (Hok pre c post Heq) as (nd & Hc & Hps).
  destruct (skeleton_lookup _ _ _ _ Hsk Hc) as (nd' & Hnd' & _ & Hp & _).
  exists nd'. split; [done|]. by rewrite Hp.
Qed.

Lemma wf_tape_parents_follow st :
  wf_tape st -> parents_follow (heap st) (reverse (aad_stack st)).
Proof.
  intros (Hnd & _ & Hok). split; [by rewrite reverse_Permutation|].
  intros pre c post Heq.
  assert (Hst : aad_stack st = reverse post ++ c :: reverse pre).
  { rewrite <- (reverse_involutive (aad_stack st)), Heq.
    rewrite reverse_app, reverse_cons, <- app_assoc. done. }
  destruct (Hok (length (reverse post)) c) as (nd & Hc & _ & Hps).
  { rewrite Hst. by apply list_lookup_middle. }
  exists nd. split; [done|]. eapply Forall_impl; [exact Hps|].
  intros p Hp. rewrite Hst, take_app_length in Hp. by apply elem_of_reverse.
Qed.

(** A node that is the parent of no node in [order] collects no term. *)
Lemma terms_none h order r :
  (forall c nd, c ∈ order -> h !! c = Some nd -> r ∉ parents nd) ->
  terms h order r = [].
Proof.
  induction order as [|c order IH]; intros Hr; [done|].
  unfold terms. simpl. fold (terms h order r).
  rewrite IH by (intros c' nd' Hc'; apply Hr; by right).
  rewrite app_nil_r. unfold child_terms.
  destruct (h !! c) as [nd|] eqn:Hc; [|done].
  apply slot_terms_none. eapply Hr; [by left|done].
Qed.

(** The exact effect of [aad_calc_derivs] on a well-formed tape: the
    derivative of the last node is set to 1, and every node then collects the
    terms of its children, from the last child to the first. *)
Lemma aad_calc_derivs_exact st output :
  wf_tape st ->
  last (aad_stack st) = Some output ->
  exists hf,
    aad_calc_derivs st = (Ok tt, mkState hf (aad_stack st))
    /\ skeleton hf = skeleton (heap st)
    /\ forall r,
         get_derivative hf r
         = accumulate (if decide (r = output) then Some 1
                       else get_derivative (heap st) r)
             (terms hf (reverse (aad_stack st)) r).
Proof.
  intros Hwf Hlast.
  set (h0 := set_derivative output 1 (heap st)).
  exists (visit_all h0 (reverse (aad_stack st))).
  assert (Hsk0 : skeleton (heap st) = skeleton h0).
  { symmetry. apply skeleton_set_derivative. }
  split; [|split].
  - unfold aad_calc_derivs. rewrite Hlast. fold h0.
    rewrite walk_visit_all by done. by rewrite firstn_all.
  - rewrite skeleton_visit_all. by symmetry.
  - intros r. rewrite visit_all_derivative.
    + f_equal. unfold h0. destruct (decide (r = output)) as [->|Hne].
      * apply get_set_derivative_eq. apply lookup_lt_is_Some.
        destruct Hwf as (_ & Hal & _). apply Hal.
        apply last_Some in Hlast as [l' ->]. apply elem_of_app. right. by left.
      * by apply get_set_derivative_ne.
    + eapply parents_follow_skeleton; [exact Hsk0|].
      by apply wf_tape_parents_follow.
Qed.

Lemma or_zero_kept s : kept s = true -> JS.or_zero (Some s) = s.
Proof.
  unfold kept, JS.or_zero. destruct (JS.ToBoolean s); [done|]. simpl.
  intros H. apply FloatAxioms.Leibniz.eqb_spec in H. by subst.
Qed.

Lemma accumulate_Some s ts :
  (forall k, (k < length ts)%nat -> kept (fold_left add (take k ts) s) = true) ->
  accumulate (Some s) ts = Some (fold_left add ts s).
Proof.
  revert s. induction ts as [|t ts IH]; intros s Hk; [done|].
  change (accumulate (Some s) (t :: ts))
    with (accumulate (Some (JS.or_zero (Some s) + t)) ts).
  rewrite (or_zero_kept s) by (apply (Hk 0%nat); simpl; lia).
  apply IH. intros k Hlt. apply (Hk (S k)). simpl. lia.
Qed.

Lemma kept_not_nan s : is_nan s = false -> s <> neg_zero -> kept s = true.
Proof.
  intros Hnan Hnz. unfold kept, JS.ToBoolean. rewrite Hnan. simpl.
  destruct (s =? 0) eqn:Hz; [|done]. simpl.
  destruct (eqb_zero_inv s Hz) as [->|]; done.
Qed.

(** A sum that does not start from [-0] is never [-0]. *)
Lemma fold_add_not_neg_zero ts s :
  s <> neg_zero -> fold_left add ts s <> neg_zero.
Proof.
  revert s. induction ts as [|t ts IH]; intros s Hs; [done|].
  simpl. apply IH. intros H. by apply add_neg_zero in H as [? _].
Qed.

Lemma accumulate_float_sum ts :
  partial_sums_not_nan ts = true ->
  accumulate None ts = match ts with [] => None | _ :: _ => Some (float_sum ts) end.
Proof.
  destruct ts as [|t ts]; [done|]. intros H.
  change (accumulate None (t :: ts)) with (accumulate (Some (0 + t)) ts).
  change (float_sum (t :: ts)) with (fold_left add ts (0 + t)).
  apply accumulate_Some. intros k Hk. apply kept_not_nan.
  - unfold partial_sums_not_nan in H. rewrite forallb_forall in H.
    specialize (H (S k)). simpl in H. apply negb_true_iff, H, in_seq. simpl.
    rewrite Nat.sub_0_r. lia.
  - apply fold_add_not_neg_zero. intros H0.
    by apply add_neg_zero in H0 as [H0 _].
Qed.

Lemma accumulate_is_Some d t ts : is_Some (accumulate d (t :: ts)).
Proof.
  change (accumulate d (t :: ts)) with (accumulate (Some (JS.or_zero d + t)) ts).
  unfold accumulate. generalize (JS.or_zero d + t). clear d t.
  induction ts as [|t ts IH]; intros s; [by eexists|]. simpl. apply IH.
Qed.

Lemma slot_terms_some r ps dds i dc : r ∈ ps -> slot_terms r ps dds i dc <> [].
Proof.
  revert i. induction ps as [|p ps IH]; intros i Hr; [by inversion Hr|].
  simpl. destruct (decide (p = r)); [done|].
  apply elem_of_cons in Hr as [->|Hr]; [done|]. simpl. by apply IH.
Qed.

Lemma terms_some h order r c nd :
  c ∈ order -> h !! c = Some nd -> r ∈ parents nd -> terms h order r <> [].
Proof.
  intros Hc Hnd Hr. unfold terms. intros Hnil.
  assert (Hct : In (child_terms h r c) (map (child_terms h r) order)).
  { apply in_map. by apply list_elem_of_In. }
  rewrite flat_map_concat_map in Hnil.
  assert (Hall : Forall (fun l => l = []) (map (child_terms h r) order)).
  { clear -Hnil. induction (map (child_terms h r) order) as [|l ls IH]; [done|].
    simpl in Hnil. apply app_eq_nil in Hnil as [-> Hls]. constructor; auto. }
  rewrite Forall_forall in Hall. apply list_elem_of_In in Hct. apply Hall in Hct.
  unfold child_terms in Hct. rewrite Hnd in Hct.
  by eapply slot_terms_some.
Qed.

Lemma output_has_no_terms st output hf :
  wf_tape st ->
  last (aad_stack st) = Some output ->
  skeleton hf = skeleton (heap st) ->
  terms hf (reverse (aad_stack st)) output = [].
Proof.
  intros Hwf Hlast Hsk. apply terms_none. intros c nd Hc Hnd Hin.
  destruct (wf_tape_parents_follow st Hwf) as [Hnodup Hok].
  apply last_Some in Hlast as [l' Hst]. rewrite Hst, reverse_snoc in *.
  apply NoDup_cons in Hnodup as [Hout _].
  apply list_elem_of_split in Hc as (pre & post & Heq).
  destruct (Hok pre c post Heq) as (nd0 & Hnd0 & Hps).
  destruct (skeleton_lookup _ _ _ _ Hsk Hnd) as (nd1 & Hnd1 & _ & Hp & _).
  assert (nd1 = nd0) as -> by congruence.
  rewrite Forall_forall in Hps. rewrite <- Hp in Hin. apply Hps in Hin.
  apply Hout. destruct pre as [|x pre]; simpl in Heq.
  - injection Heq as _ ->. done.
  - injection Heq as _ ->. apply elem_of_app. right. by right.
Qed.

Lemma used_node_has_terms st hf c nd :
  skeleton hf = skeleton (heap st) ->
  inner_nodes_used st = true ->
  c ∈ aad_stack st ->
  last (aad_stack st) <> Some c ->
  heap st !! c = Some nd ->
  parents nd <> [] ->
  terms hf (reverse (aad_stack st)) c <> [].
Proof.
  intros Hsk Hused Hc Hlast Hnd Hps.
  apply list_elem_of_lookup in Hc as [k Hk].
  assert (Hlt : (k < length (aad_stack st) - 1)%nat).
  { pose proof (lookup_lt_Some _ _ _ Hk) as Hlen.
    destruct (decide (k = pred (length (aad_stack st)))) as [->|Hne]; [|lia].
    rewrite last_lookup in Hlast. congruence. }
  unfold inner_nodes_used in Hused. rewrite forallb_forall in Hused.
  specialize (Hused k). rewrite Hk, Hnd in Hused.
  destruct (parents nd) as [|p ps] eqn:Hpar; [done|].
  assert (Hch : has_child st k c = true).
  { apply Hused. apply in_seq. lia. }
  unfold has_child in Hch. apply existsb_exists in Hch as (c' & Hc' & Hin).
  destruct (heap st !! c') as [nd'|] eqn:Hnd'; [|done].
  apply bool_decide_eq_true in Hin. symmetry in Hsk.
  destruct (skeleton_lookup _ _ _ _ Hsk Hnd') as (nd'' & Hnd'' & _ & Hp'' & _).
  eapply (terms_some hf _ c c' nd''); [|done|by rewrite Hp''].
  apply elem_of_reverse. apply list_elem_of_In in Hc'.
  apply list_elem_of_lookup in Hc' as [j Hj]. rewrite lookup_drop in Hj.
  by eapply list_elem_of_lookup_2.
Qed.

Lemma wf_shared_parent_tape a0 : wf_tape (shared_parent_tape a0).
Proof.
  unfold shared_parent_tape.
  repeat (apply wf_appended; [|reflexivity|simpl; repeat constructor]).
  apply wf_fresh_session.
Qed.

(** C1, the claim as it stands fails on its own example: at [a.value = 0.1]
    the backward pass leaves [a.derivative = (1 + 0.1) + 0.1], which in
    binary64 is not the number [2 * 0.1 + 1]. *)
Lemma shared_parent_derivative_is_not_2a_plus_1 :
  exists st' d,
    shared_parent 0.1 fresh_session = (Ok tt, st')
    /\ get_derivative (heap st') 0%nat = Some d
    /\ (d =? 2 * 0.1 + 1) = false.
Proof. do 2 eexists. split; [|split]; vm_compute; reflexivity. Qed.

(** C1, amended. On a well-formed tape whose nodes have no derivative yet
    and on which every node with parents, the last apart, is used by a later
    node, the backward pass changes no value, parent or local derivative;
    it leaves the last node with derivative 1 and every node that has parents
    with a derivative; and, provided no partial sum is [NaN], the
    derivative of every other node of the tape is absent when no node on the
    tape has it as a parent, and otherwise the binary64 sum, from zero and in
    the order last child first, of local derivative times child derivative
    over all parent slots that refer to it: the terms of several paths are
    added, none overwrites another. For [y = add(multiply(a, a), a)] the
    terms of [a] are [1], [a.value], [a.value] and the pass leaves
    [a.derivative = (1 + a.value) + a.value]; at [a.value = 3] this is
    [7 = 2 * 3 + 1]. *)
Theorem backward_pass_sums_the_terms_of_all_children st res st' :
  wf_tape st ->
  no_derivative_yet st = true ->
  inner_nodes_used st = true ->
  aad_stack st <> [] ->
  aad_calc_derivs st = (res, st') ->
  no_nan_partial_sum st' = true ->
  res = Ok tt
  /\ aad_stack st' = aad_stack st
  /\ skeleton (heap st') = skeleton (heap st)
  /\ (forall output, last (aad_stack st) = Some output ->
        get_derivative (heap st') output = Some 1)
  /\ (forall c nd, c ∈ aad_stack st -> heap st' !! c = Some nd ->
        parents nd <> [] -> is_Some (derivative nd))
  /\ (forall r, r ∈ aad_stack st -> last (aad_stack st) <> Some r ->
        get_derivative (heap st') r
        = match terms (heap st') (reverse (aad_stack st)) r with
          | [] => None
          | _ :: _ => Some (float_sum (terms (heap st') (reverse (aad_stack st)) r))
          end)
  /\ (forall a0, exists st1,
        shared_parent a0 fresh_session = (Ok tt, st1)
        /\ terms (heap st1) (reverse (aad_stack st1)) 0%nat = [1; a0; a0]
        /\ get_derivative (heap st1) 0%nat = Some ((1 + a0) + a0))
  /\ (exists st1,
        shared_parent 3 fresh_session = (Ok tt, st1)
        /\ get_derivative (heap st1) 0%nat = Some 7).
Proof.
  intros Hwf Hfresh Hused Hne Hrun Hkept.
  destruct (last (aad_stack st)) as [output|] eqn:Hlast.
  2:{ apply last_None in Hlast. done. }
  destruct (aad_calc_derivs_exact st output Hwf Hlast) as (hf & Hrun' & Hsk & Hd).
  rewrite Hrun' in Hrun. injection Hrun as <- <-. simpl in *.
  assert (Hout : get_derivative hf output = Some 1).
  { rewrite Hd, (output_has_no_terms st output hf Hwf Hlast Hsk).
    by rewrite decide_True. }
  assert (Hacc : forall r, r ∈ aad_stack st -> Some output <> Some r ->
            get_derivative hf r = accumulate None (terms hf (reverse (aad_stack st)) r)).
  { intros r Hr Hro. rewrite Hd. rewrite decide_False by congruence.
    unfold no_derivative_yet in Hfresh. rewrite forallb_forall in Hfresh.
    apply list_elem_of_In in Hr. apply Hfresh in Hr.
    by destruct (get_derivative (heap st) r). }
  repeat split; try done.
  - intros ? [= <-]. done.
  - intros c nd Hc Hnd Hps.
    assert (Hdc : get_derivative hf c = derivative nd).
    { unfold get_derivative. by rewrite Hnd. }
    rewrite <- Hdc. destruct (decide (c = output)) as [->|Hco].
    { by rewrite Hout. }
    rewrite Hacc by congruence.
    destruct (skeleton_lookup _ _ _ _ Hsk Hnd) as (nd0 & Hnd0 & _ & Hp & _).
    assert (Hts : terms hf (reverse (aad_stack st)) c <> []).
    { eapply used_node_has_terms; try done; [congruence|by rewrite Hp]. }
    destruct (terms hf (reverse (aad_stack st)) c) as [|t ts]; [done|].
    apply accumulate_is_Some.
  - intros r Hr Hro. rewrite Hacc by done.
    apply accumulate_float_sum.
    unfold no_nan_partial_sum in Hkept. simpl in Hkept.
    rewrite forallb_forall in Hkept. apply Hkept. by apply list_elem_of_In.
  - intros a0. eexists. split; [vm_compute; reflexivity|]. split.
    + transitivity [1; a0 * 1; a0 * 1]; [vm_compute; reflexivity|].
      by rewrite mul_one_r.
    + transitivity (Some (JS.or_zero (Some (1 + a0 * 1)) + a0 * 1));
        [vm_compute; reflexivity|].
      by rewrite mul_one_r, or_zero_one_plus.
  - eexists. split; vm_compute; reflexivity.
Qed.

Lemma backward_pass_sums_the_terms_of_all_children_witness :
  wf_tape (shared_parent_tape 3)
  /\ no_derivative_yet (shared_parent_tape 3) = true
  /\ inner_nodes_used (shared_parent_tape 3) = true
  /\ no_nan_partial_sum (snd (aad_calc_derivs (shared_parent_tape 3))) = true
  /\ get_derivative (heap (snd (aad_calc_derivs (shared_parent_tape 3)))) 0%nat
     = Some (float_sum [1; 3; 3]).
Proof.
  pose proof (wf_shared_parent_tape 3) as Hwf.
  assert (Hfresh : no_derivative_yet (shared_parent_tape 3) = true)
    by (vm_compute; reflexivity).
  assert (Hused : inner_nodes_used (shared_parent_tape 3) = true)
    by (vm_compute; reflexivity).
  assert (Hkept : no_nan_partial_sum (snd (aad_calc_derivs (shared_parent_tape 3)))
                  = true)
    by (vm_compute; reflexivity).
  split; [exact Hwf|]. split; [exact Hfresh|]. split; [exact Hused|].
  split; [exact Hkept|].
  refine (proj1 (proj2 (proj2 (proj2 (proj2 (proj2
           (backward_pass_sums_the_terms_of_all_children
              (shared_parent_tape 3)
              (fst (aad_calc_derivs (shared_parent_tape 3)))
              (snd (aad_calc_derivs (shared_parent_tape 3)))
              Hwf Hfresh Hused _ _ Hkept)))))) 0%nat _ _).
  - discriminate.
  - reflexivity.
  - simpl. repeat constructor.
  - discriminate.
Defined.

(** Where the prior derivative is absent, or is a number other than [NaN]
    and [-0], the assignment of the inner loop is the specification's
    step. *)
Lemma chain_rule_spec_accumulate node parent dd h :
  match get_derivative h parent with
  | Some d => kept d = true
  | None => True
  end ->
  chain_rule node parent dd h = spec_accumulate node h (parent, dd).
Proof.
  unfold chain_rule, spec_accumulate.
  destruct (get_derivative h parent) as [d|]; [|done].
  intros Hd. by rewrite (or_zero_kept d Hd).
Qed.

(** C2. On the tape of [nan_product] the visit of [y] leaves
    [a.derivative = NaN] (the term [c.value * 1]); the visit of [c] then
    finds this prior derivative, and [(parent.derivative || 0)] replaces it
    by 0: [aad_calc_derivs] ends with [a.derivative = 1], where accumulating
    with [+=] as specified ends with [NaN]. *)
Theorem or_zero_drops_a_nan_derivative :
  exists st st',
    nan_product fresh_session = (Ok 3%nat, st)
    /\ aad_calc_derivs st = (Ok tt, st')
    /\ terms (heap st') (reverse (aad_stack st)) 0%nat = [nan; 1]
    /\ get_derivative (heap st') 0%nat = Some 1
    /\ get_derivative (heap (compute_derivatives st 3%nat)) 0%nat = Some nan.
Proof. do 2 eexists. repeat split; vm_compute; reflexivity. Qed.

Lemma skeleton_derivative_lookup h h' r :
  skeleton h = skeleton h' ->
  get_derivative h r = get_derivative h' r ->
  h !! r = h' !! r.
Proof.
  intros Hsk Hd. unfold get_derivative in Hd.
  destruct (h !! r) as [n|] eqn:Hr.
  - destruct (skeleton_lookup _ _ _ _ Hsk Hr) as (n' & Hr' & Hv & Hp & Hdd).
    rewrite Hr' in *. destruct n, n'; simpl in *. by subst.
  - destruct (h' !! r) as [n'|] eqn:Hr'; [|done]. symmetry in Hsk.
    destruct (skeleton_lookup _ _ _ _ Hsk Hr') as (n & Hn & _). congruence.
Qed.

(** X8. [aad_calc_derivs] leaves the tape, and the value, parents and local
    derivatives of every node, as they are. On an empty tape it throws a
    TypeError and changes nothing; on any other it returns. A node that is
    neither the last of the tape nor a parent of a node of the tape is left
    exactly as it was. *)
Theorem backward_pass_touches_only_output_and_parents st res st' :
  aad_calc_derivs st = (res, st') ->
  aad_stack st' = aad_stack st
  /\ skeleton (heap st') = skeleton (heap st)
  /\ (aad_stack st = [] -> res = Throw TypeError /\ st' = st)
  /\ (aad_stack st <> [] -> res = Ok tt)
  /\ (forall r,
        last (aad_stack st) <> Some r ->
        (forall c nd, c ∈ aad_stack st -> heap st !! c = Some nd -> r ∉ parents nd) ->
        heap st' !! r = heap st !! r).
Proof.
  unfold aad_calc_derivs. destruct (last (aad_stack st)) as [output|] eqn:Hlast.
  - intros [= <- <-]. simpl. rewrite walk_visit_all, firstn_all by done.
    assert (Hsk : skeleton (visit_all (set_derivative output 1 (heap st))
                              (reverse (aad_stack st))) = skeleton (heap st)).
    { by rewrite skeleton_visit_all, skeleton_set_derivative. }
    split; [done|]. split; [done|]. split; [by intros Hnil; rewrite Hnil in Hlast|].
    split; [done|]. intros r Hr Hpar.
    apply skeleton_derivative_lookup; [done|].
    rewrite visit_all_frame.
    + apply get_set_derivative_ne. congruence.
    + intros c nd Hc Hnd.
      destruct (skeleton_lookup _ _ _ _ (skeleton_set_derivative output 1 (heap st)) Hnd)
        as (nd0 & Hnd0 & _ & Hp & _).
      rewrite <- Hp. apply (Hpar c); [by apply elem_of_reverse|done].
  - intros [= <- <-]. apply last_None in Hlast. by repeat split.
Qed.

Lemma backward_pass_touches_only_output_and_parents_witness :
  heap (snd (aad_calc_derivs (appended (two_constants 1 2) 3 [1%nat] [1]))) !! 0%nat
  = Some (mkNode 1 [] [] None).
Proof.
  refine (proj2 (proj2 (proj2 (proj2
            (backward_pass_touches_only_output_and_parents
               (appended (two_constants 1 2) 3 [1%nat] [1]) (Ok tt) _ eq_refl))))
            0%nat _ _).
  - discriminate.
  - intros c nd Hc Hnd Hin.
    repeat (apply elem_of_cons in Hc as [->|Hc];
            [injection Hnd as <-; simpl in Hin;
             repeat (apply elem_of_cons in Hin as [Hin|Hin]; [discriminate|]);
             by apply elem_of_nil in Hin|]).
    by apply elem_of_nil in Hc.
Defined.

(** X9. [aad_calc_derivs] does not clear the derivatives it finds: on a
    well-formed tape the last node gets derivative 1, and every other node
    ends with the derivative it had before the call with the terms of its
    children accumulated on top. A second call on the tape of
    [y = a * a + a] at [a = 3] turns [a.derivative] from 7 into 20. *)
Theorem backward_pass_adds_to_earlier_derivatives st output :
  wf_tape st ->
  last (aad_stack st) = Some output ->
  exists st',
    aad_calc_derivs st = (Ok tt, st')
    /\ get_derivative (heap st') output = Some 1
    /\ (forall r, r <> output ->
          get_derivative (heap st') r
          = accumulate (get_derivative (heap st) r)
              (terms (heap st') (reverse (aad_stack st)) r))
    /\ (exists st1 st2,
          shared_parent 3 fresh_session = (Ok tt, st1)
          /\ get_derivative (heap st1) 0%nat = Some 7
          /\ aad_calc_derivs st1 = (Ok tt, st2)
          /\ get_derivative (heap st2) 0%nat = Some 20).
Proof.
  intros Hwf Hlast.
  destruct (aad_calc_derivs_exact st output Hwf Hlast) as (hf & Hrun & Hsk & Hd).
  exists (mkState hf (aad_stack st)). split; [done|]. simpl. split; [|split].
  - rewrite Hd, decide_True by done.
    by rewrite (output_has_no_terms st output hf Hwf Hlast Hsk).
  - intros r Hr. by rewrite Hd, decide_False.
  - do 2 eexists. repeat split; vm_compute; reflexivity.
Qed.

Lemma backward_pass_adds_to_earlier_derivatives_witness :
  exists st',
    aad_calc_derivs (shared_parent_tape 3) = (Ok tt, st')
    /\ get_derivative (heap st') 2%nat = Some 1.
Proof.
  destruct (backward_pass_adds_to_earlier_derivatives (shared_parent_tape 3) 2%nat
              (wf_shared_parent_tape 3) eq_refl) as (st' & Hrun & Hout & _).
  by exists st'.
Defined.

Lemma slot_terms_nan r ps dds i :
  Forall (fun t => t = nan) (slot_terms r ps dds i nan).
Proof.
  revert i. induction ps as [|p ps IH]; intros i; simpl; [done|].
  apply Forall_app. split; [|apply IH].
  destruct (decide (p = r)); [|done]. repeat constructor. apply mul_nan.
Qed.

Lemma accumulate_nan d ts :
  ts <> [] -> Forall (fun t => t = nan) ts -> accumulate d ts = Some nan.
Proof.
  revert d. induction ts as [|t ts IH]; intros d Hne Hall; [done|].
  inversion Hall as [|? ? -> Hts]; subst.
  change (accumulate d (nan :: ts)) with (accumulate (Some (JS.or_zero d + nan)) ts).
  rewrite add_nan_r. destruct ts as [|t' ts]; [done|]. by apply IH.
Qed.

Lemma terms_app h o1 o2 r : terms h (o1 ++ o2) r = terms h o1 r ++ terms h o2 r.
Proof. unfold terms. apply flat_map_app. Qed.

(** X1. A node [c] of a well-formed tape that has parents, has no
    derivative, is not the last node and is used by no later node is visited
    by [aad_calc_derivs] without a derivative of its own, so each
    [ddparents[i] * node.derivative] is [NaN]: [c.derivative] stays absent,
    and a parent [p] of [c] that no node before [c] uses ends with
    [p.derivative = NaN], whatever its other children added before. *)
Theorem unused_node_leaves_nan_in_its_parent st k c nd p :
  wf_tape st ->
  aad_stack st !! k = Some c ->
  heap st !! c = Some nd ->
  (S k < length (aad_stack st))%nat ->
  derivative nd = None ->
  has_child st k c = false ->
  p ∈ parents nd ->
  first_child st k p = true ->
  exists st',
    aad_calc_derivs st = (Ok tt, st')
    /\ get_derivative (heap st') c = None
    /\ get_derivative (heap st') p = Some nan.
Proof.
  intros Hwf Hk Hnd Hlt Hder Hunused Hp Hfirst.
  destruct (last (aad_stack st)) as [output|] eqn:Hlast.
  2:{ apply last_None in Hlast. rewrite Hlast in Hlt. simpl in Hlt. lia. }
  destruct (aad_calc_derivs_exact st output Hwf Hlast) as (hf & Hrun & Hsk & Hd).
  exists (mkState hf (aad_stack st)). split; [done|]. simpl.
  pose proof Hwf as (Hnodup & Hheap & Hok).
  assert (Hsplit : aad_stack st = take k (aad_stack st) ++ c :: drop (S k) (aad_stack st)).
  { by rewrite <- (take_drop_middle _ _ _ Hk) at 1. }
  assert (Hco : c <> output).
  { intros ->. rewrite last_lookup in Hlast.
    assert (k = pred (length (aad_stack st))); [|lia].
    eapply NoDup_lookup; eauto. }
  assert (Hpos : forall j r, aad_stack st !! j = Some r ->
            forall n, hf !! r = Some n ->
            forall q, q ∈ parents n ->
            exists i, (i < j)%nat /\ aad_stack st !! i = Some q).
  { intros j r Hj n Hn q Hq.
    destruct (node_ok_positions st j r (Hok j r Hj)) as (n0 & Hn0 & _ & Hpar).
    destruct (skeleton_lookup _ _ _ _ Hsk Hn) as (n1 & Hn1 & _ & Hp1 & _).
    assert (n1 = n0) as -> by congruence. apply Hpar. by rewrite Hp1. }
  assert (Hdc : get_derivative hf c = None).
  { rewrite Hd, decide_False by done.
    rewrite terms_none.
    - unfold get_derivative. by rewrite Hnd.
    - intros c' nd' Hc' Hnd' Hin. rewrite elem_of_reverse in Hc'.
      apply list_elem_of_lookup in Hc' as [j Hj].
      destruct (Hpos j c' Hj nd' Hnd' c Hin) as (i & Hi & Hic).
      assert (i = k) as -> by (eapply NoDup_lookup; eauto).
      unfold has_child in Hunused.
      assert (Hex : existsb
                (fun c0 => match heap st !! c0 with
                           | Some nd0 => bool_decide (c ∈ parents nd0)
                           | None => false
                           end) (drop (S k) (aad_stack st)) = true); [|congruence].
      apply existsb_exists. exists c'. split.
      + apply list_elem_of_In, list_elem_of_lookup. exists (j - S k)%nat.
        rewrite lookup_drop. by replace (S k + (j - S k))%nat with j by lia.
      + destruct (skeleton_lookup _ _ _ _ Hsk Hnd') as (n1 & Hn1 & _ & Hp1 & _).
        rewrite Hn1. apply bool_decide_eq_true. by rewrite Hp1. }
  split; [done|].
  assert (Hpo : p <> output).
  { intros ->. rewrite last_lookup in Hlast.
    destruct (node_ok_positions st k c (Hok k c Hk)) as (n0 & Hn0 & _ & Hpar).
    assert (n0 = nd) as -> by congruence.
    destruct (Hpar _ Hp) as (i & Hi & Hio).
    assert (i = pred (length (aad_stack st))); [|lia].
    eapply NoDup_lookup; eauto. }
  rewrite Hd, decide_False by done.
  rewrite Hsplit, reverse_app, reverse_cons, <- app_assoc, !terms_app.
  rewrite !accumulate_app.
  rewrite (terms_none hf (reverse (take k (aad_stack st)))).
  2:{ intros c' nd' Hc' Hnd' Hin. rewrite elem_of_reverse in Hc'.
      unfold first_child in Hfirst. rewrite forallb_forall in Hfirst.
      specialize (Hfirst c' ltac:(by apply list_elem_of_In)).
      destruct (skeleton_lookup _ _ _ _ Hsk Hnd') as (n1 & Hn1 & _ & Hp1 & _).
      rewrite Hn1 in Hfirst. apply negb_true_iff, bool_decide_eq_false in Hfirst.
      apply Hfirst. by rewrite Hp1. }
  simpl. rewrite app_nil_r.
  apply accumulate_nan.
  - unfold child_terms. symmetry in Hsk.
    destruct (skeleton_lookup _ _ _ _ Hsk Hnd) as (n1 & Hn1 & _ & Hp1 & _).
    rewrite Hn1. apply slot_terms_some. by rewrite Hp1.
  - unfold child_terms. unfold get_derivative in Hdc.
    destruct (hf !! c) as [n1|]; [|done]. rewrite Hdc. apply slot_terms_nan.
Qed.

Lemma unused_node_leaves_nan_in_its_parent_witness :
  exists st',
    aad_calc_derivs (snd (unused_sum fresh_session)) = (Ok tt, st')
    /\ get_derivative (heap st') 1%nat = None
    /\ get_derivative (heap st') 0%nat = Some nan.
Proof.
  apply (unused_node_leaves_nan_in_its_parent (snd (unused_sum fresh_session))
           1%nat 1%nat (mkNode (3 + 3) [0%nat; 0%nat] [1; 1] None) 0%nat).
  - change (snd (unused_sum fresh_session))
      with (appended
              (appended (appended fresh_session 3 [] [])
                 (3 + 3) [0%nat; 0%nat] [1; 1])
              (3 * 3) [0%nat; 0%nat] [3; 3]).
    repeat (apply wf_appended; [|reflexivity|simpl; repeat constructor]).
    apply wf_fresh_session.
  - reflexivity.
  - reflexivity.
  - simpl. lia.
  - reflexivity.
  - reflexivity.
  - simpl. by left.
  - reflexivity.
Defined.

(** X23. A node that is a parent of the last node of the tape and of no
    other node, and that has no derivative yet, gets from [aad_calc_derivs]
    the sum, started at 0, of the last node's [ddparents] entries at the
    slots that hold it; with two distinct parents this is [0 + d] for its own
    entry [d]. On the tape of the second example of the file, the quotient of
    the constants 4 and 2, the two derivatives are 0.5 and -1. *)
Theorem parents_of_the_output_get_its_local_derivatives st output nd p :
  wf_tape st ->
  last (aad_stack st) = Some output ->
  heap st !! output = Some nd ->
  p <> output ->
  get_derivative (heap st) p = None ->
  (forall c ndc, c ∈ aad_stack st -> c <> output -> heap st !! c = Some ndc ->
     p ∉ parents ndc) ->
  exists st',
    aad_calc_derivs st = (Ok tt, st')
    /\ get_derivative (heap st') p
       = accumulate None (slot_terms p (parents nd) (ddparents nd) 0 1)
    /\ (forall q d dq,
          parents nd = [p; q] -> ddparents nd = [d; dq] -> p <> q ->
          get_derivative (heap st') p = Some (0 + d))
    /\ (forall q d dq,
          parents nd = [q; p] -> ddparents nd = [dq; d] -> p <> q ->
          get_derivative (heap st') p = Some (0 + d)).
Proof.
  intros Hwf Hlast Hnd Hpo Hder Honly.
  destruct (aad_calc_derivs_exact st output Hwf Hlast) as (hf & Hrun & Hsk & Hd).
  exists (mkState hf (aad_stack st)). split; [done|]. simpl.
  assert (Hsk' : skeleton (heap st) = skeleton hf) by done.
  destruct (skeleton_lookup _ _ _ _ Hsk' Hnd) as (nd' & Hnd' & _ & Hp' & Hdd').
  assert (Hout : derivative nd' = Some 1).
  { pose proof (Hd output) as Ho. rewrite decide_True in Ho by done.
    rewrite (output_has_no_terms st output hf Hwf Hlast Hsk) in Ho.
    unfold get_derivative in Ho. by rewrite Hnd' in Ho. }
  assert (Hp : get_derivative hf p
               = accumulate None (slot_terms p (parents nd) (ddparents nd) 0 1)).
  { rewrite Hd, decide_False, Hder by done.
    pose proof Hlast as Hst. apply last_Some in Hst as [l' Hst].
    rewrite Hst, reverse_snoc. unfold terms. simpl. fold (terms hf (reverse l') p).
    rewrite (terms_none hf (reverse l') p).
    - rewrite app_nil_r. unfold child_terms. by rewrite Hnd', Hp', Hdd', Hout.
    - intros c ndc Hc Hndc. rewrite elem_of_reverse in Hc.
      destruct (skeleton_lookup _ _ _ _ Hsk Hndc) as (nd0 & Hnd0 & _ & Hp0 & _).
      rewrite <- Hp0. apply (Honly c); [|intros ->|done].
      + rewrite Hst. apply elem_of_app. by left.
      + destruct Hwf as (Hnodup & _). rewrite Hst in Hnodup.
        apply NoDup_app in Hnodup as (_ & Hdisj & _).
        apply (Hdisj output Hc). by left. }
  split; [done|]. split.
  - intros q d dq Hps Hdds Hne. rewrite Hp, Hps, Hdds. simpl.
    rewrite decide_True, decide_False by congruence. simpl.
    by rewrite mul_one_r.
  - intros q d dq Hps Hdds Hne. rewrite Hp, Hps, Hdds. simpl.
    rewrite decide_False, decide_True by congruence. simpl.
    by rewrite mul_one_r.
Qed.

Lemma parents_of_the_output_get_its_local_derivatives_witness :
  exists st',
    aad_calc_derivs (appended (two_constants 4 2) 2 [0%nat; 1%nat] [0.5; -1])
    = (Ok tt, st')
    /\ get_derivative (heap st') 0%nat = Some 0.5
    /\ get_derivative (heap st') 1%nat = Some (-1).
Proof.
  assert (Hwf : wf_tape (appended (two_constants 4 2) 2 [0%nat; 1%nat] [0.5; -1])).
  { unfold two_constants.
    repeat (apply wf_appended; [|reflexivity|simpl; repeat constructor]).
    apply wf_fresh_session. }
  assert (Honly : forall p c ndc,
            c ∈ aad_stack (appended (two_constants 4 2) 2 [0%nat; 1%nat] [0.5; -1]) ->
            c <> 2%nat ->
            heap (appended (two_constants 4 2) 2 [0%nat; 1%nat] [0.5; -1]) !! c
            = Some ndc ->
            p ∉ parents ndc).
  { intros p c ndc Hc Hne Hndc Hin. simpl in Hc.
    repeat (apply elem_of_cons in Hc as [->|Hc];
            [first [ done | injection Hndc as <-; by apply elem_of_nil in Hin ]|]).
    by apply elem_of_nil in Hc. }
  destruct (parents_of_the_output_get_its_local_derivatives
              (appended (two_constants 4 2) 2 [0%nat; 1%nat] [0.5; -1])
              2%nat (mkNode 2 [0%nat; 1%nat] [0.5; -1] None) 0%nat
              Hwf eq_refl eq_refl ltac:(lia) eq_refl (Honly 0%nat))
    as (st' & Hrun & _ & Hx & _).
  destruct (parents_of_the_output_get_its_local_derivatives
              (appended (two_constants 4 2) 2 [0%nat; 1%nat] [0.5; -1])
              2%nat (mkNode 2 [0%nat; 1%nat] [0.5; -1] None) 1%nat
              Hwf eq_refl eq_refl ltac:(lia) eq_refl (Honly 1%nat))
    as (st'' & Hrun' & _ & _ & Hy).
  exists st'. split; [done|]. split.
  - exact (Hx 1%nat 0.5 (-1) eq_refl eq_refl ltac:(lia)).
  - rewrite Hrun in Hrun'. injection Hrun' as <-.
    exact (Hy 0%nat (-1) 0.5 eq_refl eq_refl ltac:(lia)).
Defined.

End AdjointFacts.

(** * The minimizer *)

Module DescentFacts.
Import Vec GD Descent Binary64 Binary64Facts VecFacts.
Local Open Scope float_scope.

Lemma outer_head_Inner f max_iter iter step x iter' step' x' y direction norm :
  outer_head f max_iter iter step x = Inner iter' step' x' y direction norm ->
  exists dy,
    f x = Ok (y, dy)
    /\ direction = vec_scale dy (-1)
    /\ norm = vec_norm direction
    /\ iter' = (iter + 1)%Z /\ step' = step /\ x' = x
    /\ finished step norm y iter' max_iter = false.
Proof.
  unfold outer_head. destruct (f x) as [[y0 dy]|e]; [|discriminate].
  destruct (finished _ _ _ _ _) eqn:Hfin; [discriminate|].
  intros [= <- <- <- <- <- <-]. exists dy. by repeat split.
Qed.

(** C10, the claim as it stands fails: when the objective's value is [NaN]
    and its gradient is zero, the termination test is false
    ([0 <= NaN] is), and the inner loop is entered with [norm = 0], where
    [step / norm] is [1 / 0]. *)
Lemma inner_loop_entered_with_zero_norm :
  gradient_descent_minimize nan_valued [0] 2 1 = Inner 1 1 [0] nan [neg_zero] 0
  /\ (0 <? 0) = false
  /\ 1 / 0 = infinity.
Proof. by repeat split. Qed.

(** C10, amended. Whenever the head of the outer loop passes control to the
    inner loop, the termination test has just failed; so if the objective's
    value [y] is not [NaN] and [step] is finite, [norm] is not zero, and it
    is positive unless it is [NaN]. The rounds of the inner loop keep [norm]
    (and [x], [y] and the direction) as they are, so each [step / norm] of
    that loop divides by this same [norm]. *)
Theorem inner_loop_norm_is_not_zero f max_iter iter step x
    iter' step' x' y direction norm :
  outer_head f max_iter iter step x = Inner iter' step' x' y direction norm ->
  finished step norm y iter' max_iter = false
  /\ (is_nan y = false -> is_finite step = true ->
        (norm =? 0) = false
        /\ (is_nan norm = false -> (0 <? norm) = true))
  /\ (forall s i s2 x2 y2 d2 n2,
        inner_round f iter' s x' y direction norm = Inner i s2 x2 y2 d2 n2 ->
        n2 = norm /\ y2 = y /\ d2 = direction /\ x2 = x' /\ i = iter'
        /\ s2 = s * 0.5).
Proof.
  intros Hhead.
  destruct (outer_head_Inner _ _ _ _ _ _ _ _ _ _ _ Hhead)
    as (dy & Hf & Hdir & Hnorm & Hiter & Hstep & Hx & Hfin).
  split; [done|]. split.
  - intros Hy Hs.
    assert (Hnz : (norm =? 0) = false).
    { destruct (norm =? 0) eqn:Hz; [|done].
      unfold finished in Hfin. apply orb_false_iff in Hfin as [Hfin _].
      unfold JS.Math_abs in Hfin.
      rewrite (zero_leb_tolerance (step * norm) y) in Hfin; [done| |done].
      by apply mul_finite_zero. }
    split; [done|]. intros Hnan. rewrite Hnorm in *.
    unfold vec_norm, JS.Math_sqrt in *. by apply sqrt_positive.
  - intros s i s2 x2 y2 d2 n2. unfold inner_round.
    destruct (vec_add _ _) as [new_x|e]; [|discriminate].
    destruct (f new_x) as [[new_y dy']|e]; [|discriminate].
    destruct (accepted _ _ _ _ _ _); [discriminate|].
    intros [= <- <- <- <- <- <-]. by repeat split.
Qed.

Lemma inner_loop_norm_is_not_zero_witness :
  outer_head (total square) 2 0 1 [10] = Inner 1 1 [10] 100 [-20] 20
  /\ (20 =? 0) = false
  /\ (0 <? 20) = true.
Proof.
  split; [reflexivity|].
  destruct (proj1 (proj2 (inner_loop_norm_is_not_zero
                            (total square) 2 0 1 [10] 1%Z 1 [10] 100 [-20] 20
                            eq_refl)) eq_refl eq_refl) as [Hnz Hpos].
  split; [exact Hnz|]. exact (Hpos eq_refl).
Defined.

Lemma run_add f max_iter n m c :
  run f max_iter (n + m) c = run f max_iter m (run f max_iter n c).
Proof. revert c. induction n as [|n IH]; intros c; simpl; auto. Qed.

Lemma run_halted f max_iter n c : halted c = true -> run f max_iter n c = c.
Proof.
  revert c. induction n as [|n IH]; intros c Hc; [done|].
  destruct c; try done; simpl; by apply IH.
Qed.

Lemma inner_round_cases f iter step x y d norm :
  (exists e, inner_round f iter step x y d norm = Raise e)
  \/ (exists x', inner_round f iter step x y d norm = Outer iter (step * 1.1) x')
  \/ inner_round f iter step x y d norm = Inner iter (step * 0.5) x y d norm.
Proof.
  unfold inner_round. destruct (vec_add _ _) as [new_x|e]; [|eauto].
  destruct (f new_x) as [[new_y dy]|e]; [|eauto].
  destruct (accepted _ _ _ _ _ _); eauto.
Qed.

(** Once the inner loop is seen to have been left, there is a first step at
    which it was left: to the head of the outer loop with the same [iter], or
    by an exception. *)
Lemma inner_loop_exit f max_iter k iter step x y d norm :
  in_inner_loop (run f max_iter k (Inner iter step x y d norm)) = false ->
  exists j, (1 <= j <= k)%nat
    /\ ((exists step' x',
           run f max_iter j (Inner iter step x y d norm) = Outer iter step' x')
        \/ (exists e, run f max_iter j (Inner iter step x y d norm) = Raise e)).
Proof.
  revert step. induction k as [|k IH]; intros step Hk; [done|].
  simpl in Hk. simpl.
  destruct (inner_round_cases f iter step x y d norm) as [[e He]|[[x' Hx']|Hin]].
  - exists 1%nat. split; [lia|]. right. exists e. simpl. done.
  - exists 1%nat. split; [lia|]. left. exists (step * 1.1), x'. simpl. done.
  - rewrite Hin in Hk. destruct (IH _ Hk) as (j & Hj & Hrun).
    exists (S j). split; [lia|]. simpl. by rewrite Hin.
Qed.

(** The outer loop comes to an end within [max_iter - iter] of its rounds,
    if every inner loop reached is left within [B] steps. *)
Lemma outer_rounds_bounded f max_iter guess B :
  (forall n iter step x y d norm,
     run f max_iter n (Outer 0 1 guess) = Inner iter step x y d norm ->
     exists k, (k <= B)%nat
       /\ in_inner_loop (run f max_iter k (Inner iter step x y d norm)) = false) ->
  forall m n iter step x,
    run f max_iter n (Outer 0 1 guess) = Outer iter step x ->
    (max_iter - iter <= Z.of_nat m)%Z ->
    exists k, (k <= (B + 1) * m + 1)%nat
      /\ halted (run f max_iter (n + k) (Outer 0 1 guess)) = true.
Proof.
  intros Hexit. induction m as [|m IH]; intros n iter step x Hn Hm.
  - exists 1%nat. split; [lia|]. rewrite run_add, Hn. simpl. unfold outer_head.
    destruct (f x) as [[y dy]|e]; [|done].
    unfold finished. replace (max_iter <=? iter + 1)%Z with true by lia.
    by rewrite orb_true_r.
  - destruct (halted (gd_step f max_iter (Outer iter step x))) eqn:Hh.
    { exists 1%nat. split; [lia|]. by rewrite run_add, Hn. }
    assert (Hn1 : run f max_iter (n + 1) (Outer 0 1 guess)
                  = outer_head f max_iter iter step x).
    { by rewrite run_add, Hn. }
    simpl in Hh. destruct (outer_head f max_iter iter step x)
      as [ | iter' step' x' y d norm | | ] eqn:Hhead; try done.
    { unfold outer_head in Hhead. destruct (f x) as [[y dy]|e]; [|done].
      by destruct (finished _ _ _ _ _). }
    destruct (outer_head_Inner _ _ _ _ _ _ _ _ _ _ _ Hhead)
      as (dy & _ & _ & _ & -> & _ & _ & Hfin).
    destruct (Hexit _ _ _ _ _ _ _ Hn1) as (k0 & Hk0 & Hout).
    destruct (inner_loop_exit _ _ _ _ _ _ _ _ _ Hout)
      as (j & Hj & [(s2 & x2 & Hrun)|(e & Hrun)]).
    + destruct (IH (n + 1 + j)%nat (iter + 1)%Z s2 x2) as (k & Hk & Hhalt).
      * by rewrite run_add, Hn1.
      * lia.
      * exists (1 + j + k)%nat. split; [nia|].
        by replace (n + (1 + j + k))%nat with (n + 1 + j + k)%nat by lia.
    + exists (1 + j)%nat. split; [nia|].
      replace (n + (1 + j))%nat with (n + 1 + j)%nat by lia.
      by rewrite run_add, Hn1, Hrun.
Qed.

Lemma total_only_length_errors g max_iter n c :
  only_length_errors c -> only_length_errors (run (total g) max_iter n c).
Proof.
  revert c. induction n as [|n IH]; intros c Hc; [done|].
  simpl. apply IH. destruct c as [iter step x|iter step x y d norm|x|e]; simpl; try done.
  - unfold outer_head, total. destruct (g x) as [y dy].
    by destruct (finished _ _ _ _ _).
  - unfold inner_round, total, vec_add.
    destruct (negb _); [done|]. destruct (g _) as [new_y dy].
    by destruct (accepted _ _ _ _ _ _).
Qed.

Lemma run_iter_in_range f max_iter n c :
  iter_in_range max_iter c -> iter_in_range max_iter (run f max_iter n c).
Proof.
  revert c. induction n as [|n IH]; intros c Hc; [done|].
  simpl. apply IH. destruct c as [iter step x|iter step x y d norm|x|e]; simpl; try done.
  - unfold outer_head. destruct (f x) as [[y dy]|e]; [|done].
    unfold finished. destruct (_ <=? _ * _); simpl; [done|].
    destruct (max_iter <=? iter + 1)%Z eqn:Hmax; simpl; [done|].
    simpl in Hc. lia.
  - destruct (inner_round_cases f iter step x y d norm) as [ [e ->] | [ [x' ->] | -> ] ];
      simpl; try done. simpl in Hc. lia.
Qed.

(** With a gradient that is not a number the inner loop is never left: the
    trial point is [NaN], the Armijo test compares with [NaN], and [x] never
    equals the trial point. *)
Lemma nan_gradient_round step :
  gd_step nan_gradient 2 (Inner 1 step [0] 0 [nan] nan)
  = Inner 1 (step * 0.5) [0] 0 [nan] nan.
Proof.
  unfold gd_step, inner_round, accepted, vec_scale. simpl map.
  rewrite div_nan, !mul_nan. reflexivity.
Qed.

Lemma nan_gradient_stays_inside n step :
  in_inner_loop (run nan_gradient 2 n (Inner 1 step [0] 0 [nan] nan)) = true.
Proof.
  revert step. induction n as [|n IH]; intros step; [done|].
  change (run nan_gradient 2 (S n) (Inner 1 step [0] 0 [nan] nan))
    with (run nan_gradient 2 n (gd_step nan_gradient 2 (Inner 1 step [0] 0 [nan] nan))).
  rewrite nan_gradient_round. apply IH.
Qed.


Lemma square_inner_loops_exit n iter step x y d norm :
  gradient_descent_minimize (total square) [10] 2 n = Inner iter step x y d norm ->
  exists k, (k <= 1)%nat
    /\ in_inner_loop (run (total square) 2 k (Inner iter step x y d norm)) = false.
Proof.
  unfold gradient_descent_minimize.
  destruct n as [|[|[|n]]].
  - discriminate.
  - intros H. vm_compute in H. injection H as <- <- <- <- <- <-.
    exists 1%nat. split; [lia|]. vm_compute. reflexivity.
  - intros H. vm_compute in H. discriminate.
  - change (S (S (S n))) with (3 + n)%nat. rewrite run_add.
    replace (run (total square) 2 3 (Outer 0 1 [10])) with (Return [9])
      by (vm_compute; reflexivity).
    rewrite run_halted by done. discriminate.
Qed.



(** X2. Minimizing [x => [x[0] * x[0], [2 * x[0]]]] from [[10]] with
    [max_iter = 1000], the minimizer returns a point [[x0]] with
    [|x0| < 1e-6]. *)
Theorem minimizer_converges_on_square :
  exists fuel x0,
    gradient_descent_minimize (total square) [10] 1000 fuel = Return [x0]
    /\ (abs x0 <? 1e-6) = true.
Proof. exists 1500%nat. eexists. split; vm_compute; reflexivity. Qed.

Lemma gd_step_traced f max_iter n c : traced f n c -> traced f n (gd_step f max_iter c).
Proof.
  destruct c as [iter step x|iter step x y d norm|x|e]; simpl; try done.
  - intros Hx. unfold outer_head. destruct (f x) as [[y dy]|e] eqn:Hf.
    + destruct (finished _ _ _ _ _); simpl; [done|]. split; [done|]. by exists dy.
    + simpl. left. by exists x.
  - intros (Hx & dy & Hf & ->). unfold inner_round.
    destruct (vec_add x _) as [new_x|e] eqn:Hadd.
    + apply vec_add_length in Hadd.
      destruct (f new_x) as [[new_y dy']|e] eqn:Hf'.
      * destruct (accepted _ _ _ _ _ _); simpl; [congruence|].
        split; [done|]. by exists dy.
      * simpl. left. exists new_x. split; [congruence|done].
    + simpl. right. unfold vec_add in Hadd.
      destruct (length x =? _)%nat eqn:Hlen; [done|]. injection Hadd as <-.
      split; [done|]. exists x, y, dy. split; [done|]. split; [done|].
      apply Nat.eqb_neq in Hlen. unfold vec_scale in Hlen.
      rewrite !length_map in Hlen. congruence.
Qed.

Lemma run_traced f max_iter n k c : traced f n c -> traced f n (run f max_iter k c).
Proof.
  revert c. induction k as [|k IH]; intros c Hc; [done|].
  simpl. by apply IH, gd_step_traced.
Qed.

(** X14. A point returned by [gradient_descent_minimize] has as many
    coordinates as the initial guess. *)
Theorem minimizer_returns_a_point_as_long_as_the_guess f guess max_iter fuel x :
  gradient_descent_minimize f guess max_iter fuel = Return x ->
  length x = length guess.
Proof.
  intros Hrun.
  pose proof (run_traced f max_iter (length guess) fuel (Outer 0 1 guess) eq_refl) as H.
  unfold gradient_descent_minimize in Hrun. by rewrite Hrun in H.
Qed.

Lemma minimizer_returns_a_point_as_long_as_the_guess_witness :
  length [9] = length [10].
Proof.
  exact (minimizer_returns_a_point_as_long_as_the_guess (total square) [10] 2 3 [9]
           eq_refl).
Defined.

(** X15. An exception leaves [gradient_descent_minimize] only in two ways:
    it is one that [f] threw at a point with as many coordinates as the guess,
    or it is "unequal vector sizes", thrown by [vec_add] because [f] returned,
    at such a point, a gradient with another number of coordinates. *)
Theorem minimizer_raises_what_f_throws_or_a_length_error f guess max_iter fuel e :
  gradient_descent_minimize f guess max_iter fuel = Raise e ->
  (exists x, length x = length guess /\ f x = Throw e)
  \/ (e = unequal_vector_sizes
      /\ exists x y dy,
           length x = length guess /\ f x = Ok (y, dy) /\ length dy <> length x).
Proof.
  intros Hrun.
  pose proof (run_traced f max_iter (length guess) fuel (Outer 0 1 guess) eq_refl) as H.
  unfold gradient_descent_minimize in Hrun. by rewrite Hrun in H.
Qed.

Lemma minimizer_raises_what_f_throws_or_a_length_error_witness :
  (exists x, length x = length [10] /\ long_gradient x = Throw unequal_vector_sizes)
  \/ (unequal_vector_sizes = unequal_vector_sizes
      /\ exists x y dy,
           length x = length [10] /\ long_gradient x = Ok (y, dy)
           /\ length dy <> length x).
Proof.
  exact (minimizer_raises_what_f_throws_or_a_length_error long_gradient [10] 2 2
           unequal_vector_sizes eq_refl).
Defined.

Lemma zero_step_trial_point x d z :
  existsb is_nan x = false ->
  forallb is_finite d = true ->
  length d = length x ->
  (z =? 0) = true ->
  exists new_x, vec_add x (vec_scale d z) = Ok new_x /\ vec_equal x new_x = true.
Proof.
  intros Hx Hd Hlen Hz. eexists. split.
  - apply vec_add_same_length. unfold vec_scale. by rewrite length_map.
  - apply vec_equal_true. split.
    { rewrite length_zip_with. unfold vec_scale. rewrite length_map. lia. }
    intros i a b Ha Hb. rewrite lookup_zip_with, Ha in Hb. simpl in Hb.
    unfold vec_scale in Hb. rewrite list_lookup_fmap in Hb.
    destruct (d !! i) as [di|] eqn:Hdi; [|done]. simpl in Hb. injection Hb as <-.
    apply add_zero_eqb.
    + destruct (is_nan a) eqn:Hnan; [|done].
      assert (existsb is_nan x = true); [|congruence].
      apply existsb_exists. exists a. split; [|done].
      by apply list_elem_of_In, list_elem_of_lookup_2 with i.
    + rewrite forallb_forall in Hd.
      specialize (Hd di ltac:(by apply list_elem_of_In, list_elem_of_lookup_2 with i)).
      rewrite mul_comm.
      destruct (mul_finite_zero di z Hd Hz) as [s Hs].
      rewrite FloatAxioms.eqb_spec, Hs. by destruct s.
Qed.

Lemma zero_step_round f iter step x y d norm :
  existsb is_nan x = false ->
  forallb is_finite d = true ->
  length d = length x ->
  is_nan norm = false -> (norm =? 0) = false ->
  (step =? 0) = true ->
  in_inner_loop (inner_round f iter step x y d norm) = false.
Proof.
  intros Hx Hd Hlen Hn Hn0 Hz. unfold inner_round.
  destruct (zero_step_trial_point x d (step / norm) Hx Hd Hlen
              (div_zero_number _ _ Hz Hn Hn0)) as (new_x & -> & Heq).
  destruct (f new_x) as [[new_y dy]|e]; [|done].
  unfold accepted. by rewrite Heq, orb_true_r.
Qed.

Lemma backtracking_ends f max_iter iter x y d norm :
  existsb is_nan x = false ->
  forallb is_finite d = true ->
  length d = length x ->
  is_nan norm = false -> (norm =? 0) = false ->
  forall n step,
    is_finite step = true ->
    (halving_measure (Prim2SF step) < n)%nat ->
    exists k, (0 < k <= n)%nat /\
      in_inner_loop (run f max_iter k (Inner iter step x y d norm)) = false.
Proof.
  intros Hx Hd Hlen Hn Hn0. induction n as [|n IH]; intros step Hs Hm; [lia|].
  destruct (half_is_smaller step Hs) as [[s Hz]|[Hfin Hlt]].
  - exists 1%nat. split; [lia|]. simpl. apply zero_step_round; try done.
    rewrite FloatAxioms.eqb_spec, Hz. by destruct s.
  - destruct (inner_round_cases f iter step x y d norm)
      as [ [e He] | [ [x' Hx'] | Hin ] ].
    + exists 1%nat. split; [lia|]. simpl. by rewrite He.
    + exists 1%nat. split; [lia|]. simpl. by rewrite Hx'.
    + destruct (IH (step * 0.5) Hfin ltac:(lia)) as (k & Hk & Hout).
      exists (S k). split; [lia|]. simpl. by rewrite Hin.
Qed.

(** X16. The backtracking loop ends when its data is finite: if [step] and
    the coordinates of the direction are finite, [x] holds no [NaN], the
    direction is as long as [x], and [norm] is neither [NaN] nor zero, then
    after finitely many halvings of [step] the loop is left, by [break] or by
    an exception of [f]. At the latest [step] has become zero, where the trial
    point equals [x]. *)
Theorem backtracking_ends_on_finite_data f max_iter iter step x y d norm :
  is_finite step = true ->
  existsb is_nan x = false ->
  forallb is_finite d = true ->
  length d = length x ->
  is_nan norm = false ->
  (norm =? 0) = false ->
  exists k, in_inner_loop (run f max_iter k (Inner iter step x y d norm)) = false.
Proof.
  intros Hs Hx Hd Hlen Hn Hn0.
  destruct (backtracking_ends f max_iter iter x y d norm Hx Hd Hlen Hn Hn0
              (S (halving_measure (Prim2SF step))) step Hs ltac:(lia))
    as (k & _ & Hk).
  by exists k.
Qed.

Lemma backtracking_ends_on_finite_data_witness :
  exists k, in_inner_loop (run (total square) 2 k (Inner 1 1 [10] 100 [-20] 20)) = false.
Proof.
  exact (backtracking_ends_on_finite_data (total square) 2 1 1 [10] 100 [-20] 20
           eq_refl eq_refl eq_refl eq_refl eq_refl eq_refl).
Defined.

Lemma finite_data_inner_loop_ends f max_iter iter step x y d norm :
  finite_data (Inner iter step x y d norm) = true ->
  exists k, in_inner_loop (run f max_iter k (Inner iter step x y d norm)) = false.
Proof.
  simpl. rewrite !andb_true_iff, !negb_true_iff, Nat.eqb_eq.
  intros [[[[[Hs Hx] Hd] Hlen] Hn] Hn0].
  destruct (backtracking_ends f max_iter iter x y d norm Hx Hd Hlen Hn Hn0
              (S (halving_measure (Prim2SF step))) step Hs ltac:(lia))
    as (k & _ & Hk).
  by exists k.
Qed.

(** The outer loop comes to an end if every inner loop reached is left. *)
Lemma outer_rounds_end f max_iter guess :
  (forall n iter step x y d norm,
     run f max_iter n (Outer 0 1 guess) = Inner iter step x y d norm ->
     exists k, in_inner_loop (run f max_iter k (Inner iter step x y d norm)) = false) ->
  forall m n iter step x,
    run f max_iter n (Outer 0 1 guess) = Outer iter step x ->
    (max_iter - iter <= Z.of_nat m)%Z ->
    exists k, halted (run f max_iter (n + k) (Outer 0 1 guess)) = true.
Proof.
  intros Hexit. induction m as [|m IH]; intros n iter step x Hn Hm.
  - exists 1%nat. rewrite run_add, Hn. simpl. unfold outer_head.
    destruct (f x) as [[y dy]|e]; [|done].
    unfold finished. replace (max_iter <=? iter + 1)%Z with true by lia.
    by rewrite orb_true_r.
  - destruct (halted (gd_step f max_iter (Outer iter step x))) eqn:Hh.
    { exists 1%nat. by rewrite run_add, Hn. }
    assert (Hn1 : run f max_iter (n + 1) (Outer 0 1 guess)
                  = outer_head f max_iter iter step x).
    { by rewrite run_add, Hn. }
    simpl in Hh. destruct (outer_head f max_iter iter step x)
      as [ | iter' step' x' y d norm | | ] eqn:Hhead; try done.
    { unfold outer_head in Hhead. destruct (f x) as [[y dy]|e]; [|done].
      by destruct (finished _ _ _ _ _). }
    destruct (outer_head_Inner _ _ _ _ _ _ _ _ _ _ _ Hhead)
      as (dy & _ & _ & _ & -> & _ & _ & Hfin).
    destruct (Hexit _ _ _ _ _ _ _ Hn1) as (k0 & Hout).
    destruct (inner_loop_exit _ _ _ _ _ _ _ _ _ Hout)
      as (j & Hj & [(s2 & x2 & Hrun)|(e & Hrun)]).
    + destruct (IH (n + 1 + j)%nat (iter + 1)%Z s2 x2) as (k & Hhalt).
      * by rewrite run_add, Hn1.
      * lia.
      * exists (1 + j + k)%nat.
        by replace (n + (1 + j + k))%nat with (n + 1 + j + k)%nat by lia.
    + exists (1 + j)%nat.
      replace (n + (1 + j))%nat with (n + 1 + j)%nat by lia.
      by rewrite run_add, Hn1, Hrun.
Qed.


Lemma square_data_stays_finite n :
  finite_data (gradient_descent_minimize (total square) [10] 2 n) = true.
Proof.
  unfold gradient_descent_minimize.
  destruct n as [|[|[|n]]]; try (vm_compute; reflexivity).
  change (S (S (S n))) with (3 + n)%nat. rewrite run_add.
  replace (run (total square) 2 3 (Outer 0 1 [10])) with (Return [9])
    by (vm_compute; reflexivity).
  by rewrite run_halted.
Qed.


(** The Armijo test *)
Lemma armijo_decrease step norm y new_y :
  SFpositive_or_zero (Prim2SF step) ->
  (0.1 * step * vec_norm norm <? y - new_y) = true ->
  (new_y <? y) = true.
Proof.
  intros Hstep. rewrite !FloatAxioms.ltb_spec, sub_spec, !mul_spec.
  intros Hlt.
  assert (H01 : exists m e, Prim2SF 0.1 = S754_finite false m e)
    by (vm_compute; eauto).
  destruct H01 as (m & e & H01). rewrite H01 in Hlt.
  assert (Hs : SFnonneg (SF64mul (S754_finite false m e) (Prim2SF step))).
  { destruct Hstep as [Hnn Hnz]. by apply SFmul_nonneg. }
  assert (Hn : Prim2SF (vec_norm norm) = S754_nan \/ SFnonneg (Prim2SF (vec_norm norm))).
  { unfold vec_norm, JS.Math_sqrt. rewrite sqrt_spec. apply SFsqrt_nonneg. }
  assert (Ht : SFnonneg (SF64mul (SF64mul (S754_finite false m e) (Prim2SF step))
                           (Prim2SF (vec_norm norm)))).
  { destruct Hn as [Hn|Hn].
    - rewrite Hn in Hlt. unfold SF64mul in Hlt.
      by destruct (SFmul prec emax (S754_finite false m e) (Prim2SF step)).
    - destruct (SFmul_nonneg_or_nan _ _ Hs Hn) as [H|H]; [|done].
      unfold SF64mul in *. by rewrite H in Hlt. }
  pose proof (SFltb_nonneg_positive _ _ Ht Hlt) as Hpos.
  pose proof (SFsub_positive (Prim2SF y) (Prim2SF new_y)
                (Prim2SF_valid y) (Prim2SF_valid new_y)) as Hsub.
  unfold SF64sub in Hpos. unfold SFltb.
  destruct (SFsub prec emax (Prim2SF y) (Prim2SF new_y)) as [s|[|]| |[|] ms es];
    try done; by rewrite Hsub.
Qed.

Lemma gd_step_descending f max_iter c :
  descending c -> descending (gd_step f max_iter c).
Proof.
  destruct c as [iter step x|iter step x y d norm|x|e]; simpl; try done.
  - intros Hs. unfold outer_head. destruct (f x) as [[y dy]|e]; [|done].
    by destruct (finished _ _ _ _ _).
  - intros [Hs ->]. unfold inner_round.
    destruct (vec_add x _) as [new_x|e]; [|done].
    destruct (f new_x) as [[new_y dy']|e]; [|done].
    destruct (accepted _ _ _ _ _ _); simpl.
    + rewrite mul_spec.
      assert (H : exists m e, Prim2SF 1.1 = S754_finite false m e)
        by (vm_compute; eauto).
      destruct H as (m & e & ->). by apply SFmul_positive_or_zero.
    + split; [|done]. rewrite mul_spec.
      change (Prim2SF 0.5) with (S754_finite false 4503599627370496 (-53)).
      by apply SFmul_positive_or_zero.
Qed.

Lemma run_descending f max_iter k c :
  descending c -> descending (run f max_iter k c).
Proof.
  revert c. induction k as [|k IH]; intros c Hc; [done|].
  simpl. by apply IH, gd_step_descending.
Qed.

(** X21. Descent: when a backtracking loop reached by
    [gradient_descent_minimize] accepts a trial point [x'] in place of [x],
    where [f(x)] has the value [y], then [f(x')] has a value strictly smaller
    than [y], or [x'] equals [x] coordinate by coordinate. *)
Theorem accepted_point_has_a_smaller_value f guess max_iter n
    iter step x y d norm iter' step' x' :
  gradient_descent_minimize f guess max_iter n = Inner iter step x y d norm ->
  inner_round f iter step x y d norm = Outer iter' step' x' ->
  (exists dy, f x = Ok (y, dy))
  /\ exists new_y dy',
       f x' = Ok (new_y, dy')
       /\ ((new_y <? y) = true \/ vec_equal x x' = true).
Proof.
  intros Hrun Hround. unfold gradient_descent_minimize in Hrun.
  pose proof (run_traced f max_iter (length guess) n (Outer 0 1 guess) eq_refl)
    as Htr.
  pose proof (run_descending f max_iter n (Outer 0 1 guess)) as Hde.
  rewrite Hrun in Htr, Hde. simpl in Htr.
  destruct Htr as (_ & dy & Hfx & _). split; [by exists dy|].
  destruct Hde as [Hs ->]; [by vm_compute|].
  revert Hround. unfold inner_round.
  destruct (vec_add x _) as [new_x|e]; [|done].
  destruct (f new_x) as [[new_y dy']|e] eqn:Hf; [|done].
  destruct (accepted _ _ _ _ _ _) eqn:Hacc; [|done].
  intros [= _ _ <-]. exists new_y, dy'. split; [done|].
  unfold accepted in Hacc. apply orb_true_iff in Hacc as [Hacc|Hacc]; [|by right].
  left. by eapply armijo_decrease.
Qed.

Lemma accepted_point_has_a_smaller_value_witness :
  (exists dy, total square [10] = Ok (100, dy))
  /\ exists new_y dy',
       total square [9] = Ok (new_y, dy')
       /\ ((new_y <? 100) = true \/ vec_equal [10] [9] = true).
Proof.
  exact (accepted_point_has_a_smaller_value (total square) [10] 2 1%nat
           1%Z 1 [10] 100 [-20] 20 1%Z (1 * 1.1) [9] eq_refl eq_refl).
Defined.
End DescentFacts.

(** * The path-length objective *)

Module ObjectiveFacts.
Import AAD Tape Adjoint Objective PathLength.
Import Binary64 Binary64Facts TapeFacts OpsFacts AdjointFacts.
Local Open Scope float_scope.
Local Open Scope aad_scope.

Lemma segment_base_positive d :
  is_nan d = false -> SFpositive_or_zero (Prim2SF (0.0001 + d * d)).
Proof.
  intros Hd. rewrite add_spec. apply SFadd_nonneg.
  - vm_compute. by split.
  - by apply square_positive_or_zero.
Qed.

Lemma segment_base_not_zero d : is_nan d = false -> (0.0001 + d * d =? 0) = false.
Proof.
  intros Hd. rewrite FloatAxioms.eqb_spec, add_spec.
  pose proof (Prim2SF_valid 0.0001) as Hv1. pose proof (Prim2SF_valid (d * d)) as Hv2.
  pose proof (square_positive_or_zero d Hd) as Hsq.
  assert (H1 : exists m e, Prim2SF 0.0001 = S754_finite false m e)
    by (vm_compute; eauto).
  destruct H1 as (m & e & H1). rewrite H1 in *.
  destruct (SFadd_finite_positive m e _ Hv1 Hv2 Hsq) as (z & Hz & Hpos).
  unfold SF64add. rewrite Hz. change (Prim2SF 0) with (S754_zero false).
  by destruct z as [s|[|]| |[|] mz ez].
Qed.

Lemma aad_add_eq st a b na nb :
  heap st !! a = Some na ->
  heap st !! b = Some nb ->
  aad_add a b st =
    (Ok (length (heap st)), appended st (value na + value nb) [a; b] [1; 1]).
Proof.
  intros Ha Hb. unfold aad_add, bind, get_value, new_object, push, ret, appended.
  cbv beta. by rewrite Ha, Hb.
Qed.

Lemma aad_sub_eq st a b na nb :
  heap st !! a = Some na ->
  heap st !! b = Some nb ->
  aad_sub a b st =
    (Ok (length (heap st)), appended st (value na - value nb) [a; b] [1; -1]).
Proof.
  intros Ha Hb. unfold aad_sub, bind, get_value, new_object, push, ret, appended.
  cbv beta. by rewrite Ha, Hb.
Qed.

Lemma aad_const_eq st c :
  aad_const c st = (Ok (length (heap st)), appended st c [] []).
Proof. reflexivity. Qed.

Lemma later_refl st : wf_tape st -> later st st.
Proof. intros H. by split. Qed.

Lemma later_trans st1 st2 st3 : later st1 st2 -> later st2 st3 -> later st1 st3.
Proof.
  intros (_ & Hs1 & Hh1) (Hwf & Hs2 & Hh2). split; [done|]. split; by etrans.
Qed.

Lemma later_appended st v ps dds :
  wf_tape st ->
  length ps = length dds ->
  Forall (fun p => p ∈ aad_stack st) ps ->
  later st (appended st v ps dds)
  /\ length (heap st) ∈ aad_stack (appended st v ps dds)
  /\ heap (appended st v ps dds) !! length (heap st) = Some (mkNode v ps dds None).
Proof.
  intros Hwf Hlen Hps. split; [|split].
  - split; [by apply wf_appended|]. split; by apply prefix_app_r.
  - simpl. apply elem_of_app. right. by left.
  - apply lookup_appended_new.
Qed.

Lemma later_on_tape st st' r : later st st' -> r ∈ aad_stack st -> r ∈ aad_stack st'.
Proof. intros (_ & [new ->] & _) Hr. apply elem_of_app. by left. Qed.

Lemma later_lookup st st' r n :
  later st st' -> heap st !! r = Some n -> heap st' !! r = Some n.
Proof. intros (_ & _ & Hh) Hr. by eapply prefix_lookup_Some. Qed.

Lemma later_used st st' r : later st st' -> used st r -> used st' r.
Proof.
  intros Hl (c & nd & Hc & Hnd & Hr). exists c, nd.
  split; [by eapply later_on_tape|]. split; [by eapply later_lookup|done].
Qed.

Lemma wf_tape_lookup st r : wf_tape st -> r ∈ aad_stack st -> is_Some (heap st !! r).
Proof. intros (_ & Hh & _) Hr. apply lookup_lt_is_Some. by apply Hh. Qed.

Lemma bind_ok {A B} (m : M A) (k : A -> M B) st a st' :
  m st = (Ok a, st') -> bind m k st = k a st'.
Proof. intros H. unfold bind. by rewrite H. Qed.

Lemma bind_throw {A B} (m : M A) (k : A -> M B) st e st' :
  m st = (Throw e, st') -> bind m k st = (Throw e, st').
Proof. intros H. unfold bind. by rewrite H. Qed.

Lemma later_heap_length st st' : later st st' -> (length (heap st) <= length (heap st'))%nat.
Proof. intros (_ & _ & Hh). by apply prefix_length. Qed.

Lemma later_holds nodes vals st st' :
  later st st' -> holds nodes vals st -> holds nodes vals st'.
Proof.
  intros Hl Hn j r Hj. destruct (Hn j r Hj) as (v & Hv & Hr & Hlk).
  exists v. split; [done|]. split; [by eapply later_on_tape|by eapply later_lookup].
Qed.

Lemma pushed_over_refl roots st : wf_tape st -> pushed_over roots st st.
Proof. intros Hwf. split; [by apply later_refl|]. by intros c nd Hc Hnc. Qed.

Lemma pushed_over_trans R R' st1 st2 st3 :
  pushed_over R st1 st2 ->
  pushed_over R' st2 st3 ->
  (forall p, p ∈ R' -> p ∈ R \/ (length (heap st1) <= p)%nat) ->
  pushed_over R st1 st3.
Proof.
  intros [Hl1 Hp1] [Hl2 Hp2] HR. split; [by eapply later_trans|].
  intros c nd Hc Hnc Hnd.
  destruct (decide (c ∈ aad_stack st2)) as [Hc2|Hc2].
  - apply (Hp1 c nd Hc2 Hnc).
    destruct (wf_tape_lookup st2 c (proj1 Hl1) Hc2) as [nd2 Hnd2].
    pose proof (later_lookup _ _ _ _ Hl2 Hnd2). congruence.
  - eapply Forall_impl; [exact (Hp2 c nd Hc Hc2 Hnd)|]. simpl.
    intros p [Hp|Hp]; [by apply HR|]. right.
    pose proof (later_heap_length _ _ Hl1). lia.
Qed.

Lemma pushed_over_appended R st0 st v ps dds :
  pushed_over R st0 st ->
  length ps = length dds ->
  Forall (fun p => p ∈ aad_stack st) ps ->
  Forall (fun p => p ∈ R \/ (length (heap st0) <= p)%nat) ps ->
  pushed_over R st0 (appended st v ps dds)
  /\ length (heap st) ∈ aad_stack (appended st v ps dds)
  /\ heap (appended st v ps dds) !! length (heap st) = Some (mkNode v ps dds None)
  /\ last (aad_stack (appended st v ps dds)) = Some (length (heap st))
  /\ (length (heap st0) <= length (heap st))%nat.
Proof.
  intros [Hl Hp] Hlen Hps HR.
  destruct (later_appended st v ps dds (proj1 Hl) Hlen Hps) as (Hl' & Hin & Hlk).
  split; [|split; [done|split; [done|split]]].
  - split; [by eapply later_trans|]. intros c nd Hc Hnc Hnd.
    simpl in Hc. apply elem_of_app in Hc as [Hc|Hc].
    + apply (Hp c nd Hc Hnc).
      destruct (wf_tape_lookup st c (proj1 Hl) Hc) as [nd2 Hnd2].
      pose proof (later_lookup _ _ _ _ Hl' Hnd2). congruence.
    + apply list_elem_of_singleton in Hc. subst c.
      rewrite Hlk in Hnd. by injection Hnd as <-.
  - simpl. by rewrite last_snoc.
  - by apply later_heap_length.
Qed.

Lemma aad_pow_three ln ex st a b na nb :
  heap st !! a = Some na ->
  heap st !! b = Some nb ->
  (value na =? 0) = false ->
  JS.isNaN (JS.Math_log ln (value na)) = false ->
  JS.isNaN (JS.Math_exp ex (value nb * JS.Math_log ln (value na))) = false ->
  let lg := JS.Math_log ln (value na) in
  let pr := value nb * lg in
  let st1 := appended st lg [a] [1 / value na] in
  let st2 := appended st1 pr [b; length (heap st)] [lg; value nb] in
  aad_pow ln ex a b st
  = (Ok (length (heap st2)),
     appended st2 (JS.Math_exp ex pr) [length (heap st1)] [JS.Math_exp ex pr]).
Proof.
  intros Ha Hb Hz Hlg Hex lg pr st1 st2.
  rewrite (aad_pow_eq ln ex st a b na Ha), Hz.
  unfold bind at 1. rewrite (aad_log_eq ln st a na Ha). fold lg.
  unfold lg at 1. rewrite Hlg. fold st1.
  unfold bind at 1.
  rewrite (aad_mul_eq st1 b (length (heap st)) nb (mkNode lg [a] [1 / value na] None)
             (lookup_appended_old _ _ _ _ _ _ Hb) (lookup_appended_new _ _ _ _)).
  simpl value. fold pr. fold st2.
  rewrite (aad_exp_eq ex st2 (length (heap st1))
             (mkNode pr [b; length (heap st)] [lg; value nb] None)
             (lookup_appended_new _ _ _ _)).
  simpl value. unfold pr at 1, lg at 1. by rewrite Hex.
Qed.

Lemma holds_finite nodes vals st j r v :
  holds nodes vals st ->
  forallb is_finite vals = true ->
  nodes !! j = Some r ->
  vals !! j = Some v ->
  is_finite v = true.
Proof.
  intros _ Hfin _ Hv. rewrite forallb_forall in Hfin. apply Hfin.
  by apply list_elem_of_In, list_elem_of_lookup_2 with j.
Qed.

Section Segment.
Variables ln ex : float -> float.
Hypothesis Hln : log_defined ln.
Hypothesis Hex : exp_defined ex.

Lemma segment_pushes hs heights i total st ntot :
  wf_tape st ->
  holds hs heights st ->
  forallb is_finite heights = true ->
  total ∈ aad_stack st ->
  heap st !! total = Some ntot ->
  (99 <= length hs)%nat ->
  (i < 100)%nat ->
  exists total' st' ntot',
    segment ln ex hs i total st = (Ok total', st')
    /\ pushed_over (segment_roots hs i total) st st'
    /\ last (aad_stack st') = Some total'
    /\ (length (heap st) <= total')%nat
    /\ heap st' !! total' = Some ntot'
    /\ value ntot'
       = value ntot
         + segment_length ln ex (left_height heights i) (right_height heights i)
    /\ forall r, (i < 99)%nat -> hs !! i = Some r -> used st' r.
Proof.
  intros Hwf Hhs Hfin Htot Hntot Hlen Hi. unfold segment.
  set (R := segment_roots hs i total).
  assert (HtotR : total ∈ R) by (by left).
  (* the left height *)
  assert (Hleft : exists n1 st1,
            (if (i =? 0)%nat then node <- aad_const 0 ;; ret (Some node)
             else ret (hs !! (i - 1)%nat)) st = (Ok (Some n1), st1)
            /\ pushed_over R st st1 /\ n1 ∈ aad_stack st1
            /\ heap st1 !! n1 = Some (mkNode (left_height heights i) [] [] None)
            /\ is_finite (left_height heights i) = true
            /\ (n1 ∈ R \/ (length (heap st) <= n1)%nat)).
  { unfold left_height. destruct (i =? 0)%nat eqn:Hi0.
    - destruct (pushed_over_appended R st st 0 [] [] (pushed_over_refl R st Hwf)
                  eq_refl ltac:(constructor) ltac:(constructor))
        as (Hp1 & Hin1 & Hlk1 & _).
      exists (length (heap st)), (appended st 0 [] []).
      split; [done|]. split; [done|]. split; [done|]. split; [done|].
      split; [done|]. by right.
    - pose proof (proj1 (Nat.eqb_neq _ _) Hi0) as Hne0.
      destruct (hs !! (i - 1)%nat) as [r|] eqn:Hr.
      2:{ apply lookup_ge_None in Hr. lia. }
      destruct (Hhs _ _ Hr) as (v & Hv & Hin & Hn).
      exists r, st. split; [done|]. split; [by apply pushed_over_refl|].
      split; [done|]. rewrite Hv. simpl. split; [done|].
      split; [by eapply holds_finite|]. left. unfold R, segment_roots.
      rewrite Hi0, Hr. right. apply elem_of_app. left. by left. }
  destruct Hleft as (n1 & st1 & Hrun1 & Hp1 & Hin1 & Hlk1 & Hfin1 & HR1).
  rewrite (bind_ok _ _ _ _ _ Hrun1).
  (* the right height *)
  assert (Hright : exists n2 st2,
            (if (i =? 99)%nat then node <- aad_const 1 ;; ret (Some node)
             else ret (hs !! i)) st1 = (Ok (Some n2), st2)
            /\ pushed_over R st st2 /\ n2 ∈ aad_stack st2
            /\ heap st2 !! n2 = Some (mkNode (right_height heights i) [] [] None)
            /\ is_finite (right_height heights i) = true
            /\ (n2 ∈ R \/ (length (heap st) <= n2)%nat)
            /\ ((i < 99)%nat -> hs !! i = Some n2)).
  { unfold right_height. destruct (i =? 99)%nat eqn:Hi99.
    - apply Nat.eqb_eq in Hi99.
      destruct (pushed_over_appended R st st1 1 [] [] Hp1
                  eq_refl ltac:(constructor) ltac:(constructor))
        as (Hp2 & Hin2 & Hlk2 & _ & Hle2).
      exists (length (heap st1)), (appended st1 1 [] []).
      split; [done|]. split; [done|]. split; [done|]. split; [done|].
      split; [done|]. split; [by right|]. lia.
    - pose proof (proj1 (Nat.eqb_neq _ _) Hi99) as Hne99.
      destruct (hs !! i) as [r|] eqn:Hr.
      2:{ apply lookup_ge_None in Hr. lia. }
      destruct (later_holds hs heights st st1 (proj1 Hp1) Hhs _ _ Hr)
        as (v & Hv & Hin & Hn).
      exists r, st1. split; [done|]. split; [done|].
      split; [done|]. rewrite Hv. simpl. split; [done|].
      split; [by eapply holds_finite|]. split; [|done].
      left. unfold R, segment_roots. rewrite Hi99, Hr. right.
      apply elem_of_app. right. by left. }
  destruct Hright as (n2 & st2 & Hrun2 & Hp2 & Hin2 & Hlk2 & Hfin2 & HR2 & Hright).
  rewrite (bind_ok _ _ _ _ _ Hrun2).
  change (operand (Some n1)) with (@ret nat n1).
  change (operand (Some n2)) with (@ret nat n2).
  unfold bind at 1, ret at 1. unfold bind at 1, ret at 1.
  set (l := left_height heights i) in *. set (r := right_height heights i) in *.
  (* height_diff *)
  pose proof (later_on_tape _ _ _ (proj1 Hp2) Htot) as Htot2.
  assert (Hin1' : n1 ∈ aad_stack st2).
  { destruct (decide (n1 ∈ aad_stack st2)) as [|Hn]; [done|].
    exfalso. apply Hn. clear Hn. revert Hrun2.
    destruct (i =? 99)%nat.
    - intros [= _ <-]. simpl. apply elem_of_app. by left.
    - by intros [= _ <-]. }
  assert (Hlk1' : heap st2 !! n1 = Some (mkNode l [] [] None)).
  { revert Hrun2. destruct (i =? 99)%nat.
    - intros [= _ <-]. by apply lookup_appended_old.
    - by intros [= _ <-]. }
  rewrite (bind_ok _ _ _ _ _ (aad_sub_eq st2 n1 n2 _ _ Hlk1' Hlk2)).
  simpl value. set (d := l - r).
  assert (Hd : is_nan d = false) by by apply sub_finite_not_nan.
  destruct (pushed_over_appended R st st2 d [n1; n2] [1; -1] Hp2 eq_refl
              ltac:(by repeat constructor)
              ltac:(constructor; [exact HR1|];
                    constructor; [exact HR2|]; constructor))
    as (Hp3 & Hin3 & Hlk3 & _ & Hle3).
  set (st3 := appended st2 d [n1; n2] [1; -1]) in *.
  set (hd := length (heap st2)) in *.
  (* 0.0001 *)
  rewrite (bind_ok _ _ _ _ _ (aad_const_eq st3 0.0001)).
  destruct (pushed_over_appended R st st3 0.0001 [] [] Hp3 eq_refl
              ltac:(constructor) ltac:(constructor))
    as (Hp4 & Hin4 & Hlk4 & _ & Hle4).
  set (st4 := appended st3 0.0001 [] []) in *.
  set (c := length (heap st3)) in *.
  (* the square *)
  pose proof (later_on_tape st3 st4 hd
                (proj1 (later_appended st3 0.0001 [] [] (proj1 (proj1 Hp3)) eq_refl
                          ltac:(constructor))) Hin3) as Hin3'.
  pose proof (lookup_appended_old st3 0.0001 [] [] _ _ Hlk3) as Hlk3'.
  fold st4 in Hlk3'.
  rewrite (bind_ok _ _ _ _ _ (aad_mul_eq st4 hd hd _ _ Hlk3' Hlk3')).
  simpl value.
  destruct (pushed_over_appended R st st4 (d * d) [hd; hd] [d; d] Hp4 eq_refl
              ltac:(by repeat constructor)
              ltac:(repeat (apply Forall_cons_2; [right; assumption|]);
                    apply Forall_nil_2))
    as (Hp5 & Hin5 & Hlk5 & _ & Hle5).
  set (st5 := appended st4 (d * d) [hd; hd] [d; d]) in *.
  set (sq := length (heap st4)) in *.
  (* the base *)
  assert (Hin4' : c ∈ aad_stack st5).
  { simpl. apply elem_of_app. by left. }
  pose proof (lookup_appended_old st4 (d * d) [hd; hd] [d; d] _ _ Hlk4) as Hlk4'.
  fold st5 in Hlk4'.
  rewrite (bind_ok _ _ _ _ _ (aad_add_eq st5 c sq _ _ Hlk4' Hlk5)).
  simpl value.
  destruct (pushed_over_appended R st st5 (0.0001 + d * d) [c; sq] [1; 1] Hp5 eq_refl
              ltac:(by repeat constructor)
              ltac:(repeat (apply Forall_cons_2; [right; assumption|]);
                    apply Forall_nil_2))
    as (Hp6 & Hin6 & Hlk6 & _ & Hle6).
  set (st6 := appended st5 (0.0001 + d * d) [c; sq] [1; 1]) in *.
  set (base := length (heap st5)) in *.
  (* 0.5 *)
  rewrite (bind_ok _ _ _ _ _ (aad_const_eq st6 0.5)).
  destruct (pushed_over_appended R st st6 0.5 [] [] Hp6 eq_refl
              ltac:(constructor) ltac:(constructor))
    as (Hp7 & Hin7 & Hlk7 & _ & Hle7).
  set (st7 := appended st6 0.5 [] []) in *.
  set (half := length (heap st6)) in *.
  (* the power *)
  assert (Hin6' : base ∈ aad_stack st7).
  { simpl. apply elem_of_app. by left. }
  pose proof (lookup_appended_old st6 0.5 [] [] _ _ Hlk6) as Hlk6'.
  fold st7 in Hlk6'.
  destruct (positive_or_zero_not_negative _ (segment_base_positive d Hd))
    as [Hbnan Hbneg].
  pose proof (Math_log_defined ln _ Hln Hbnan Hbneg) as Hlg.
  pose proof (Math_exp_defined ex _ Hex (mul_half_not_nan _ Hlg)) as Hexp.
  pose proof (aad_pow_three ln ex st7 base half _ _ Hlk6' Hlk7
                (segment_base_not_zero d Hd) Hlg Hexp) as Hpow.
  cbv zeta in Hpow. simpl value in Hpow.
  rewrite (bind_ok _ _ _ _ _ Hpow). clear Hpow.
  set (lg := JS.Math_log ln (0.0001 + d * d)) in *.
  destruct (pushed_over_appended R st st7 lg [base] [1 / (0.0001 + d * d)] Hp7 eq_refl
              ltac:(by repeat constructor)
              ltac:(repeat (apply Forall_cons_2; [right; assumption|]);
                    apply Forall_nil_2))
    as (Hp8 & Hin8 & Hlk8 & _ & Hle8).
  set (st8 := appended st7 lg [base] [1 / (0.0001 + d * d)]) in *.
  assert (Hin7' : half ∈ aad_stack st8).
  { simpl. apply elem_of_app. by left. }
  destruct (pushed_over_appended R st st8 (0.5 * lg) [half; length (heap st7)]
              [lg; 0.5] Hp8 eq_refl
              ltac:(by repeat constructor)
              ltac:(repeat (apply Forall_cons_2; [right; assumption|]);
                    apply Forall_nil_2))
    as (Hp9 & Hin9 & Hlk9 & _ & Hle9).
  set (st9 := appended st8 (0.5 * lg) [half; length (heap st7)] [lg; 0.5]) in *.
  set (e := JS.Math_exp ex (0.5 * lg)) in *.
  destruct (pushed_over_appended R st st9 e [length (heap st8)] [e] Hp9 eq_refl
              ltac:(by repeat constructor)
              ltac:(repeat (apply Forall_cons_2; [right; assumption|]);
                    apply Forall_nil_2))
    as (Hp10 & Hin10 & Hlk10 & _ & Hle10).
  set (st10 := appended st9 e [length (heap st8)] [e]) in *.
  (* the new total *)
  pose proof (later_on_tape _ _ _ (proj1 Hp10) Htot) as Htot10.
  pose proof (later_lookup _ _ _ _ (proj1 Hp10) Hntot) as Hntot10.
  rewrite (aad_add_eq st10 total (length (heap st9)) _ _ Hntot10 Hlk10).
  simpl value.
  destruct (pushed_over_appended R st st10 (value ntot + e)
              [total; length (heap st9)] [1; 1] Hp10 eq_refl
              ltac:(by repeat constructor)
              ltac:(apply Forall_cons_2; [by left|];
                    apply Forall_cons_2; [right; assumption|]; apply Forall_nil_2))
    as (Hp11 & Hin11 & Hlk11 & Hlast11 & Hle11).
  do 3 eexists. split; [done|]. split; [done|]. split; [done|].
  split; [done|]. split; [done|]. split; [done|].
  intros r0 Hi99 Hr0. rewrite (Hright Hi99) in Hr0. injection Hr0 as <-.
  exists hd, (mkNode d [n1; n2] [1; -1] None).
  assert (Hl3 : later st3 (appended st10 (value ntot + e)
                             [total; length (heap st9)] [1; 1])).
  { split; [apply Hp11|].
    unfold st10, st9, st8, st7, st6, st5, st4. simpl.
    split; do 8 apply prefix_app_r; reflexivity. }
  split; [by eapply later_on_tape|]. split; [by eapply later_lookup|].
  simpl. by repeat constructor.
Qed.
End Segment.

Lemma map_aad_const_holds cs st :
  wf_tape st ->
  exists nodes st',
    map_aad_const cs st = (Ok nodes, st')
    /\ later st st'
    /\ length nodes = length cs
    /\ holds nodes cs st'
    /\ NoDup nodes
    /\ (forall r, r ∈ nodes -> (length (heap st) <= r)%nat)
    /\ aad_stack st' = aad_stack st ++ nodes.
Proof.
  revert st. induction cs as [|c cs IH]; intros st Hwf.
  - exists [], st. split; [done|]. split; [by apply later_refl|]. split; [done|].
    split; [by intros j r Hj; rewrite lookup_nil in Hj|].
    split; [constructor|]. split; [by intros r Hr; apply elem_of_nil in Hr|].
    by rewrite app_nil_r.
  - destruct (later_appended st c [] [] Hwf eq_refl ltac:(constructor))
      as (Hl1 & Hin1 & Hlk1).
    destruct (IH (appended st c [] []) (proj1 Hl1))
      as (nodes & st' & Hrun & Hl & Hlen & Hnodes & Hnd & Hge & Hst).
    exists (length (heap st) :: nodes), st'.
    assert (Hge' : forall r, r ∈ nodes -> (length (heap st) < r)%nat).
    { intros r Hr. apply Hge in Hr. simpl in Hr. rewrite length_app in Hr.
      simpl in Hr. lia. }
    split; [|split; [by eapply later_trans|split; [by simpl; rewrite Hlen|]]].
    + change (map_aad_const (c :: cs))
        with (node <- aad_const c ;; nodes <- map_aad_const cs ;; ret (node :: nodes)).
      rewrite (bind_ok _ _ _ _ _ (aad_const_eq st c)).
      by rewrite (bind_ok _ _ _ _ _ Hrun).
    + split; [|split; [|split]].
      * intros [|j] r Hj.
        -- injection Hj as <-. exists c. split; [done|].
           split; [by eapply later_on_tape|by eapply later_lookup].
        -- by apply Hnodes.
      * constructor; [|done]. intros Hin. apply Hge' in Hin. lia.
      * intros r [->|Hr]%elem_of_cons; [done|]. apply Hge' in Hr. lia.
      * rewrite Hst. simpl. by rewrite <- app_assoc.
Qed.

Lemma pushed_over_weaken R R' st st' :
  pushed_over R st st' ->
  (forall p, p ∈ R -> p ∈ R' \/ (length (heap st) <= p)%nat) ->
  pushed_over R' st st'.
Proof.
  intros [Hl Hp] HR. split; [done|]. intros c nd Hc Hnc Hnd.
  eapply Forall_impl; [exact (Hp c nd Hc Hnc Hnd)|]. simpl.
  intros p [Hin|Hge]; [by apply HR|by right].
Qed.

Lemma segment_roots_heights hs i total p :
  (i < 100)%nat ->
  p ∈ segment_roots hs i total -> p ∈ total :: take 99 hs.
Proof.
  intros Hi. unfold segment_roots.
  intros [->|Hp]%elem_of_cons; [by left|]. right.
  apply elem_of_app in Hp as [Hp|Hp].
  - destruct (i =? 0)%nat eqn:Hi0; [by apply elem_of_nil in Hp|].
    apply Nat.eqb_neq in Hi0.
    destruct (hs !! (i - 1)%nat) as [r|] eqn:Hr; [|by apply elem_of_nil in Hp].
    apply list_elem_of_singleton in Hp. subst p.
    apply list_elem_of_lookup. exists (i - 1)%nat. rewrite lookup_take_lt by lia. done.
  - destruct (i =? 99)%nat eqn:Hi99; [by apply elem_of_nil in Hp|].
    apply Nat.eqb_neq in Hi99.
    destruct (hs !! i) as [r|] eqn:Hr; [|by apply elem_of_nil in Hp].
    apply list_elem_of_singleton in Hp. subst p.
    apply list_elem_of_lookup. exists i. rewrite lookup_take_lt by lia. done.
Qed.

Section Segments.
Variables ln ex : float -> float.
Hypothesis Hln : log_defined ln.
Hypothesis Hex : exp_defined ex.

Lemma segments_push hs heights todo i total st ntot :
  wf_tape st ->
  holds hs heights st ->
  forallb is_finite heights = true ->
  total ∈ aad_stack st ->
  heap st !! total = Some ntot ->
  (99 <= length hs)%nat ->
  (i + todo <= 100)%nat ->
  (forall j r, (j < i `min` 99)%nat -> hs !! j = Some r -> used st r) ->
  exists total' st' ntot',
    segments ln ex hs todo i total st = (Ok total', st')
    /\ pushed_over (total :: take 99 hs) st st'
    /\ ((0 < todo)%nat ->
        last (aad_stack st') = Some total' /\ (length (heap st) <= total')%nat)
    /\ total' ∈ aad_stack st'
    /\ heap st' !! total' = Some ntot'
    /\ value ntot' = path_length_from ln ex heights todo i (value ntot)
    /\ forall j r, (j < (i + todo) `min` 99)%nat -> hs !! j = Some r -> used st' r.
Proof.
  revert i total st ntot.
  induction todo as [|todo IH];
    intros i total st ntot Hwf Hhs Hfin Htot Hntot Hlen Hi Hused.
  - exists total, st, ntot. split; [done|]. split; [by apply pushed_over_refl|].
    split; [lia|]. split; [done|]. split; [done|]. split; [done|].
    intros j r Hj. apply Hused. by rewrite Nat.add_0_r in Hj.
  - destruct (segment_pushes ln ex Hln Hex hs heights i total st ntot
                Hwf Hhs Hfin Htot Hntot Hlen ltac:(lia))
      as (total1 & st1 & ntot1 & Hrun1 & Hp1 & Hlast1 & Hge1 & Hntot1 & Hval1 & Hused1).
    assert (Htot1 : total1 ∈ aad_stack st1).
    { apply last_Some in Hlast1 as [l' ->]. apply elem_of_app. right. by left. }
    destruct (IH (S i) total1 st1 ntot1 (proj1 (proj1 Hp1)))
      as (total' & st' & ntot' & Hrun & Hp & Hlast & Htot' & Hntot' & Hval & Hused');
      [by eapply later_holds; [apply Hp1|]|done|done|done|done|lia| |].
    { intros j r Hj Hr. destruct (decide (j = i)) as [->|Hne].
      - apply Hused1; [lia|done].
      - eapply later_used; [apply Hp1|]. apply (Hused j); [lia|done]. }
    exists total', st', ntot'.
    split; [|split; [|split; [|split; [done|split; [done|split]]]]].
    + change (segments ln ex hs (S todo) i total)
        with (total_length' <- segment ln ex hs i total ;;
              segments ln ex hs todo (S i) total_length').
      by rewrite (bind_ok _ _ _ _ _ Hrun1).
    + eapply pushed_over_trans; [|exact Hp|].
      * eapply pushed_over_weaken; [exact Hp1|].
        intros p Hp'. left. eapply segment_roots_heights; [|done]. lia.
      * intros p [->|Hp']%elem_of_cons; [by right|]. left. by right.
    + intros _. destruct todo as [|todo].
      * revert Hrun. simpl. intros [= <- <-]. done.
      * destruct (Hlast ltac:(lia)) as [Hl Hg]. split; [done|].
        pose proof (later_heap_length _ _ (proj1 Hp1)). lia.
    + rewrite Hval, Hval1. reflexivity.
    + intros j r Hj. apply Hused'. lia.
Qed.

Lemma objective_function_runs heights st :
  (99 <= length heights)%nat ->
  forallb is_finite heights = true ->
  exists ds st',
    objective_function ln ex heights st
    = (Ok (path_length ln ex heights, ds), st')
    /\ length ds = length heights
    /\ (forall j, (j < 99)%nat -> exists d, ds !! j = Some (Some d))
    /\ (forall j, (99 <= j < length heights)%nat -> ds !! j = Some None).
Proof.
  intros Hlen Hfin. unfold objective_function.
  unfold bind at 1, aad_begin at 1.
  destruct (map_aad_const_holds heights (mkState (heap st) []) (wf_begin st))
    as (nodes & st1 & Hmap & Hl1 & Hlen1 & Hnodes & Hnd & Hge & Hst1).
  simpl in Hst1.
  rewrite (bind_ok _ _ _ _ _ Hmap).
  rewrite (bind_ok _ _ _ _ _ (aad_const_eq st1 0)).
  destruct (later_appended st1 0 [] [] (proj1 Hl1) eq_refl ltac:(constructor))
    as (Hl2 & Hin2 & Hlk2).
  set (st2 := appended st1 0 [] []) in *. set (total0 := length (heap st1)) in *.
  destruct (segments_push nodes heights 100 0 total0 st2 _
              (proj1 Hl2) (later_holds _ _ _ _ Hl2 Hnodes) Hfin Hin2 Hlk2
              ltac:(lia) ltac:(lia))
    as (total & st3 & ntot & Hseg & Hp3 & Hlast & Htot & Hntot & Hval & Hused).
  { intros j r Hj. simpl in Hj. lia. }
  destruct (Hlast ltac:(lia)) as [Hlast3 Hge3]. clear Hlast.
  rewrite (bind_ok _ _ _ _ _ Hseg).
  destruct (aad_calc_derivs_exact st3 total (proj1 (proj1 Hp3)) Hlast3)
    as (hf & Hrun & Hsk & Hd).
  rewrite (bind_ok _ _ _ _ _ Hrun).
  assert (Hsk' : skeleton (heap st3) = skeleton hf) by done.
  destruct (skeleton_lookup _ _ _ _ Hsk' Hntot) as (ntot' & Hntot' & Hv' & _).
  unfold bind at 1, get_value at 1. simpl heap. rewrite Hntot'.
  unfold bind, derivatives, ret. simpl heap.
  do 2 eexists. split; [|split; [by rewrite length_map|split]].
  - rewrite Hv', Hval. reflexivity.
  - intros j Hj. destruct (nodes !! j) as [r|] eqn:Hr.
    2:{ apply lookup_ge_None in Hr. lia. }
    destruct (Hused j r ltac:(simpl; lia) Hr) as (c & nd & Hc & Hnd' & Hpar).
    destruct (skeleton_lookup _ _ _ _ Hsk' Hnd') as (nd' & Hnd'' & _ & Hp' & _).
    rewrite list_lookup_fmap, Hr. simpl. rewrite Hd.
    destruct (terms hf (reverse (aad_stack st3)) r) as [|t ts] eqn:Hts.
    + exfalso. eapply (terms_some hf (reverse (aad_stack st3)) r c nd');
        [by apply elem_of_reverse|done|by rewrite Hp'|done].
    + destruct (accumulate_is_Some
                  (if decide (r = total) then Some 1 else get_derivative (heap st3) r)
                  t ts) as [d Hacc].
      exists d. by rewrite Hacc.
  - intros j Hj. destruct (nodes !! j) as [r|] eqn:Hr.
    2:{ apply lookup_ge_None in Hr. lia. }
    rewrite list_lookup_fmap, Hr. simpl. f_equal.
    destruct (later_holds _ _ _ _ (later_trans _ _ _ Hl2 (proj1 Hp3)) Hnodes j r Hr)
      as (v & Hv & Hin3 & Hlk3).
    destruct (Hnodes j r Hr) as (v1 & Hv1 & Hin1 & Hlk1).
    assert (Hlt : (r < total0)%nat) by (by apply lookup_lt_Some in Hlk1).
    assert (Hlen2 : length (heap st2) = S total0).
    { unfold st2. simpl. rewrite length_app. simpl. lia. }
    rewrite Hd, decide_False by lia.
    rewrite terms_none.
    { unfold get_derivative. by rewrite Hlk3. }
    intros c nd Hc Hndf Hin. rewrite elem_of_reverse in Hc.
    destruct (skeleton_lookup _ _ _ _ Hsk Hndf) as (nd3 & Hnd3 & _ & Hp3' & _).
    rewrite <- Hp3' in Hin.
    destruct (decide (c ∈ aad_stack st2)) as [Hc2|Hc2].
    + assert (Hconst : exists v0, heap st2 !! c = Some (mkNode v0 [] [] None)).
      { unfold st2 in Hc2. simpl in Hc2. rewrite Hst1 in Hc2.
        apply elem_of_app in Hc2 as [Hc2|Hc2].
        - apply list_elem_of_lookup in Hc2 as [k Hk].
          destruct (later_holds _ _ _ _ Hl2 Hnodes k c Hk) as (v0 & _ & _ & H0).
          by exists v0.
        - apply list_elem_of_singleton in Hc2. subst c. by exists 0. }
      destruct Hconst as [v0 Hv0].
      pose proof (later_lookup _ _ _ _ (proj1 Hp3) Hv0) as Hv3.
      rewrite Hv3 in Hnd3. injection Hnd3 as <-. by apply elem_of_nil in Hin.
    + destruct Hp3 as [_ Hp3]. pose proof (Hp3 c nd3 Hc Hc2 Hnd3) as Hall.
      rewrite Forall_forall in Hall. destruct (Hall r Hin) as [Hroot|Hnew]; [|lia].
      apply elem_of_cons in Hroot as [Hroot|Hroot]; [lia|].
      apply list_elem_of_lookup in Hroot as [k Hk].
      pose proof (lookup_lt_Some _ _ _ Hk) as Hklt. rewrite length_take in Hklt.
      rewrite lookup_take_lt in Hk by lia.
      assert (k = j) by (eapply NoDup_lookup; eauto). lia.
Qed.
End Segments.

Lemma segments_short ln ex hs todo i total st :
  (length hs < 99)%nat ->
  (i <= length hs < i + todo)%nat ->
  exists e st', segments ln ex hs todo i total st = (Throw e, st').
Proof.
  intros Hlen. revert i total st.
  induction todo as [|todo IH]; intros i total st Hi; [lia|].
  change (segments ln ex hs (S todo) i total)
    with (total_length' <- segment ln ex hs i total ;;
          segments ln ex hs todo (S i) total_length').
  destruct (segment ln ex hs i total st) as [[total1|e] st1] eqn:Hseg.
  - rewrite (bind_ok _ _ _ _ _ Hseg).
    destruct (decide (i = length hs)) as [->|Hne]; [|apply IH; lia].
    exfalso. revert Hseg. unfold segment.
    assert (Hleft : exists o st0,
              (if (length hs =? 0)%nat then node <- aad_const 0 ;; ret (Some node)
               else ret (hs !! (length hs - 1)%nat)) st = (Ok o, st0)).
    { destruct (length hs =? 0)%nat; by do 2 eexists. }
    destruct Hleft as (o & st0 & ->%(bind_ok _ _ _ _ _)).
    replace (length hs =? 99)%nat with false by (symmetry; apply Nat.eqb_neq; lia).
    rewrite (lookup_ge_None_2 hs (length hs)) by lia.
    unfold bind at 1, ret at 1. by destruct o.
  - rewrite (bind_throw _ _ _ _ _ Hseg). by do 2 eexists.
Qed.







(** X20. The first example of the file computes [log(sum)] for the sum 40
    of the products of [xs = [1, 2, 3, 4]] and [ys = [2, 3, 4, 5]]: if
    [Math.log(40)] is a number, the value printed is that number, the
    derivatives with respect to [xs] are [ys[i] * (1 / 40)], and those with
    respect to [ys] are [xs[i] * (1 / 40)]. *)
Theorem example_script_prints_products_with_the_reciprocal ln :
  is_nan (ln 40) = false ->
  fst (example_script ln fresh_session)
  = Ok (ln 40,
        [Some (2 * (1 / 40)); Some (3 * (1 / 40)); Some (4 * (1 / 40)); Some (5 * (1 / 40))],
        [Some (1 * (1 / 40)); Some (2 * (1 / 40)); Some (3 * (1 / 40)); Some (4 * (1 / 40))]).
Proof.
  intros Hnan. unfold example_script.
  unfold bind at 1, aad_begin at 1.
  erewrite bind_ok by (vm_compute; reflexivity).
  erewrite bind_ok by (vm_compute; reflexivity).
  erewrite bind_ok by (vm_compute; reflexivity).
  erewrite bind_ok by (vm_compute; reflexivity).
  erewrite (bind_ok (aad_log ln _)).
  2:{ erewrite aad_log_eq by reflexivity. simpl value.
      change (JS.Math_log ln 40) with (ln 40). unfold JS.isNaN. rewrite Hnan.
      reflexivity. }
  vm_compute. reflexivity.
Qed.

Lemma example_script_prints_products_with_the_reciprocal_witness :
  fst (example_script (fun _ => 3.6888794541139363) fresh_session)
  = Ok (3.6888794541139363,
        [Some 0.050000000000000003; Some 0.075000000000000011;
         Some 0.10000000000000001; Some 0.125],
        [Some 0.025000000000000001; Some 0.050000000000000003;
         Some 0.075000000000000011; Some 0.10000000000000001]).
Proof.
  exact (example_script_prints_products_with_the_reciprocal
           (fun _ => 3.6888794541139363) eq_refl).
Defined.
End ObjectiveFacts.
